(** * Denoising prefilter kernels of Cycles: a shallow embedding

    The four kernels of the prefilter ([kernel_filter_divide_shadow],
    [kernel_filter_get_feature], [kernel_filter_combine_halves],
    [kernel_filter_non_local_means]) are embedded as Rocq functions over

    - 32-bit [int] arithmetic: [Z] with the two's-complement wrap-around
      written out at every operation;
    - single-precision [float] arithmetic: the IEEE-754 binary32 instance
      (precision 24, emax 128) of the Standard Library's [SpecFloat],
      round-to-nearest-even, NaN without payload; every operation of the
      source is rounded on its own (no fused multiply-add, no excess
      precision);
    - C pointers: a block and an offset into a memory of float cells; the
      kernels are state transformers that log their stores.

    Helpers that the kernels call but that are defined elsewhere in the
    code base ([max], [min], [align_up], [fast_expf]) are modelled from
    their description or taken as parameters, and say so.

    The frame-range parser of the cache library operators is embedded
    after the kernels, over C strings as lists of characters. *)

From Stdlib Require Import Ascii String.
From Stdlib Require Import ZArith List Bool Lia Setoid Morphisms.
From Stdlib Require Import Floats.SpecFloat.
Import ListNotations.

Local Open Scope Z_scope.

(** ** 32-bit signed integers *)

Module Int32.

Definition min_signed : Z := - 2 ^ 31.
Definition max_signed : Z := 2 ^ 31 - 1.

(** Two's-complement reduction of an integer to the range of [int]. *)
Definition wrap (z : Z) : Z := (z + 2 ^ 31) mod 2 ^ 32 - 2 ^ 31.

Definition in_range (z : Z) : Prop := min_signed <= z <= max_signed.

Definition add (a b : Z) : Z := wrap (a + b).
Definition sub (a b : Z) : Z := wrap (a - b).
Definition mul (a b : Z) : Z := wrap (a * b).
Definition neg (a : Z) : Z := wrap (- a).

End Int32.

(** ** Single-precision floats *)

Module F32.

Definition prec : Z := 24.
Definition emax : Z := 128.

Definition float : Type := spec_float.

Definition add : float -> float -> float := SFadd prec emax.
Definition sub : float -> float -> float := SFsub prec emax.
Definition mul : float -> float -> float := SFmul prec emax.
Definition div : float -> float -> float := SFdiv prec emax.
Definition opp : float -> float := SFopp.
Definition ltb : float -> float -> bool := SFltb.
Definition leb : float -> float -> bool := SFleb.
Definition eqb : float -> float -> bool := SFeqb.

(** Conversion of an [int] to [float] (round to nearest even). *)
Definition of_int (z : Z) : float := binary_normalize prec emax z 0 false.

(** The literals of the source: [0.0f], [1.0f], [0.5f], [1e-7f]. *)
Definition zero : float := S754_zero false.
Definition one : float := S754_finite false 8388608 (-23).
Definition half : float := S754_finite false 8388608 (-24).
Definition eps : float := S754_finite false 14073749 (-47).

(** Structural equality of floats, as a boolean. *)
Definition same (x y : float) : bool :=
  match x, y with
  | S754_zero s, S754_zero t => Bool.eqb s t
  | S754_infinity s, S754_infinity t => Bool.eqb s t
  | S754_nan, S754_nan => true
  | S754_finite s m e, S754_finite t n d =>
      Bool.eqb s t && Pos.eqb m n && Z.eqb e d
  | _, _ => false
  end.

Definition is_nan (x : float) : bool :=
  match x with S754_nan => true | _ => false end.

Definition is_finite (x : float) : bool :=
  match x with S754_zero _ | S754_finite _ _ _ => true | _ => false end.

Definition is_zero (x : float) : bool :=
  match x with S754_zero _ => true | _ => false end.

End F32.

Abbreviation float := F32.float.

Declare Scope f32_scope.
Delimit Scope f32_scope with f32.
Infix "+" := F32.add : f32_scope.
Infix "-" := F32.sub : f32_scope.
Infix "*" := F32.mul : f32_scope.
Infix "/" := F32.div : f32_scope.
Notation "- x" := (F32.opp x) : f32_scope.

(** ** Memory: blocks, pointers and the log of stores

    A [float *] is a block with an offset; [p[i]] is the cell [ofs p + i]
    of block [blk p].  Two pointers into the same block may alias.  Every
    store is appended to the [trace] of the state, so that what a kernel
    writes can be told from what the memory holds at the end. *)

Definition block : Type := positive.

Record ptr : Type := Ptr { blk : block; ofs : Z }.

Record event : Type := Ev { ev_blk : block; ev_ofs : Z; ev_val : float }.

Record state : Type := State { fmem : block -> Z -> float; trace : list event }.

Definition ptr_add (p : ptr) (n : Z) : ptr := Ptr (blk p) (ofs p + n).

Definition load (s : state) (p : ptr) (i : Z) : float :=
  fmem s (blk p) (ofs p + i).

Definition store (s : state) (p : ptr) (i : Z) (v : float) : state :=
  State (fun b o => if Pos.eqb b (blk p) && Z.eqb o (ofs p + i) then v
                    else fmem s b o)
        (trace s ++ [Ev (blk p) (ofs p + i) v]).

(** The cell a store through [p] at index [i] hits. *)
Definition cell (p : ptr) (i : Z) : block * Z := (blk p, ofs p + i).

Definition ev_cell (e : event) : block * Z := (ev_blk e, ev_ofs e).

Definition cell_eqb (c d : block * Z) : bool :=
  Pos.eqb (fst c) (fst d) && Z.eqb (snd c) (snd d).

(** Arrays of [int] are only ever read by the kernels. *)
Definition int_array : Type := Z -> Z.

(** ** Vector types and helpers of the kernel headers *)

(** Modelled from the spec: the vector types [int2] and [int4] are declared
    outside the sources at hand.  A rectangle is four integers
    [(x, y, z, w)], the lower corner [(x, y)] inclusive and the upper corner
    [(z, w)] exclusive. *)
Record int2 : Type := make_int2 { int2_x : Z; int2_y : Z }.
Record int4 : Type :=
  make_int4 { int4_x : Z; int4_y : Z; int4_z : Z; int4_w : Z }.

(** Modelled from the spec: [KernelGlobals] is declared outside the sources
    at hand.  The kernels read two integers of [kernel_data.film], the
    stride of a pixel record and the base of the denoising passes in it;
    both are configuration constants of the pass layout. *)
Record KernelGlobals : Type :=
  { pass_stride : Z; pass_denoising : Z }.

(** Modelled from the spec: [max] and [min] on [int] are absent from the
    sources at hand; the spec uses them as the maximum and the minimum. *)
Definition max_i (a b : Z) : Z := Z.max a b.
Definition min_i (a b : Z) : Z := Z.min a b.

(** Modelled from the spec: [max] and [min] on [float] are absent from the
    sources at hand; the spec uses them as the maximum and the minimum.
    They are taken as the comparisons [a > b ? a : b] and [a < b ? a : b],
    which return [b] when the comparison is unordered. *)
Definition max_f (a b : float) : float := if F32.ltb b a then a else b.
Definition min_f (a b : float) : float := if F32.ltb a b then a else b.

(** Modelled from the spec: [align_up] is absent from the sources at hand;
    the spec describes [align_up(width, 4)] as the 4-aligned width, the
    least multiple of the alignment (a power of two) that is not below the
    offset.  It is computed by masking the low bits. *)
Definition align_up (offset alignment : Z) : Z :=
  Z.land (Int32.add offset (Int32.sub alignment 1))
         (Z.lnot (Int32.sub alignment 1)).

(** ** Loops

    [for (i = lo; i < hi; i++)] with a loop-carried state.  The bound is
    fixed and the counter moves by one, so the body runs for
    [lo, lo+1, ..., hi-1]; every bound in the kernels is the [max] or [min]
    against a value of [int] range, so the counter never leaves [int]. *)

Section Loops.
Context {S : Type}.

Fixpoint for_range (n : nat) (i : Z) (body : Z -> S -> S) (s : S) : S :=
  match n with
  | O => s
  | Datatypes.S n' => for_range n' (i + 1) body (body i s)
  end.

Definition for_lt (lo hi : Z) (body : Z -> S -> S) (s : S) : S :=
  for_range (Z.to_nat (hi - lo)) lo body s.
End Loops.

(** ** Addressing shared by the kernels *)

(** [(x < tile_x[1]) ? 0 : ((x < tile_x[2]) ? 1 : 2)] *)
Definition tile_band (c : Z) (bounds : int_array) : Z :=
  if c <? bounds 1 then 0 else if c <? bounds 2 then 1 else 2.

(** [ytile*3 + xtile] *)
Definition tile_index (x y : Z) (tile_x tile_y : int_array) : Z :=
  Int32.add (Int32.mul (tile_band y tile_y) 3) (tile_band x tile_x).

(** [buffers[tile] + (offset[tile] + y*stride[tile] + x)*pass_stride
     + pass_denoising] *)
Definition center_buffer (kg : KernelGlobals) (buffers : Z -> ptr)
    (x y : Z) (tile_x tile_y offset stride : int_array) : ptr :=
  let tile := tile_index x y tile_x tile_y in
  ptr_add
    (ptr_add (buffers tile)
       (Int32.mul
          (Int32.add (Int32.add (offset tile) (Int32.mul y (stride tile))) x)
          (pass_stride kg)))
    (pass_denoising kg).

(** [align_up(rect.z - rect.x, 4)] *)
Definition buffer_w (rect : int4) : Z :=
  align_up (Int32.sub (int4_z rect) (int4_x rect)) 4.

(** [(y-rect.y)*buffer_w + (x - rect.x)] *)
Definition pixel_index (x y : Z) (rect : int4) : Z :=
  Int32.add (Int32.mul (Int32.sub y (int4_y rect)) (buffer_w rect))
            (Int32.sub x (int4_x rect)).

(** ** The kernels *)

Local Open Scope f32_scope.

(** [Bofs = (rect.w - rect.y)*buffer_w] *)
Definition shadow_Bofs (rect : int4) : Z :=
  Int32.mul (Int32.sub (int4_w rect) (int4_y rect)) (buffer_w rect).

(** [varFac = 1.0f / (sample * (sample-1))]: the product is an [int]
    product, converted to [float] for the division. *)
Definition varFac (sample : Z) : float :=
  F32.one / F32.of_int (Int32.mul sample (Int32.sub sample 1)).

Definition kernel_filter_divide_shadow (kg : KernelGlobals) (sample : Z)
    (buffers : Z -> ptr) (x y : Z) (tile_x tile_y offset stride : int_array)
    (unfiltered sampleVariance sampleVarianceV bufferVariance : ptr)
    (rect : int4) (s : state) : state :=
  let cb := center_buffer kg buffers x y tile_x tile_y offset stride in
  let idx := pixel_index x y rect in
  let Bofs := shadow_Bofs rect in
  let s := store s unfiltered idx
             (load s cb 15 / max_f (load s cb 14) F32.eps) in
  let s := store s unfiltered (Int32.add idx Bofs)
             (load s cb 18 / max_f (load s cb 17) F32.eps) in
  let vf := varFac sample in
  let s := store s sampleVariance idx
             ((load s cb 16 + load s cb 19) * vf) in
  let s := store s sampleVarianceV idx
             (F32.half * (load s cb 16 - load s cb 19)
                * (load s cb 16 - load s cb 19) * vf) in
  store s bufferVariance idx
    (F32.half
       * (load s unfiltered idx - load s unfiltered (Int32.add idx Bofs))
       * (load s unfiltered idx - load s unfiltered (Int32.add idx Bofs))).

Definition kernel_filter_get_feature (kg : KernelGlobals) (sample : Z)
    (buffers : Z -> ptr) (m_offset v_offset : Z) (x y : Z)
    (tile_x tile_y offset stride : int_array) (mean variance : ptr)
    (rect : int4) (s : state) : state :=
  let cb := center_buffer kg buffers x y tile_x tile_y offset stride in
  let idx := pixel_index x y rect in
  let s := store s mean idx (load s cb m_offset / F32.of_int sample) in
  store s variance idx
    (load s cb v_offset
       / F32.of_int (Int32.mul sample (Int32.sub sample 1))).

(** The output pointers [mean] and [variance] may be null: [None]. *)
Definition kernel_filter_combine_halves (x y : Z) (mean variance : option ptr)
    (a b : ptr) (rect : int4) (s : state) : state :=
  let idx := pixel_index x y rect in
  let s := match mean with
           | Some mean => store s mean idx (F32.half * (load s a idx + load s b idx))
           | None => s
           end in
  match variance with
  | Some variance =>
      store s variance idx
        (F32.half * (load s a idx - load s b idx) * (load s a idx - load s b idx))
  | None => s
  end.

(** *** The non-local means filter

    [fast_expf] is absent from the sources at hand and is taken as a
    parameter of the kernel.  The three images the filter reads are passed
    to the loops as the arrays seen through their pointers. *)

(** The loop-invariant part of one call. *)
Record nlm_env : Type := Nlm_env {
  nlm_x : Z; nlm_y : Z;
  nlm_noisyImage : Z -> float;
  nlm_weightImage : Z -> float;
  nlm_variance : Z -> float;
  nlm_rect : int4; nlm_r : Z; nlm_f : Z; nlm_a : float; nlm_k_2 : float }.

Section NonLocalMeans.

Variable fast_expf : float -> float.
Variable E : nlm_env.

Let x := nlm_x E.
Let y := nlm_y E.
Let noisyImage := nlm_noisyImage E.
Let weightImage := nlm_weightImage E.
Let variance := nlm_variance E.
Let rect := nlm_rect E.
Let r := nlm_r E.
Let f := nlm_f E.
Let a := nlm_a E.
Let k_2 := nlm_k_2 E.

Definition nlm_low : int2 :=
  make_int2 (max_i (int4_x rect) (Int32.sub x r))
            (max_i (int4_y rect) (Int32.sub y r)).

Definition nlm_high : int2 :=
  make_int2 (min_i (int4_z rect) (Int32.add (Int32.add x r) 1))
            (min_i (int4_w rect) (Int32.add (Int32.add y r) 1)).

Definition nlm_w : Z := buffer_w rect.

Definition nlm_p_idx : Z := pixel_index x y rect.

(** The start value of the running index [q_idx]. *)
Definition nlm_q_idx0 : Z :=
  Int32.add (Int32.mul (Int32.sub (int2_y nlm_low) (int4_y rect)) nlm_w)
            (Int32.sub (int2_x nlm_low) (int4_x rect)).

Definition low_dPatch (qx qy : Z) : int2 :=
  make_int2
    (max_i (max_i (Int32.sub (int4_x rect) qx) (Int32.sub (int4_x rect) x))
           (Int32.neg f))
    (max_i (max_i (Int32.sub (int4_y rect) qy) (Int32.sub (int4_y rect) y))
           (Int32.neg f)).

Definition high_dPatch (qx qy : Z) : int2 :=
  make_int2
    (min_i (min_i (Int32.sub (int4_z rect) qx) (Int32.sub (int4_z rect) x))
           (Int32.add f 1))
    (min_i (min_i (Int32.sub (int4_w rect) qy) (Int32.sub (int4_w rect) y))
           (Int32.add f 1)).

(** The summand of [dI] at the patch offset [dIdx]: the body of the
    loop over [dx]. *)
Definition patch_term (q_idx dIdx : Z) : float :=
  let pi := Int32.add nlm_p_idx dIdx in
  let qi := Int32.add q_idx dIdx in
  let diff := weightImage pi - weightImage qi in
  (diff * diff - a * (variance pi + min_f (variance pi) (variance qi)))
  * (F32.one / (F32.eps + k_2 * (variance pi + variance qi))).

(** One row of the patch: the loop over [dx], then
    [dIdx += w-(high_dPatch.x - low_dPatch.x)]. *)
Definition patch_row (q_idx : Z) (lo hi : int2) (st : Z * float)
  : Z * float :=
  let '(dIdx, dI) :=
    for_lt (int2_x lo) (int2_x hi)
      (fun _ '(dIdx, dI) =>
         (Int32.add dIdx 1, dI + patch_term q_idx dIdx))
      st in
  (Int32.add dIdx (Int32.sub nlm_w (Int32.sub (int2_x hi) (int2_x lo))), dI).

(** The number of patch pixels, as the [int] product of the source. *)
Definition patch_area (lo hi : int2) : Z :=
  Int32.mul (Int32.sub (int2_x hi) (int2_x lo))
            (Int32.sub (int2_y hi) (int2_y lo)).

(** The distance [dI] between the patches at [p] and at [q]. *)
Definition patch_distance (qx qy q_idx : Z) : float :=
  let lo := low_dPatch qx qy in
  let hi := high_dPatch qx qy in
  let dIdx := Int32.add (int2_x lo) (Int32.mul (int2_y lo) nlm_w) in
  let '(_, dI) :=
    for_lt (int2_y lo) (int2_y hi)
      (fun _ st => patch_row q_idx lo hi st) (dIdx, F32.zero) in
  dI * (F32.one / F32.of_int (patch_area lo hi)).

(** [wI = fast_expf(-max(0.0f, dI))] *)
Definition nlm_weight (qx qy q_idx : Z) : float :=
  fast_expf (- max_f F32.zero (patch_distance qx qy q_idx)).

(** The state carried by the loops over [q]: [q_idx], [sum_image],
    [sum_weight]. *)
Definition nlm_acc : Type := (Z * float * float)%type.

Definition nlm_step (qx qy : Z) (st : nlm_acc) : nlm_acc :=
  let '(q_idx, sum_image, sum_weight) := st in
  let wI := nlm_weight qx qy q_idx in
  (Int32.add q_idx 1, sum_image + wI * noisyImage q_idx, sum_weight + wI).

Definition nlm_row (qy : Z) (st : nlm_acc) : nlm_acc :=
  let '(q_idx, sum_image, sum_weight) :=
    for_lt (int2_x nlm_low) (int2_x nlm_high)
      (fun qx st => nlm_step qx qy st) st in
  (Int32.add q_idx
     (Int32.sub nlm_w (Int32.sub (int2_x nlm_high) (int2_x nlm_low))),
   sum_image, sum_weight).

(** [sum_image] and [sum_weight] when the loops over [q] are done. *)
Definition nlm_sums : float * float :=
  let '(_, sum_image, sum_weight) :=
    for_lt (int2_y nlm_low) (int2_y nlm_high) nlm_row
      (nlm_q_idx0, F32.zero, F32.zero) in
  (sum_image, sum_weight).

(** [sum_image / sum_weight] *)
Definition nlm_result : float := fst nlm_sums / snd nlm_sums.

End NonLocalMeans.

Definition kernel_filter_non_local_means (fast_expf : float -> float)
    (x y : Z) (noisyImage weightImage variance filteredImage : ptr)
    (rect : int4) (r f : Z) (a k_2 : float) (s : state) : state :=
  let E := Nlm_env x y (load s noisyImage) (load s weightImage)
             (load s variance) rect r f a k_2 in
  store s filteredImage (nlm_p_idx E) (nlm_result fast_expf E).

Local Close Scope f32_scope.

(** ** Vocabulary of the statements *)

(** More literals: [2.0f], [5.0f]. *)
Definition two : float := S754_finite false 8388608 (-22).
Definition five : float := S754_finite false 10485760 (-21).

(** The events a kernel appended to the trace of [s] on its way to [s']. *)
Definition appended (s s' : state) : list event :=
  skipn (length (trace s)) (trace s').

Definition cell_eq_dec (c d : block * Z) : {c = d} + {c <> d}.
Proof. decide equality; [apply Z.eq_dec | apply Pos.eq_dec]. Defined.

(** The distinct cells among a list of events. *)
Definition cells_written (evs : list event) : list (block * Z) :=
  nodup cell_eq_dec (map ev_cell evs).

(** The five cells [kernel_filter_divide_shadow] stores to, in program
    order. *)
Definition shadow_cells (x y : Z) (rect : int4)
    (unfiltered sampleVariance sampleVarianceV bufferVariance : ptr)
  : list (block * Z) :=
  let idx := pixel_index x y rect in
  [ cell unfiltered idx;
    cell unfiltered (Int32.add idx (shadow_Bofs rect));
    cell sampleVariance idx;
    cell sampleVarianceV idx;
    cell bufferVariance idx ].

(** The pixel record is read from one allocation and the four outputs go
    to four others. *)
Definition shadow_separate (cb unfiltered sampleVariance sampleVarianceV
                            bufferVariance : ptr) : Prop :=
  NoDup [blk cb; blk unfiltered; blk sampleVariance; blk sampleVarianceV;
         blk bufferVariance].

(** *** The search window of the non-local means filter *)

(** [n] consecutive integers from [i] on. *)
Fixpoint zseq (i : Z) (n : nat) : list Z :=
  match n with
  | O => []
  | S n' => i :: zseq (i + 1) n'
  end.

(** The integers [lo, ..., hi-1] a [for] loop runs through. *)
Definition zrange (lo hi : Z) : list Z := zseq lo (Z.to_nat (hi - lo)).

(** The candidate centres [q] in the order the loops visit them. *)
Definition nlm_window (E : nlm_env) : list (Z * Z) :=
  flat_map
    (fun qy => map (fun qx => (qx, qy))
                   (zrange (int2_x (nlm_low E)) (int2_x (nlm_high E))))
    (zrange (int2_y (nlm_low E)) (int2_y (nlm_high E))).

Definition in_rect (rect : int4) (q : Z * Z) : Prop :=
  int4_x rect <= fst q < int4_z rect /\ int4_y rect <= snd q < int4_w rect.

(** The value the running index [q_idx] has at the candidate [q]. *)
Definition q_index (E : nlm_env) (q : Z * Z) : Z :=
  pixel_index (fst q) (snd q) (nlm_rect E).

(** The weight of the candidate [q]. *)
Definition weight_at (fast_expf : float -> float) (E : nlm_env) (q : Z * Z)
  : float :=
  nlm_weight fast_expf E (fst q) (snd q) (q_index E q).

(** The distance of the candidate [q]. *)
Definition distance_at (E : nlm_env) (q : Z * Z) : float :=
  patch_distance E (fst q) (snd q) (q_index E q).

(** What one candidate adds to [(sum_image, sum_weight)]. *)
Definition accumulate (fast_expf : float -> float) (E : nlm_env)
    (acc : float * float) (q : Z * Z) : float * float :=
  (F32.add (fst acc)
     (F32.mul (weight_at fast_expf E q) (nlm_noisyImage E (q_index E q))),
   F32.add (snd acc) (weight_at fast_expf E q)).

(** The coordinates are [int]s and the extent of the rectangle is one. *)
Definition rect_fits (rect : int4) : Prop :=
  Int32.in_range (int4_x rect) /\ Int32.in_range (int4_y rect)
  /\ Int32.in_range (int4_z rect) /\ Int32.in_range (int4_w rect)
  /\ int4_z rect - int4_x rect <= Int32.max_signed
  /\ int4_w rect - int4_y rect <= Int32.max_signed.

(** *** Classes of floats *)

Definition emin : Z := SpecFloat.emin F32.prec F32.emax.

(** Zero, negative or minus infinity. *)
Definition nonpos (x : float) : bool :=
  match x with
  | S754_zero _ | S754_finite true _ _ | S754_infinity true => true
  | _ => false
  end.

(** Zero or a positive finite float. *)
Definition nonneg_finite (x : float) : bool :=
  match x with
  | S754_zero _ | S754_finite false _ _ => true
  | _ => false
  end.

(** A positive finite float whose exponent is not below the least one. *)
Definition positive_finite (x : float) : bool :=
  match x with
  | S754_finite false _ e => emin <=? e
  | _ => false
  end.

(** A positive finite float or plus infinity. *)
Definition strictly_positive (x : float) : bool :=
  match x with
  | S754_finite false _ e => emin <=? e
  | S754_infinity false => true
  | _ => false
  end.

(** A float in (0, 1]. *)
Definition unit_weight (x : float) : bool :=
  positive_finite x && F32.leb x F32.one.

(** Modelled from the spec: [fast_expf] is absent from the sources at hand.
    The spec describes the weight as [exp(-max(0, dI))], which is 1 at
    distance 0 and stays in (0,1] for every distance. *)
Record exp_like (fast_expf : float -> float) : Prop := {
  exp_zero : forall sgn, fast_expf (S754_zero sgn) = F32.one;
  exp_unit : forall x, nonpos x = true -> unit_weight (fast_expf x) = true }.

(** A coarse exponential with these two properties: a staircase of powers
    of two, [2^-(1 + floor(3|x|/2))] for negative [x], never below
    [2^-126]. *)
Definition pow2 (k : Z) : float := S754_finite false 8388608 (k - 23).

Definition expf_coarse (x : float) : float :=
  match x with
  | S754_zero _ => F32.one
  | S754_nan => S754_nan
  | S754_infinity true => pow2 (-126)
  | S754_infinity false => S754_infinity false
  | S754_finite true m e =>
      pow2 (- Z.min 126 (1 + Z.shiftl (3 * Z.pos m) (e - 1)))
  | S754_finite false m e =>
      pow2 (Z.min 127 (Z.shiftl (3 * Z.pos m) (e - 1)))
  end.

(** *** Congruence modulo 2^32 *)

Definition eqm32 : Z -> Z -> Prop := eqm (2 ^ 32).

#[local] Instance eqm32_equiv : Equivalence eqm32 := eqm_setoid (2 ^ 32).
#[local] Instance eqm32_add : Proper (eqm32 ==> eqm32 ==> eqm32) Z.add :=
  Zplus_eqm (2 ^ 32).
#[local] Instance eqm32_sub : Proper (eqm32 ==> eqm32 ==> eqm32) Z.sub :=
  Zminus_eqm (2 ^ 32).
#[local] Instance eqm32_mul : Proper (eqm32 ==> eqm32 ==> eqm32) Z.mul :=
  Zmult_eqm (2 ^ 32).
#[local] Instance eqm32_opp : Proper (eqm32 ==> eqm32) Z.opp :=
  Zopp_eqm (2 ^ 32).

(** *** Vocabulary of the rounding lemmas *)

(** The number of low bits rounding drops from a mantissa [m] at exponent
    [e] to bring it to its binary32 exponent. *)
Definition shift_of (m e : Z) : Z :=
  Z.max 0 (fexp F32.prec F32.emax (Zdigits2 m + e) - e).

(** The float built from a rounded mantissa and its exponent. *)
Definition round_result (s : bool) (m e : Z) : float :=
  match m with
  | Z0 => S754_zero s
  | Z.pos p =>
      if e <=? F32.emax - F32.prec then S754_finite s p e
      else S754_infinity s
  | Z.neg _ => S754_nan
  end.

(** The binade of a finite float: digits of the mantissa plus exponent. *)
Definition magnitude (x : float) : Z :=
  match x with
  | S754_finite _ m e => Zdigits2 (Z.pos m) + e
  | _ => 0
  end.

(** Carries the sign [s]: a zero, a finite float with exponent at least
    [emin], or an infinity of that sign. *)
Definition has_sign (s : bool) (x : float) : bool :=
  match x with
  | S754_zero t | S754_infinity t => Bool.eqb s t
  | S754_finite t _ e => Bool.eqb s t && (emin <=? e)
  | S754_nan => false
  end.

(** Zero of either sign, or of sign [s] in the sense of [has_sign]. *)
Definition zero_or_sign (s : bool) (x : float) : bool :=
  F32.is_zero x || has_sign s x.

(** Zero of either sign or a finite float of sign [s] with exponent at
    least [emin]. *)
Definition finite_of_sign (s : bool) (x : float) : bool :=
  match x with
  | S754_zero _ => true
  | S754_finite t _ e => Bool.eqb s t && (emin <=? e)
  | _ => false
  end.

(** Zero of either sign, or finite or infinite of sign [s], whatever the
    exponent. *)
Definition signed (s : bool) (x : float) : bool :=
  match x with
  | S754_zero _ => true
  | S754_finite t _ _ | S754_infinity t => Bool.eqb s t
  | S754_nan => false
  end.

(** Plus infinity, or a positive finite float of exponent at least [emin]
    that is not below the binade [lo]. *)
Definition positive_from (lo : Z) (x : float) : bool :=
  match x with
  | S754_infinity false => true
  | S754_finite false m e => (emin <=? e) && (lo <=? Zdigits2 (Z.pos m) + e)
  | _ => false
  end.

(** A positive finite float of exponent at least [emin] in the binades
    [lo] to [hi]. *)
Definition positive_within (lo hi : Z) (x : float) : bool :=
  match x with
  | S754_finite false m e =>
      (emin <=? e) && (lo <=? Zdigits2 (Z.pos m) + e)
      && (Zdigits2 (Z.pos m) + e <=? hi)
  | _ => false
  end.

(** *** Hypotheses on the inputs of the non-local means filter *)

(** The weight image is finite, the variance, [a] and [k_2] are finite and
    not negative, and neither [a * 2 variance] nor [k_2 * 2 variance]
    overflows. *)
Definition clean_inputs (E : nlm_env) : Prop :=
  nonneg_finite (nlm_a E) = true
  /\ nonneg_finite (nlm_k_2 E) = true
  /\ forall i,
       F32.is_finite (nlm_weightImage E i) = true
       /\ nonneg_finite (nlm_variance E i) = true
       /\ F32.is_finite
            (F32.mul (nlm_a E)
               (F32.add (nlm_variance E i) (nlm_variance E i))) = true
       /\ F32.is_finite
            (F32.mul (nlm_k_2 E)
               (F32.add (nlm_variance E i) (nlm_variance E i))) = true.

(** The target pixel lies in a rectangle of [int] extent, and the patch of
    half-size [f] has an area that is an [int]. *)
Definition patch_fits (E : nlm_env) : Prop :=
  rect_fits (nlm_rect E)
  /\ in_rect (nlm_rect E) (nlm_x E, nlm_y E)
  /\ 0 <= nlm_f E
  /\ (2 * nlm_f E + 1) * (2 * nlm_f E + 1) <= Int32.max_signed.

(** The bounds of the search window are computed without overflow. *)
Definition window_fits (E : nlm_env) : Prop :=
  in_rect (nlm_rect E) (nlm_x E, nlm_y E)
  /\ 0 <= nlm_r E
  /\ Int32.in_range (nlm_x E - nlm_r E)
  /\ Int32.in_range (nlm_x E + nlm_r E + 1)
  /\ Int32.in_range (nlm_y E - nlm_r E)
  /\ Int32.in_range (nlm_y E + nlm_r E + 1).

(** *** The cells the non-local means filter reads *)

(** The value the running offset [dIdx] has at the patch pixel [(dx, dy)]:
    [dx + dy*w]. *)
Definition patch_offset (rect : int4) (dx dy : Z) : Z :=
  Int32.add dx (Int32.mul dy (buffer_w rect)).

(** Two images hold the same floats in the cells of a buffer over [rect],
    the [(rect.w - rect.y) * buffer_w] cells from index 0 on. *)
Definition agree_on_buffer (rect : int4) (u v : Z -> float) : Prop :=
  forall i, 0 <= i < shadow_Bofs rect -> u i = v i.

(** The padded size of the rectangle is an [int]. *)
Definition buffer_fits (rect : int4) : Prop :=
  rect_fits rect
  /\ (int4_w rect - int4_y rect) * (int4_z rect - int4_x rect + 3)
     <= Int32.max_signed.

(** *** Sequences of stores *)

(** A store: the pointer, the index and the float. *)
Definition write : Type := (ptr * Z * float)%type.

Definition write_cell (w : write) : block * Z :=
  cell (fst (fst w)) (snd (fst w)).

(** The stores of a list, first to last. *)
Definition stores (s : state) (ws : list write) : state :=
  fold_left (fun s w => store s (fst (fst w)) (snd (fst w)) (snd w)) ws s.

(** The float the last store of the list to the cell [c] carries, if there
    is one. *)
Fixpoint written (ws : list write) (c : block * Z) : option float :=
  match ws with
  | [] => None
  | w :: ws' =>
      match written ws' c with
      | Some v => Some v
      | None => if cell_eqb c (write_cell w) then Some (snd w) else None
      end
  end.

(** The five stores of [kernel_filter_divide_shadow] for the pixel
    [(x, y)], with the floats computed from the pass record in [s]. *)
Definition shadow_writes (kg : KernelGlobals) (sample : Z)
    (buffers : Z -> ptr) (x y : Z) (tile_x tile_y offset stride : int_array)
    (unfiltered sampleVariance sampleVarianceV bufferVariance : ptr)
    (rect : int4) (s : state) : list write :=
  let cb := center_buffer kg buffers x y tile_x tile_y offset stride in
  let idx := pixel_index x y rect in
  let Bofs := shadow_Bofs rect in
  let ratioA := F32.div (load s cb 15) (max_f (load s cb 14) F32.eps) in
  let ratioB := F32.div (load s cb 18) (max_f (load s cb 17) F32.eps) in
  [ (unfiltered, idx, ratioA);
    (unfiltered, Int32.add idx Bofs, ratioB);
    (sampleVariance, idx,
     F32.mul (F32.add (load s cb 16) (load s cb 19)) (varFac sample));
    (sampleVarianceV, idx,
     F32.mul
       (F32.mul (F32.mul F32.half (F32.sub (load s cb 16) (load s cb 19)))
                (F32.sub (load s cb 16) (load s cb 19)))
       (varFac sample));
    (bufferVariance, idx,
     F32.mul (F32.mul F32.half (F32.sub ratioA ratioB))
             (F32.sub ratioA ratioB)) ].

(** ** A concrete call of the pass kernels

    One render tile of 4x4 pixels in memory block 1, twenty floats per
    pixel, channel [c] of pixel number [n] holding the float [c + n]; the
    prefilter rectangle is the tile; the outputs go to blocks 2 to 5. *)

Module Tile4x4.

Definition kg : KernelGlobals := {| pass_stride := 20; pass_denoising := 0 |}.

Definition buffers : Z -> ptr := fun _ => Ptr 1%positive 0.

(** [tile_x = tile_y = {0, 0, 4, 4}]: the lower tiles are empty. *)
Definition tile_bounds : int_array :=
  fun i => if i <? 2 then 0 else 4.

Definition offset : int_array := fun _ => 0.
Definition stride : int_array := fun _ => 4.

Definition rect : int4 := make_int4 0 0 4 4.

Definition mem : state :=
  State (fun b o =>
           match b with
           | 1%positive => F32.of_int (o mod 20 + o / 20)
           | _ => F32.zero
           end)
        [].

Definition unfiltered : ptr := Ptr 2%positive 0.
Definition sampleVariance : ptr := Ptr 3%positive 0.
Definition sampleVarianceV : ptr := Ptr 4%positive 0.
Definition bufferVariance : ptr := Ptr 5%positive 0.

Definition divide_shadow (sample x y : Z) : state :=
  kernel_filter_divide_shadow kg sample buffers x y tile_bounds tile_bounds
    offset stride unfiltered sampleVariance sampleVarianceV bufferVariance
    rect mem.

Definition get_feature (sample m_offset v_offset x y : Z) : state :=
  kernel_filter_get_feature kg sample buffers m_offset v_offset x y
    tile_bounds tile_bounds offset stride (Ptr 2%positive 0) (Ptr 3%positive 0) rect mem.

End Tile4x4.

(** ** A concrete call of [kernel_filter_combine_halves]

    Two half images in blocks 1 and 2 whose pixel [i] holds [i] and [3 i],
    combined over the 4x4 rectangle into blocks 3 and 4. *)

Module Halves4x4.

Definition mem : state :=
  State (fun b o =>
           match b with
           | 1%positive => F32.of_int o
           | 2%positive => F32.of_int (3 * o)
           | _ => F32.zero
           end)
        [].

Definition a : ptr := Ptr 1%positive 0.
Definition b : ptr := Ptr 2%positive 0.
Definition mean : ptr := Ptr 3%positive 0.
Definition variance : ptr := Ptr 4%positive 0.

End Halves4x4.

(** ** Concrete calls of [kernel_filter_non_local_means]

    Images over the rectangle (0,0,4,4): the noisy image in block 1, the
    weight image in block 2, the variance in block 3, the output in
    block 4. *)

Module Image4x4.

Definition rect : int4 := make_int4 0 0 4 4.
Definition noisyImage : ptr := Ptr 1%positive 0.
Definition weightImage : ptr := Ptr 2%positive 0.
Definition variance : ptr := Ptr 3%positive 0.
Definition filteredImage : ptr := Ptr 4%positive 0.

(** Both images hold [c] everywhere and the variance is [v]. *)
Definition uniform (c v : float) : state :=
  State (fun b _ =>
           match b with
           | 1%positive | 2%positive => c
           | 3%positive => v
           | _ => F32.zero
           end)
        [].

Definition env (s : state) (x y r f : Z) (a k_2 : float) : nlm_env :=
  Nlm_env x y (load s noisyImage) (load s weightImage) (load s variance)
    rect r f a k_2.

End Image4x4.

(** The corner pixel (0,0) of the rectangle (0,0,8,8) with radius 3. *)
Definition corner_env : nlm_env :=
  Nlm_env 0 0 (fun _ => F32.zero) (fun _ => F32.zero) (fun _ => F32.zero)
    (make_int4 0 0 8 8) 3 1 F32.one F32.one.

(** The float next but one above 1: [1 + 2^-22]. *)
Definition one_plus_2ulp : float := S754_finite false 8388610 (-23).

(** The float next above 1: [1 + 2^-23]. *)
Definition one_plus_1ulp : float := S754_finite false 8388609 (-23).

(** Pixel (1,1) of the uniform image of value 5 with variance 1, filtered
    with [a = -1]. *)
Definition negative_a_env : nlm_env :=
  Image4x4.env (Image4x4.uniform five F32.one) 1 1 1 1 (F32.opp F32.one)
    F32.one.

(** Pixel (0,0) of the uniform image, filtered with the largest [r]. *)
Definition huge_r_env : nlm_env :=
  Image4x4.env (Image4x4.uniform five F32.zero) 0 0 2147483647 1 F32.one
    F32.one.

(** Pixel (1,1) of images that hold NaN. *)
Definition nan_env : nlm_env :=
  Image4x4.env (Image4x4.uniform S754_nan F32.zero) 1 1 1 1 F32.one F32.one.

(** Pixel (1,1) of the uniform image of value 5 with variance 0. *)
Definition uniform_env : nlm_env :=
  Image4x4.env (Image4x4.uniform five F32.zero) 1 1 1 1 F32.one F32.one.

(** Pixel (1,1) of the uniform image of value [1 + 2^-22]. *)
Definition ulp_env : nlm_env :=
  Image4x4.env (Image4x4.uniform one_plus_2ulp F32.zero) 1 1 1 1 F32.one
    F32.one.

(** Pixel (1,1) of the uniform image of value 5 with variance 1. *)
Definition noisy_env : nlm_env :=
  Image4x4.env (Image4x4.uniform five F32.one) 1 1 1 1 F32.one F32.one.

(** Pixel (1,1) of images that hold plus infinity. *)
Definition infinite_env : nlm_env :=
  Image4x4.env (Image4x4.uniform (S754_infinity false) F32.zero) 1 1 1 1
    F32.one F32.one.

(** Pixel (1,1) of the uniform image of value 5 whose variance is
    [2^127]: twice the variance overflows. *)
Definition overflow_env : nlm_env :=
  Image4x4.env (Image4x4.uniform five (pow2 127)) 1 1 1 1 F32.one F32.one.

(** The memory [Image4x4.uniform c v] inside the sixteen cells of each
    buffer, and NaN in every other cell. *)
Definition fenced (c v : float) : state :=
  State (fun b o =>
           if (0 <=? o) && (o <? 16) then fmem (Image4x4.uniform c v) b o
           else S754_nan)
        [].

(** * The frame-range parser of the cache library operators

    The operator that slices a cache archive reads its frame ranges from a
    string such as [1-10, 20-30].  The parser ([parse_whitespace],
    [parse_literal], [parse_int], [parse_error_log], [parse_range],
    [parse_slices]) is embedded over

    - C strings as lists of characters: the characters from a pointer up to
      the terminating NUL, which is not in the list; the pointer that a
      function moves forward through its argument [s] is the rest of the
      string it returns, and the difference of two pointers into one
      string is the difference of the two lengths;
    - the [int] out-parameters as values passed in and returned;
    - [printf] as text appended to the standard output;
    - the list of [CacheSlice] the parser appends to with [BLI_addtail] as
      the list of the pairs [(start, end)] it sets in each element.

    [isspace] and [strtol] belong to the C library and are parameters:
    [strtol s] is the [long] that [strtol(s, &end, 10)] returns together
    with the number [end - s] of characters it went over. *)

Definition newline : ascii := "010"%char.

Section SliceParser.

Variable isspace : ascii -> bool.
Variable strtol : list ascii -> Z * nat.

(** The loop [while (c[0] && isspace(c[0])) ++c;]. *)
Fixpoint parse_whitespace (s : list ascii) : list ascii :=
  match s with
  | c :: s' => if isspace c then parse_whitespace s' else s
  | [] => []
  end.

(** The loop of [parse_literal] over the two pointers [c] and [lit]:
    [None] when two characters differ, where the function returns [false]
    at once, and the two pointers at the end of the loop otherwise. *)
Fixpoint literal_loop (c lit : list ascii)
  : option (list ascii * list ascii) :=
  match c, lit with
  | x :: c', y :: lit' =>
      if Ascii.eqb x y then literal_loop c' lit' else None
  | _, _ => Some (c, lit)
  end.

(** The result and the pointer in [s] after the call. *)
Definition parse_literal (s lit : list ascii) : bool * list ascii :=
  match lit with
  | [] => (true, s)
  | _ :: _ =>
      match literal_loop (parse_whitespace s) lit with
      | None => (false, s)
      | Some (c, lit') =>
          (match lit' with [] => true | _ :: _ => false end, c)
      end
  end.

(** The result, the [int] stored through [i] and the pointer in [s] after
    the call; the [long] is cut down to an [int]. *)
Definition parse_int (s : list ascii) : bool * Z * list ascii :=
  let '(v, n) := strtol s in
  (negb (Nat.eqb n 0), Int32.wrap v, skipn n s).

(** The three lines [parse_error_log] prints: the message and a colon, the
    string, and a caret under the position [pos]. *)
Definition parse_error_log (msg s : list ascii) (pos : Z) : list ascii :=
  msg ++ [":"%char; newline] ++ s ++ [newline]
  ++ repeat " "%char (Z.abs_nat pos) ++ ["^"%char; newline].

Definition expected_int : list ascii :=
  String.list_ascii_of_string "Invalid range format, expected int" ++ [newline].

Definition expected_dash : list ascii :=
  String.list_ascii_of_string "Invalid range format, expected '-'" ++ [newline].

(** The pointer difference [s - full]. *)
Definition position (full s : list ascii) : Z :=
  Z.of_nat (length full) - Z.of_nat (length s).

(** What a call leaves behind: the result, the pointer in [s], the two
    [int]s behind [start] and [end], and the standard output. *)
Definition range_result : Type :=
  (bool * list ascii * Z * Z * list ascii)%type.

Definition parse_range (s : list ascii) (start end_ : Z) (out : list ascii)
  : range_result :=
  let full := s in
  let '(found, start, s) := parse_int s in
  if negb found then
    (false, s, start, end_,
     out ++ parse_error_log expected_int full (position full s))
  else
    let '(dash, s) := parse_literal s ["-"%char] in
    if negb dash then
      (false, s, start, end_,
       out ++ parse_error_log expected_dash full (position full s))
    else
      let '(found, end_, s) := parse_int s in
      if negb found then
        (false, s, start, end_,
         out ++ parse_error_log expected_int full (position full s))
      else (true, s, start, end_, out).

(** The [do ... while] loop of [parse_slices], with a bound on the
    number of rounds: [None] when the bound is reached.  [start] and
    [end_] are the two local variables, which the function does not
    initialise. *)
Fixpoint parse_slices_loop (fuel : nat) (s : list ascii) (start end_ : Z)
    (slices : list (Z * Z)) (out : list ascii)
  : option (bool * list (Z * Z) * list ascii) :=
  match fuel with
  | O => None
  | S fuel' =>
      let '(ok, s, start, end_, out) := parse_range s start end_ out in
      if negb ok then Some (false, slices, out)
      else
        let slices := slices ++ [(start, end_)] in
        let '(comma, s) := parse_literal s [","%char] in
        if negb comma then Some (true, slices, out)
        else
          match s with
          | [] => Some (true, slices, out)
          | _ :: _ => parse_slices_loop fuel' s start end_ slices out
          end
  end.

(** One round for every character of the string and one more are enough,
    as every round but the last goes over a comma. *)
Definition parse_slices (s : list ascii) (start end_ : Z)
    (slices : list (Z * Z)) (out : list ascii)
  : option (bool * list (Z * Z) * list ascii) :=
  parse_slices_loop (S (length s)) s start end_ slices out.

End SliceParser.

(** ** A C library for the examples

    [isspace] of the C locale, and a [strtol] for base 10 and a 64-bit
    [long]: white space, an optional sign, decimal digits; without a digit
    nothing is consumed and the value is 0. *)

Definition isspace_c (c : ascii) : bool :=
  let n := nat_of_ascii c in
  Nat.eqb n 32 || (Nat.leb 9 n && Nat.leb n 13).

Definition digit_of (c : ascii) : option Z :=
  let n := Z.of_nat (nat_of_ascii c) in
  if (48 <=? n) && (n <=? 57) then Some (n - 48) else None.

Fixpoint digits_of (s : list ascii) (acc : Z) (n : nat) : Z * nat :=
  match s with
  | c :: s' =>
      match digit_of c with
      | Some d => digits_of s' (10 * acc + d) (S n)
      | None => (acc, n)
      end
  | [] => (acc, n)
  end.

Definition strtol_dec (s : list ascii) : Z * nat :=
  let t := parse_whitespace isspace_c s in
  let skipped := (length s - length t)%nat in
  let '(neg, u, sign) :=
    match t with
    | c :: u =>
        if Ascii.eqb c "-" then (true, u, 1%nat)
        else if Ascii.eqb c "+" then (false, u, 1%nat)
        else (false, t, 0%nat)
    | [] => (false, t, 0%nat)
    end in
  let '(v, n) := digits_of u 0 0 in
  if Nat.eqb n 0 then (0, 0%nat)
  else (Z.max (- 2 ^ 63) (Z.min (2 ^ 63 - 1) (if neg then - v else v)),
        (skipped + sign + n)%nat).

(** The parser over this library, on a string literal. *)
Definition slices_of (text : String.string)
  : option (bool * list (Z * Z) * list ascii) :=
  parse_slices isspace_c strtol_dec (String.list_ascii_of_string text) 0 0 []
    [].

(** * Properties *)

(** ** Loads and stores *)

Lemma load_store_same (s : state) (p : ptr) (i : Z) (v : float) :
  load (store s p i v) p i = v.
Proof.
  unfold load, store; simpl.
  now rewrite Pos.eqb_refl, Z.eqb_refl.
Qed.

Lemma load_store_cell (s : state) (p q : ptr) (i j : Z) (v : float) :
  cell q j <> cell p i -> load (store s p i v) q j = load s q j.
Proof.
  unfold load, store, cell; simpl; intros H.
  destruct (Pos.eqb_spec (blk q) (blk p)) as [Hb|Hb]; simpl; [|reflexivity].
  destruct (Z.eqb_spec (ofs q + j) (ofs p + i)) as [Ho|Ho]; [|reflexivity].
  exfalso; apply H; now rewrite Hb, Ho.
Qed.

Lemma load_store_block (s : state) (p q : ptr) (i j : Z) (v : float) :
  blk q <> blk p -> load (store s p i v) q j = load s q j.
Proof.
  intros H; apply load_store_cell; unfold cell; intros K; apply H.
  now inversion K.
Qed.

Lemma fmem_store_other (s : state) (p : ptr) (i : Z) (v : float)
      (b : block) (o : Z) :
  (b, o) <> cell p i -> fmem (store s p i v) b o = fmem s b o.
Proof.
  unfold store, cell; simpl; intros H.
  destruct (Pos.eqb_spec b (blk p)) as [Hb|Hb]; simpl; [|reflexivity].
  destruct (Z.eqb_spec o (ofs p + i)) as [Ho|Ho]; [|reflexivity].
  exfalso; apply H; now rewrite Hb, Ho.
Qed.

Lemma trace_store (s : state) (p : ptr) (i : Z) (v : float) :
  trace (store s p i v) = trace s ++ [Ev (blk p) (ofs p + i) v].
Proof. reflexivity. Qed.

Lemma appended_app (s s' : state) (evs : list event) :
  trace s' = trace s ++ evs -> appended s s' = evs.
Proof.
  unfold appended; intros ->.
  rewrite skipn_app, skipn_all, Nat.sub_diag; reflexivity.
Qed.

Lemma load_ptr_add (s : state) (p : ptr) (n i : Z) :
  load s (ptr_add p n) i = load s p (n + i).
Proof. unfold load, ptr_add; simpl; f_equal; lia. Qed.

(** ** Integer facts *)

Lemma wrap_range (z : Z) : Int32.in_range (Int32.wrap z).
Proof.
  unfold Int32.in_range, Int32.wrap, Int32.min_signed, Int32.max_signed.
  pose proof (Z.mod_pos_bound (z + 2 ^ 31) (2 ^ 32)) as H.
  lia.
Qed.

Lemma wrap_small (z : Z) : Int32.in_range z -> Int32.wrap z = z.
Proof.
  unfold Int32.in_range, Int32.wrap, Int32.min_signed, Int32.max_signed.
  intros H. rewrite Z.mod_small; lia.
Qed.

Lemma wrap_spec (z : Z) :
  exists k, Int32.wrap z = z + k * 2 ^ 32 /\ Int32.in_range (Int32.wrap z).
Proof.
  exists (- ((z + 2 ^ 31) / 2 ^ 32)). split; [|apply wrap_range].
  unfold Int32.wrap.
  pose proof (Z.div_mod (z + 2 ^ 31) (2 ^ 32)) as H.
  lia.
Qed.

(** Up to 46341 samples the [int] product [sample * (sample-1)] is the
    product of the integers. *)
Lemma sample_product_exact (sample : Z) :
  2 <= sample <= 46341 ->
  Int32.mul sample (Int32.sub sample 1) = sample * (sample - 1)
  /\ 0 < sample * (sample - 1).
Proof.
  intros H. unfold Int32.mul, Int32.sub.
  rewrite (wrap_small (sample - 1)).
  - split; [|nia]. apply wrap_small.
    unfold Int32.in_range, Int32.min_signed, Int32.max_signed. nia.
  - unfold Int32.in_range, Int32.min_signed, Int32.max_signed. lia.
Qed.


(** ** The literals and the helpers *)

(** The literals are the binary32 values of their decimal text: [1e-7f] is
    the correctly rounded quotient of 1 by 10^7. *)
Lemma literals_binary32 :
  F32.one = F32.of_int 1 /\ two = F32.of_int 2 /\ five = F32.of_int 5
  /\ F32.half = F32.div (F32.of_int 1) (F32.of_int 2)
  /\ F32.eps = F32.div (F32.of_int 1) (F32.of_int 10000000)
  /\ forallb (valid_binary F32.prec F32.emax)
       [F32.zero; F32.one; F32.half; F32.eps; two; five] = true.
Proof. repeat split. Qed.

(** [align_up(., 4)] on small widths. *)
Example align_up_4 :
  map (fun n => align_up n 4) [0; 1; 3; 4; 5; 8; 1021]
  = [0; 4; 4; 4; 8; 8; 1024].
Proof. reflexivity. Qed.

(** [align_up(n, 4)] is the least multiple of 4 that is not below [n], as
    long as [n + 3] is an [int]. *)
Lemma align_up_4_spec (n : Z) :
  Int32.min_signed <= n <= Int32.max_signed - 3 ->
  align_up n 4 = 4 * ((n + 3) / 4)
  /\ n <= align_up n 4 <= n + 3.
Proof.
  unfold Int32.min_signed, Int32.max_signed. intros Hn.
  assert (H : align_up n 4 = 4 * ((n + 3) / 4)).
  { unfold align_up, Int32.add, Int32.sub.
    change (Int32.wrap (4 - 1)) with (Z.ones 2).
    rewrite (wrap_small (n + Z.ones 2))
      by (unfold Int32.in_range, Int32.min_signed, Int32.max_signed;
          change (Z.ones 2) with 3; lia).
    rewrite <- Z.ldiff_land, Z.ldiff_ones_r by lia.
    rewrite Z.shiftl_mul_pow2, Z.shiftr_div_pow2 by lia.
    change (Z.ones 2) with 3. change (2 ^ 2) with 4. lia. }
  split; [exact H|]. rewrite H.
  pose proof (Z.div_mod (n + 3) 4 ltac:(lia)) as Hd.
  pose proof (Z.mod_pos_bound (n + 3) 4 ltac:(lia)) as Hm.
  lia.
Qed.

(** ** Algebra of the binary32 operations

    Facts that hold for every pair of floats, NaN and the infinities
    included, because NaN carries no payload and rounding does not look at
    the sign. *)

Lemma opp_involutive (x : float) : F32.opp (F32.opp x) = x.
Proof. destruct x as [[]|[]| |[] m e]; reflexivity. Qed.

Lemma round_aux_opp (sx : bool) (m e : Z) (l : location) :
  binary_round_aux F32.prec F32.emax (negb sx) m e l
  = F32.opp (binary_round_aux F32.prec F32.emax sx m e l).
Proof.
  unfold binary_round_aux.
  destruct (shr_fexp F32.prec F32.emax m e l) as [mrs1 e1].
  destruct (shr_fexp F32.prec F32.emax _ e1 loc_Exact) as [mrs2 e2].
  destruct (shr_m mrs2); try reflexivity.
  destruct (e2 <=? F32.emax - F32.prec); reflexivity.
Qed.

Lemma round_opp (sx : bool) (m : positive) (e : Z) :
  binary_round F32.prec F32.emax (negb sx) m e
  = F32.opp (binary_round F32.prec F32.emax sx m e).
Proof.
  unfold binary_round.
  destruct (shl_align m e _) as [mz ez]. apply round_aux_opp.
Qed.

Lemma add_comm (x y : float) : F32.add x y = F32.add y x.
Proof.
  destruct x as [sx|sx| |sx mx ex], y as [sy|sy| |sy my ey];
    try reflexivity; try (destruct sx, sy; reflexivity).
  unfold F32.add, SFadd. now rewrite Z.min_comm, Z.add_comm.
Qed.

(** Swapping the operands of a subtraction negates the difference, except
    that an exact cancellation gives [+0] both ways. *)
Lemma sub_swap (x y : float) :
  F32.sub y x = F32.opp (F32.sub x y)
  \/ (F32.sub x y = F32.zero /\ F32.sub y x = F32.zero).
Proof.
  destruct x as [sx|sx| |sx mx ex], y as [sy|sy| |sy my ey];
    try (left; reflexivity);
    try (destruct sx, sy; (left; reflexivity) || (right; split; reflexivity)).
  unfold F32.sub, SFsub. rewrite (Z.min_comm ey ex).
  set (ez := Z.min ex ey).
  set (A := cond_Zopp sx (Z.pos (fst (shl_align mx ex ez)))).
  set (B := cond_Zopp sy (Z.pos (fst (shl_align my ey ez)))).
  destruct (A - B) as [|p|p] eqn:E.
  - right. replace (B - A) with 0 by lia. split; reflexivity.
  - left. replace (B - A) with (Z.neg p) by lia. simpl.
    apply (round_opp false).
  - left. replace (B - A) with (Z.pos p) by lia. simpl.
    apply (round_opp true).
Qed.

Lemma mul_opp_r (x y : float) :
  F32.mul x (F32.opp y) = F32.opp (F32.mul x y).
Proof.
  destruct x as [sx|sx| |sx mx ex], y as [sy|sy| |sy my ey];
    try reflexivity; try (destruct sx, sy; reflexivity).
  change (binary_round_aux F32.prec F32.emax (xorb sx (negb sy))
            (Z.pos (mx * my)) (ex + ey) loc_Exact
          = F32.opp (binary_round_aux F32.prec F32.emax (xorb sx sy)
                       (Z.pos (mx * my)) (ex + ey) loc_Exact)).
  rewrite <- round_aux_opp. f_equal. destruct sx, sy; reflexivity.
Qed.

Lemma mul_opp_l (x y : float) :
  F32.mul (F32.opp x) y = F32.opp (F32.mul x y).
Proof.
  destruct x as [sx|sx| |sx mx ex], y as [sy|sy| |sy my ey];
    try reflexivity; try (destruct sx, sy; reflexivity).
  change (binary_round_aux F32.prec F32.emax (xorb (negb sx) sy)
            (Z.pos (mx * my)) (ex + ey) loc_Exact
          = F32.opp (binary_round_aux F32.prec F32.emax (xorb sx sy)
                       (Z.pos (mx * my)) (ex + ey) loc_Exact)).
  rewrite <- round_aux_opp. f_equal. destruct sx, sy; reflexivity.
Qed.

(** [0.5f * (u - v) * (u - v)] does not change when [u] and [v] are
    swapped. *)
Lemma half_square_diff_swap (u v : float) :
  (F32.half * (u - v) * (u - v))%f32 = (F32.half * (v - u) * (v - u))%f32.
Proof.
  destruct (sub_swap u v) as [H|[H1 H2]].
  - rewrite H, !mul_opp_r, mul_opp_l, opp_involutive. reflexivity.
  - now rewrite H1, H2.
Qed.

(** ** Rounding to binary32: sign, underflow, overflow and magnitude

    What [binary_round_aux] does to a non-negative mantissa [m] at exponent
    [e]: it never yields NaN, it keeps the sign, the exponent of the result
    is at least [emin], a positive mantissa at an exponent not below [emin]
    is not flushed to zero, and the binade of the value moves up by at most
    one. *)

Lemma digits2_log2 (p : positive) :
  Z.pos (digits2_pos p) = Z.log2 (Z.pos p) + 1.
Proof.
  induction p as [p IH|p IH|]; [| |reflexivity].
  - change (Z.pos (digits2_pos p~1)) with (Z.pos (Pos.succ (digits2_pos p))).
    rewrite Pos2Z.inj_succ, IH.
    change (Z.pos p~1) with (2 * Z.pos p + 1).
    rewrite Z.log2_succ_double by lia. lia.
  - change (Z.pos (digits2_pos p~0)) with (Z.pos (Pos.succ (digits2_pos p))).
    rewrite Pos2Z.inj_succ, IH.
    change (Z.pos p~0) with (2 * Z.pos p).
    rewrite Z.log2_double by lia. lia.
Qed.

Lemma Zdigits2_log2 (m : Z) : 0 < m -> Zdigits2 m = Z.log2 m + 1.
Proof. destruct m as [|p|p]; try lia. intros _. apply digits2_log2. Qed.

Lemma Zdigits2_nonneg (m : Z) : 0 <= Zdigits2 m.
Proof. destruct m; simpl; lia. Qed.

Lemma Zdigits2_pos (m : Z) : 0 < m -> 0 < Zdigits2 m.
Proof.
  intros H. rewrite Zdigits2_log2 by exact H.
  pose proof (Z.log2_nonneg m). lia.
Qed.

Lemma Zdigits2_mono (a b : Z) : 0 < a <= b -> Zdigits2 a <= Zdigits2 b.
Proof.
  intros H. rewrite !Zdigits2_log2 by lia.
  pose proof (Z.log2_le_mono a b). lia.
Qed.

Lemma Zdigits2_succ (a : Z) : 0 <= a -> Zdigits2 (a + 1) <= Zdigits2 a + 1.
Proof.
  intros H. destruct (Z.eq_dec a 0) as [->|Hne]; [simpl; lia|].
  rewrite !Zdigits2_log2 by lia.
  pose proof (Z.log2_succ_le a). unfold Z.succ in *. lia.
Qed.

(** Dropping [n] low bits of a mantissa of more than [n] digits. *)
Lemma Zdigits2_div_pow2 (m n : Z) :
  0 < m -> 0 <= n < Zdigits2 m ->
  0 < m / 2 ^ n /\ Zdigits2 (m / 2 ^ n) = Zdigits2 m - n.
Proof.
  intros Hm Hn. rewrite Zdigits2_log2 in Hn by exact Hm.
  assert (Hpos : 0 < m / 2 ^ n).
  { apply Z.div_str_pos. split; [apply Z.pow_pos_nonneg; lia|].
    apply Z.log2_le_pow2; lia. }
  split; [exact Hpos|].
  rewrite !Zdigits2_log2 by assumption.
  rewrite <- Z.shiftr_div_pow2 by lia.
  rewrite Z.log2_shiftr by exact Hm. lia.
Qed.

(** Dropping at least as many bits as the mantissa has. *)
Lemma div_pow2_all (m n : Z) : 0 <= m -> Zdigits2 m <= n -> m / 2 ^ n = 0.
Proof.
  intros Hm Hn. destruct (Z.eq_dec m 0) as [->|Hne].
  - apply Z.div_0_l. apply Z.pow_nonzero; [lia|].
    pose proof (Zdigits2_nonneg 0). simpl in *. lia.
  - rewrite Zdigits2_log2 in Hn by lia.
    apply Z.div_small. split; [lia|].
    apply Z.log2_lt_pow2; lia.
Qed.

Lemma shr_1_m (mrs : shr_record) :
  0 <= shr_m mrs -> shr_m (shr_1 mrs) = shr_m mrs / 2.
Proof.
  destruct mrs as [m r s]; simpl. intros Hm.
  destruct m as [|[p|p|]|p]; simpl.
  - reflexivity.
  - replace (Z.pos p~1) with (1 + Z.pos p * 2) by lia.
    rewrite Z.div_add by lia. reflexivity.
  - replace (Z.pos p~0) with (0 + Z.pos p * 2) by lia.
    rewrite Z.div_add by lia. reflexivity.
  - reflexivity.
  - lia.
Qed.

Ltac pow2_side :=
  first [ lia | apply Z.pow_pos_nonneg; lia | apply Z.pow_nonzero; lia ].

Lemma pow2_xO (p : positive) : 2 ^ Z.pos p~0 = 2 ^ Z.pos p * 2 ^ Z.pos p.
Proof.
  replace (Z.pos p~0) with (Z.pos p + Z.pos p) by lia.
  apply Z.pow_add_r; lia.
Qed.

Lemma pow2_xI (p : positive) :
  2 ^ Z.pos p~1 = 2 * (2 ^ Z.pos p * 2 ^ Z.pos p).
Proof.
  replace (Z.pos p~1) with (1 + (Z.pos p + Z.pos p)) by lia.
  rewrite (Z.pow_add_r 2 1) by lia.
  rewrite (Z.pow_add_r 2 (Z.pos p)) by lia. reflexivity.
Qed.

Lemma iter_shr_m (p : positive) (mrs : shr_record) :
  0 <= shr_m mrs ->
  shr_m (iter_pos shr_1 p mrs) = shr_m mrs / 2 ^ Z.pos p.
Proof.
  revert mrs. induction p as [p IH|p IH|]; intros mrs Hm; simpl iter_pos.
  - assert (H1 : 0 <= shr_m (shr_1 mrs))
      by (rewrite shr_1_m by exact Hm; apply Z.div_pos; lia).
    assert (H2 : 0 <= shr_m (iter_pos shr_1 p (shr_1 mrs)))
      by (rewrite IH by exact H1; apply Z.div_pos;
          [lia | apply Z.pow_pos_nonneg; lia]).
    rewrite IH, IH, shr_1_m by assumption.
    rewrite !Z.div_div by pow2_side.
    rewrite pow2_xI. reflexivity.
  - assert (H2 : 0 <= shr_m (iter_pos shr_1 p mrs))
      by (rewrite IH by exact Hm; apply Z.div_pos;
          [lia | apply Z.pow_pos_nonneg; lia]).
    rewrite IH, IH by assumption.
    rewrite Z.div_div by pow2_side.
    rewrite pow2_xO. reflexivity.
  - rewrite shr_1_m by exact Hm. reflexivity.
Qed.

Lemma shr_record_of_loc_m (m : Z) (l : location) :
  shr_m (shr_record_of_loc m l) = m.
Proof. destruct l as [|[]]; reflexivity. Qed.

Lemma shr_fexp_spec (m e : Z) (l : location) :
  0 <= m ->
  shr_m (fst (shr_fexp F32.prec F32.emax m e l)) = m / 2 ^ shift_of m e
  /\ snd (shr_fexp F32.prec F32.emax m e l) = e + shift_of m e.
Proof.
  intros Hm. unfold shr_fexp, shr, shift_of.
  destruct (fexp F32.prec F32.emax (Zdigits2 m + e) - e) as [|p|p] eqn:En;
    simpl fst; simpl snd.
  - rewrite shr_record_of_loc_m. change (Z.max 0 0) with 0.
    rewrite Z.div_1_r. split; [reflexivity | lia].
  - rewrite iter_shr_m by (rewrite shr_record_of_loc_m; exact Hm).
    rewrite shr_record_of_loc_m.
    replace (Z.max 0 (Z.pos p)) with (Z.pos p) by lia.
    split; reflexivity.
  - rewrite shr_record_of_loc_m.
    replace (Z.max 0 (Z.neg p)) with 0 by lia.
    rewrite Z.div_1_r. split; [reflexivity | lia].
Qed.

Lemma fexp_ge_emin (e : Z) : emin <= fexp F32.prec F32.emax e.
Proof. unfold fexp, emin. lia. Qed.

(** What one alignment step guarantees. *)
Lemma shift_facts (m e : Z) :
  0 <= m ->
  let m1 := m / 2 ^ shift_of m e in
  let e1 := e + shift_of m e in
  0 <= m1 /\ emin <= e1
  /\ Zdigits2 m1 + e1 <= Z.max (Zdigits2 m + e) emin
  /\ (0 < m1 -> Zdigits2 m1 + e1 = Zdigits2 m + e)
  /\ (0 < m -> emin <= e -> 0 < m1).
Proof.
  intros Hm m1 e1.
  pose proof (fexp_ge_emin (Zdigits2 m + e)) as Hf.
  pose proof (Zdigits2_nonneg m) as Hd.
  assert (Hs : 0 <= shift_of m e) by (unfold shift_of; lia).
  assert (H2 : 0 < 2 ^ shift_of m e) by (apply Z.pow_pos_nonneg; lia).
  assert (Hm1 : 0 <= m1) by (apply Z.div_pos; assumption).
  assert (He1 : emin <= e1) by (unfold e1, shift_of; lia).
  assert (Hcase : shift_of m e < Zdigits2 m /\ 0 < m
                  \/ Zdigits2 m <= shift_of m e).
  { destruct (Z.lt_ge_cases (shift_of m e) (Zdigits2 m)) as [H|H].
    - left. split; [exact H|]. destruct m; simpl in *; lia.
    - right; exact H. }
  split; [exact Hm1|]. split; [exact He1|].
  destruct Hcase as [[Hlt Hpos]|Hge].
  - destruct (Zdigits2_div_pow2 m (shift_of m e) Hpos (conj Hs Hlt))
      as [Hp Hdig].
    fold m1 in Hp, Hdig.
    split; [unfold e1; lia|]. split; [intros _; unfold e1; lia|].
    intros _ _. exact Hp.
  - assert (Hz : m1 = 0) by (apply div_pow2_all; assumption).
    split.
    { rewrite Hz. change (Zdigits2 0) with 0.
      unfold e1, shift_of, fexp, emin in *. unfold F32.prec in *. lia. }
    split; [lia|].
    intros Hpos Hemin. exfalso.
    pose proof (Zdigits2_pos m Hpos).
    unfold shift_of, fexp, emin, F32.prec in *. lia.
Qed.

Lemma round_nearest_even_bounds (m : Z) (l : location) :
  m <= round_nearest_even m l <= m + 1.
Proof.
  unfold round_nearest_even.
  destruct l as [|[]]; try lia. destruct (Z.even m); lia.
Qed.

(** The characterisation of [binary_round_aux] on which the rest builds. *)
Lemma round_aux_spec (s : bool) (m e : Z) (l : location) :
  0 <= m ->
  exists m3 e3,
    binary_round_aux F32.prec F32.emax s m e l = round_result s m3 e3
    /\ 0 <= m3 /\ emin <= e3
    /\ (0 < m3 -> Zdigits2 m3 + e3 <= Z.max (Zdigits2 m + e) emin + 1)
    /\ (0 < m -> emin <= e -> 0 < m3 /\ Zdigits2 m + e <= Zdigits2 m3 + e3).
Proof.
  intros Hm. unfold binary_round_aux.
  destruct (shr_fexp_spec m e l Hm) as [Hm1 He1].
  destruct (shr_fexp F32.prec F32.emax m e l) as [mrs1 e1].
  cbn [fst snd] in Hm1, He1.
  pose proof (shift_facts m e Hm) as HA. cbv zeta in HA.
  rewrite <- Hm1, <- He1 in HA. destruct HA as (A1 & A2 & A3 & A4 & A5).
  set (m1 := shr_m mrs1) in *.
  pose proof (round_nearest_even_bounds m1 (loc_of_shr_record mrs1)) as Hr.
  set (m2 := round_nearest_even m1 (loc_of_shr_record mrs1)) in *.
  assert (Hm2 : 0 <= m2) by lia.
  destruct (shr_fexp_spec m2 e1 loc_Exact Hm2) as [Hm3 He3].
  destruct (shr_fexp F32.prec F32.emax m2 e1 loc_Exact) as [mrs3 e3].
  cbn [fst snd] in Hm3, He3.
  pose proof (shift_facts m2 e1 Hm2) as HB. cbv zeta in HB.
  rewrite <- Hm3, <- He3 in HB. destruct HB as (B1 & B2 & B3 & B4 & B5).
  exists (shr_m mrs3), e3.
  split; [reflexivity|]. split; [exact B1|]. split; [exact B2|].
  assert (Hd2 : Zdigits2 m2 <= Zdigits2 m1 + 1).
  { destruct (Z.eq_dec m2 m1) as [->|Hne]; [lia|].
    replace m2 with (m1 + 1) by lia. apply Zdigits2_succ. exact A1. }
  split.
  - intros Hpos. specialize (B4 Hpos). lia.
  - intros Hpos Hemin. specialize (A5 Hpos Hemin). specialize (A4 A5).
    assert (Hm2p : 0 < m2) by lia.
    specialize (B5 Hm2p A2). specialize (B4 B5).
    split; [exact B5|].
    pose proof (Zdigits2_mono m1 m2). lia.
Qed.

Lemma round_result_sign (s : bool) (m e : Z) :
  0 <= m -> emin <= e -> has_sign s (round_result s m e) = true.
Proof.
  intros Hm He. apply Z.leb_le in He.
  destruct m as [|p|p]; [| |lia].
  - destruct s; reflexivity.
  - unfold round_result.
    destruct (e <=? F32.emax - F32.prec); destruct s; simpl; auto.
Qed.

(** Rounding keeps the sign and never yields NaN. *)
Lemma round_aux_sign (s : bool) (m e : Z) (l : location) :
  0 <= m -> has_sign s (binary_round_aux F32.prec F32.emax s m e l) = true.
Proof.
  intros Hm. destruct (round_aux_spec s m e l Hm) as (m3 & e3 & -> & H1 & H2 & _).
  now apply round_result_sign.
Qed.

(** A positive mantissa at an exponent not below [emin] is not flushed to
    zero, and its binade does not go down. *)
Lemma round_aux_nonzero (s : bool) (m e : Z) (l : location) :
  0 < m -> emin <= e ->
  F32.is_zero (binary_round_aux F32.prec F32.emax s m e l) = false
  /\ (F32.is_finite (binary_round_aux F32.prec F32.emax s m e l) = true ->
      Zdigits2 m + e
      <= magnitude (binary_round_aux F32.prec F32.emax s m e l)).
Proof.
  intros Hm He.
  destruct (round_aux_spec s m e l) as (m3 & e3 & -> & H1 & H2 & H3 & H4);
    [lia|].
  destruct (H4 Hm He) as [Hp Hmag].
  destruct m3 as [|p|p]; try lia. unfold round_result.
  destruct (e3 <=? F32.emax - F32.prec); simpl; (split; [reflexivity|]);
    [intros _; exact Hmag | discriminate].
Qed.

(** A value below 2^104 is not rounded to infinity, and its binade goes up
    by one at most. *)
Lemma round_aux_finite (s : bool) (m e : Z) (l : location) :
  0 <= m -> Zdigits2 m + e <= 104 ->
  F32.is_finite (binary_round_aux F32.prec F32.emax s m e l) = true
  /\ (F32.is_zero (binary_round_aux F32.prec F32.emax s m e l) = false ->
      magnitude (binary_round_aux F32.prec F32.emax s m e l)
      <= Z.max (Zdigits2 m + e) emin + 1).
Proof.
  intros Hm Hmag.
  destruct (round_aux_spec s m e l Hm) as (m3 & e3 & -> & H1 & H2 & H3 & _).
  destruct m3 as [|p|p]; try lia; unfold round_result.
  - split; [reflexivity|discriminate].
  - assert (Hp : 0 < Z.pos p) by lia. specialize (H3 Hp).
    pose proof (Zdigits2_pos (Z.pos p) Hp) as Hd.
    assert (He : e3 <= F32.emax - F32.prec).
    { unfold emin, SpecFloat.emin, F32.emax, F32.prec in *. lia. }
    apply Z.leb_le in He. rewrite He.
    split; [reflexivity | intros _; exact H3].
Qed.

(** ** Sign and range of the binary32 operations *)

Lemma pos_iter_xO (m d : positive) :
  Z.pos (Pos.iter xO m d) = Z.pos m * 2 ^ Z.pos d.
Proof.
  revert m. induction d as [d IH|d IH|]; intros m; simpl Pos.iter.
  - rewrite Pos2Z.inj_xO, IH, IH, pow2_xI. ring.
  - rewrite IH, IH, pow2_xO. ring.
  - rewrite Pos2Z.inj_xO. change (2 ^ 1) with 2. ring.
Qed.

Lemma Zdigits2_mul_pow2 (m k : Z) :
  0 < m -> 0 <= k -> Zdigits2 (m * 2 ^ k) = Zdigits2 m + k.
Proof.
  intros Hm Hk.
  assert (0 < 2 ^ k) by (apply Z.pow_pos_nonneg; lia).
  rewrite !Zdigits2_log2 by nia.
  rewrite Z.log2_mul_pow2 by lia. lia.
Qed.

(** Aligning a mantissa to a lower exponent changes neither the value nor
    the binade. *)
Lemma shl_align_spec (m : positive) (e e' : Z) :
  Z.pos (fst (shl_align m e e')) = Z.pos m * 2 ^ (e - Z.min e e')
  /\ snd (shl_align m e e') = Z.min e e'
  /\ Zdigits2 (Z.pos (fst (shl_align m e e'))) + snd (shl_align m e e')
     = Zdigits2 (Z.pos m) + e.
Proof.
  unfold shl_align. destruct (e' - e) as [|d|d] eqn:Ed; cbn [fst snd].
  - replace (Z.min e e') with e by lia. rewrite Z.sub_diag.
    change (2 ^ 0) with 1. repeat split; lia.
  - replace (Z.min e e') with e by lia. rewrite Z.sub_diag.
    change (2 ^ 0) with 1. repeat split; lia.
  - replace (Z.min e e') with e' by lia.
    replace (e - e') with (Z.pos d) by lia.
    split; [apply pos_iter_xO|]. split; [reflexivity|].
    rewrite pos_iter_xO, Zdigits2_mul_pow2 by lia. lia.
Qed.

(** [binary_round]: sign, no underflow from [emin] on, no overflow below
    2^104, binade kept or raised by one. *)
Lemma round_facts (s : bool) (m : positive) (e : Z) :
  let r := binary_round F32.prec F32.emax s m e in
  has_sign s r = true
  /\ (emin <= e ->
      F32.is_zero r = false
      /\ (F32.is_finite r = true -> Zdigits2 (Z.pos m) + e <= magnitude r))
  /\ (Zdigits2 (Z.pos m) + e <= 104 ->
      F32.is_finite r = true
      /\ (F32.is_zero r = false ->
          magnitude r <= Z.max (Zdigits2 (Z.pos m) + e) emin + 1)).
Proof.
  unfold binary_round.
  destruct (shl_align_spec m e (fexp F32.prec F32.emax
                                  (Z.pos (digits2_pos m) + e)))
    as (Hv & He & Hd).
  destruct (shl_align m e _) as [mz ez]. cbn [fst snd] in Hv, He, Hd.
  cbv zeta. split; [apply round_aux_sign; lia|].
  split.
  - intros Hemin.
    assert (Hez : emin <= ez).
    { rewrite He. pose proof (fexp_ge_emin (Z.pos (digits2_pos m) + e)). lia. }
    rewrite <- Hd. apply round_aux_nonzero; [lia | exact Hez].
  - intros Hmag. rewrite <- Hd. apply round_aux_finite; lia.
Qed.

(** The sum of two floats that are zero or of sign [s] is zero or of
    sign [s]. *)
Lemma add_same_sign (s : bool) (x y : float) :
  zero_or_sign s x = true -> zero_or_sign s y = true ->
  zero_or_sign s (F32.add x y) = true.
Proof.
  unfold zero_or_sign.
  destruct x as [sx|sx| |sx mx ex], y as [sy|sy| |sy my ey];
    try (destruct s, sx; simpl; intros; discriminate);
    try (destruct s, sy; simpl; intros; discriminate);
    try (destruct sx, sy; simpl; intros; auto; fail);
    try (destruct s, sx, sy; simpl; intros; auto; discriminate);
    try (simpl; intros; discriminate).
  simpl F32.is_zero. cbn [orb has_sign].
  intros Hx Hy.
  apply andb_prop in Hx, Hy. destruct Hx as [Hsx _], Hy as [Hsy _].
  apply Bool.eqb_prop in Hsx, Hsy. subst sx sy.
  unfold F32.add, SFadd.
  set (A := Z.pos (fst (shl_align mx ex (Z.min ex ey)))).
  set (B := Z.pos (fst (shl_align my ey (Z.min ex ey)))).
  assert (HA : 0 < A) by (unfold A; lia).
  assert (HB : 0 < B) by (unfold B; lia).
  destruct s; unfold cond_Zopp.
  - destruct (- A + - B) as [|p|p] eqn:Ep; try lia.
    cbn [binary_normalize].
    destruct (round_facts true p (Z.min ex ey)) as (Hs & _).
    cbv zeta in Hs. rewrite Hs. apply Bool.orb_true_r.
  - destruct (A + B) as [|p|p] eqn:Ep; try lia.
    cbn [binary_normalize].
    destruct (round_facts false p (Z.min ex ey)) as (Hs & _).
    cbv zeta in Hs. rewrite Hs. apply Bool.orb_true_r.
Qed.

Lemma sign_nonzero_positive (x : float) :
  has_sign false x = true -> F32.is_zero x = false ->
  strictly_positive x = true.
Proof. destruct x as [[]|[]| |[] m e]; simpl; auto; discriminate. Qed.

Lemma positive_finite_strictly (x : float) :
  positive_finite x = true -> strictly_positive x = true.
Proof. destruct x as [[]|[]| |[] m e]; simpl; auto. Qed.

(** Adding a positive finite float to a zero or to a positive float gives
    a positive float: a sum of weights cannot cancel. *)
Lemma add_strictly_positive (x y : float) :
  F32.is_zero x || strictly_positive x = true ->
  positive_finite y = true ->
  strictly_positive (F32.add x y) = true.
Proof.
  destruct y as [sy|sy| |[] my ey]; try discriminate.
  destruct x as [sx|[]| |[] mx ex]; try discriminate; simpl orb;
    intros Hx Hy; try exact Hy; try reflexivity.
  simpl in Hx, Hy. apply Z.leb_le in Hx, Hy.
  unfold F32.add, SFadd. unfold cond_Zopp.
  destruct (Z.pos (fst (shl_align mx ex (Z.min ex ey)))
            + Z.pos (fst (shl_align my ey (Z.min ex ey)))) as [|p|p] eqn:Ep;
    try lia.
  cbn [binary_normalize].
  destruct (round_facts false p (Z.min ex ey)) as (Hs & Hnz & _).
  cbv zeta in Hs, Hnz.
  apply sign_nonzero_positive; [exact Hs | apply Hnz; lia].
Qed.

(** The product of finite floats of known signs. *)
Lemma mul_finite_sign (sx sy : bool) (x y : float) :
  signed sx x = true -> signed sy y = true ->
  F32.is_finite x = true -> F32.is_finite y = true ->
  zero_or_sign (xorb sx sy) (F32.mul x y) = true.
Proof.
  destruct x as [tx|tx| |tx mx ex], y as [ty|ty| |ty my ey];
    try discriminate; try reflexivity.
  simpl signed. intros Hx Hy _ _.
  apply Bool.eqb_prop in Hx, Hy. subst tx ty.
  unfold zero_or_sign, F32.mul, SFmul.
  rewrite round_aux_sign by lia. apply Bool.orb_true_r.
Qed.

(** Multiplying by a positive finite float keeps zero-or-sign. *)
Lemma mul_by_positive (s : bool) (x y : float) :
  zero_or_sign s x = true -> positive_finite y = true ->
  zero_or_sign s (F32.mul x y) = true.
Proof.
  destruct y as [sy|sy| |[] my ey]; try discriminate. intros Hx _.
  destruct x as [tx|tx| |tx mx ex]; try discriminate; try reflexivity.
  - unfold zero_or_sign in *. simpl in *. now rewrite Bool.xorb_false_r.
  - unfold zero_or_sign in Hx. simpl in Hx. apply andb_prop in Hx.
    destruct Hx as [Hs _]. apply Bool.eqb_prop in Hs. subst tx.
    unfold zero_or_sign, F32.mul, SFmul. rewrite Bool.xorb_false_r.
    rewrite round_aux_sign by lia. apply Bool.orb_true_r.
Qed.

Lemma zero_or_sign_finite (s : bool) (x : float) :
  zero_or_sign s x = true -> F32.is_finite x = true ->
  finite_of_sign s x = true.
Proof.
  destruct x as [t|t| |t m e]; try discriminate; try reflexivity.
  unfold zero_or_sign; simpl. auto.
Qed.

Lemma finite_of_sign_signed (s : bool) (x : float) :
  finite_of_sign s x = true -> signed s x = true /\ F32.is_finite x = true.
Proof.
  destruct x as [t|t| |t m e]; try discriminate; simpl; auto.
  intros H. apply andb_prop in H. tauto.
Qed.

(** [0.0f - t] for a non-negative finite [t]. *)
Lemma zero_sub_nonneg (t : float) :
  finite_of_sign false t = true ->
  finite_of_sign true (F32.sub F32.zero t) = true.
Proof. destruct t as [[]|[]| |[] m e]; try discriminate; simpl; auto. Qed.

(** A finite float minus itself is [+0]. *)
Lemma sub_self (w : float) :
  F32.is_finite w = true -> F32.sub w w = F32.zero.
Proof.
  destruct w as [[]|[]| |s m e]; try discriminate; try reflexivity.
  intros _. unfold F32.sub, SFsub. now rewrite Z.sub_diag.
Qed.

Lemma min_f_same (v : float) : min_f v v = v.
Proof. unfold min_f. now destruct (F32.ltb v v). Qed.

(** [v + v] for a non-negative finite [v], possibly overflowing. *)
Lemma double_nonneg (v : float) :
  nonneg_finite v = true -> signed false (F32.add v v) = true.
Proof.
  destruct v as [[]|[]| |[] m e]; try discriminate; try reflexivity.
  intros _. unfold F32.add, SFadd, cond_Zopp.
  destruct (Z.pos (fst (shl_align m e (Z.min e e)))
            + Z.pos (fst (shl_align m e (Z.min e e)))) as [|p|p] eqn:Ep;
    try lia.
  cbn [binary_normalize].
  destruct (round_facts false p (Z.min e e)) as (Hs & _). cbv zeta in Hs.
  destruct (binary_round F32.prec F32.emax false p (Z.min e e))
    as [[]|[]| |[] m' e']; try discriminate; reflexivity.
Qed.

Lemma nonneg_finite_signed (a : float) :
  nonneg_finite a = true -> signed false a = true /\ F32.is_finite a = true.
Proof. destruct a as [[]|[]| |[] m e]; try discriminate; simpl; auto. Qed.

(** [a * (v + v)] when it does not overflow. *)
Lemma scaled_double (a v : float) :
  nonneg_finite a = true -> nonneg_finite v = true ->
  F32.is_finite (F32.mul a (F32.add v v)) = true ->
  finite_of_sign false (F32.mul a (F32.add v v)) = true.
Proof.
  intros Ha Hv Hfin.
  destruct (nonneg_finite_signed a Ha) as [Hsa Hfa].
  pose proof (double_nonneg v Hv) as Hs.
  apply zero_or_sign_finite; [|exact Hfin].
  destruct (F32.add v v) as [t|t| |t m e] eqn:Es.
  - apply (mul_finite_sign false false); auto.
  - destruct a as [[]|[]| |[] ma ea]; try discriminate.
  - discriminate.
  - apply (mul_finite_sign false false); auto.
Qed.

(** [1e-7f + k] for a non-negative finite [k] is positive and not below
    the binade of [1e-7f]. *)
Lemma eps_plus_nonneg (k : float) :
  finite_of_sign false k = true ->
  positive_from (-23) (F32.add F32.eps k) = true.
Proof.
  destruct k as [[]|[]| |[] m e]; try discriminate; try reflexivity.
  simpl. intros He. apply Z.leb_le in He.
  set (ez := Z.min (-47) e).
  set (a := fst (shl_align 14073749 (-47) ez)).
  set (b := fst (shl_align m e ez)).
  change (positive_from (-23)
            (binary_round F32.prec F32.emax false (a + b) ez) = true).
  destruct (shl_align_spec 14073749 (-47) ez) as (_ & HsA & HdA).
  fold a in HdA.
  assert (Hez : emin <= ez)
    by (unfold ez, emin, SpecFloat.emin, F32.emax, F32.prec in *; lia).
  destruct (round_facts false (a + b) ez) as (Hs & Hnz & _).
  cbv zeta in Hs, Hnz.
  destruct (Hnz Hez) as [Hz Hmag].
  assert (Hdp : -23 <= Zdigits2 (Z.pos (a + b)) + ez).
  { pose proof (Zdigits2_mono (Z.pos a) (Z.pos (a + b))) as Hmono.
    rewrite HsA in HdA.
    change (Zdigits2 14073749) with 24 in HdA.
    assert (Z.min (-47) ez = ez) by (unfold ez; lia). lia. }
  destruct (binary_round F32.prec F32.emax false (a + b) ez)
    as [[]|[]| |[] m' e']; try discriminate; try reflexivity.
  specialize (Hmag eq_refl). unfold magnitude in Hmag.
  unfold positive_from. apply andb_true_intro.
  split; [exact Hs | apply Z.leb_le; lia].
Qed.

Lemma Zdigits2_div (a b : Z) :
  0 < b -> 0 < a / b -> Zdigits2 (a / b) <= Zdigits2 a - Zdigits2 b + 1.
Proof.
  intros Hb Hq.
  assert (Ha : 0 < a).
  { destruct (Z.lt_ge_cases 0 a) as [H|H]; [exact H|].
    assert (a / b <= 0) by (apply Z.div_le_upper_bound; lia). lia. }
  rewrite !Zdigits2_log2 by assumption.
  pose proof (Z.log2_mul_below (a / b) b Hq Hb) as Hbelow.
  assert (Hle : a / b * b <= a)
    by (rewrite Z.mul_comm; apply Z.mul_div_le; exact Hb).
  pose proof (Z.log2_le_mono (a / b * b) a Hle). lia.
Qed.

(** [1.0f / y] for a positive finite [y]: never negative and never NaN;
    finite when [y] is not below 2^-103; not zero when [y] is below
    2^32 (of binade at most 32). *)
Lemma recip_positive (m : positive) (e : Z) :
  emin <= e ->
  let r := F32.div F32.one (S754_finite false m e) in
  has_sign false r = true
  /\ (-102 <= Zdigits2 (Z.pos m) + e -> F32.is_finite r = true)
  /\ (Zdigits2 (Z.pos m) + e <= 32 -> F32.is_zero r = false).
Proof.
  intros He. cbv zeta.
  unfold F32.div, F32.one, SFdiv, SFdiv_core_binary.
  change (Zdigits2 8388608) with 24.
  set (d2 := Zdigits2 (Z.pos m)).
  assert (Hd2 : 0 < d2) by (apply Zdigits2_pos; lia).
  set (e' := Z.min (fexp F32.prec F32.emax (24 + -23 - (d2 + e))) (-23 - e)).
  set (s := -23 - e - e').
  assert (Hs : 0 <= s) by (unfold s, e'; lia).
  set (m' := match s with
             | 0 => 8388608
             | Z.pos _ => Z.shiftl 8388608 s
             | Z.neg _ => 0
             end).
  assert (Hm' : m' = 2 ^ (23 + s)).
  { assert (H1 : m' = 2 ^ 23 * 2 ^ s).
    { unfold m'.
      destruct s as [|p|p];
        [reflexivity | now rewrite Z.shiftl_mul_pow2 by lia | lia]. }
    rewrite H1, <- Z.pow_add_r by lia. reflexivity. }
  assert (Hdm' : Zdigits2 m' = 24 + s).
  { rewrite Hm'. rewrite Zdigits2_log2 by (apply Z.pow_pos_nonneg; lia).
    rewrite Z.log2_pow2 by lia. lia. }
  assert (Hm'pos : 0 < m') by (rewrite Hm'; apply Z.pow_pos_nonneg; lia).
  pose proof (Z_div_mod_full m' (Z.pos m)) as Hdiv.
  unfold Z.div in *.
  assert (Hq : fst (Z.div_eucl m' (Z.pos m)) = m' / Z.pos m) by reflexivity.
  destruct (Z.div_eucl m' (Z.pos m)) as [q r]. cbn [fst] in Hq.
  assert (Hq0 : 0 <= q) by (rewrite Hq; apply Z.div_pos; lia).
  cbn [xorb].
  split; [apply round_aux_sign; exact Hq0|].
  assert (Hfe : emin <= fexp F32.prec F32.emax (24 + -23 - (d2 + e)))
    by apply fexp_ge_emin.
  split.
  - intros Hmag. apply round_aux_finite; [exact Hq0|].
    destruct (Z.eq_dec q 0) as [->|Hne].
    + change (Zdigits2 0) with 0.
      unfold e', fexp, emin, SpecFloat.emin, F32.emax, F32.prec in *. lia.
    + assert (Hqp : 0 < m' / Z.pos m) by lia.
      pose proof (Zdigits2_div m' (Z.pos m) ltac:(lia) Hqp) as Hdq.
      rewrite <- Hq in Hdq. fold d2 in Hdq. rewrite Hdm' in Hdq.
      unfold s in Hdq. lia.
  - intros Hmag.
    assert (He' : e' = -23 - d2 - e).
    { unfold e', fexp, emin, SpecFloat.emin, F32.emax, F32.prec in *. lia. }
    assert (Hsd : s = d2) by (unfold s; lia).
    assert (Hqp : 0 < q).
    { rewrite Hq. apply Z.div_str_pos. split; [lia|].
      rewrite Hm', Hsd.
      pose proof (Zdigits2_log2 (Z.pos m) ltac:(lia)) as Hl. fold d2 in Hl.
      assert (Z.pos m < 2 ^ d2)
        by (apply Z.log2_lt_pow2; lia).
      assert (2 ^ d2 <= 2 ^ (23 + d2))
        by (apply Z.pow_le_mono_r; lia).
      lia. }
    apply round_aux_nonzero; [exact Hqp|].
    unfold emin, SpecFloat.emin, F32.emax, F32.prec in *. lia.
Qed.

(** The conversion of a positive [int] is a positive finite float of
    binade 1 to 32. *)
Lemma of_int_positive (z : Z) :
  0 < z <= Int32.max_signed ->
  positive_within 1 32 (F32.of_int z) = true.
Proof.
  intros Hz. destruct z as [|p|p]; try lia.
  unfold F32.of_int. cbn [binary_normalize].
  assert (Hd : 1 <= Zdigits2 (Z.pos p) <= 31).
  { pose proof (Zdigits2_pos (Z.pos p) ltac:(lia)).
    rewrite Zdigits2_log2 in * by lia.
    assert (Z.log2 (Z.pos p) < 31).
    { apply Z.log2_lt_pow2; [lia|].
      unfold Int32.max_signed in Hz. lia. }
    lia. }
  destruct (round_facts false p 0) as (Hs & Hnz & Hfin).
  cbv zeta in Hs, Hnz, Hfin.
  assert (H0 : emin <= 0)
    by (unfold emin, SpecFloat.emin, F32.emax, F32.prec; lia).
  destruct (Hnz H0) as [Hz0 Hlo].
  destruct Hfin as [Hf Hhi]; [lia|].
  specialize (Hlo Hf). specialize (Hhi Hz0).
  change (positive_within 1 32 (binary_round F32.prec F32.emax false p 0)
          = true).
  destruct (binary_round F32.prec F32.emax false p 0)
    as [[]|[]| |[] m' e']; try discriminate.
  unfold magnitude in Hlo, Hhi.
  unfold emin, SpecFloat.emin, F32.emax, F32.prec in Hhi.
  unfold positive_within. rewrite !Bool.andb_true_iff.
  repeat split; [exact Hs | apply Z.leb_le; lia | apply Z.leb_le; lia].
Qed.

(** A finite float divided by a positive float is never NaN. *)
Lemma div_by_positive_not_nan (x y : float) :
  F32.is_finite x = true -> F32.ltb F32.zero y = true ->
  F32.is_nan (F32.div x y) = false.
Proof.
  destruct x as [sx|sx| |sx mx ex]; try discriminate;
    destruct y as [[]|[]| |[] my ey]; try discriminate; try reflexivity.
  intros _ _. unfold F32.div, SFdiv.
  pose proof (round_aux_sign (xorb sx false)) as Hsign.
  unfold SFdiv_core_binary.
  set (m' := match _ with 0 => Z.pos mx | Z.pos _ => _ | Z.neg _ => 0 end).
  assert (Hm' : 0 <= m').
  { unfold m'. destruct (_ - _ - _) as [|p|p]; try lia.
    apply Z.shiftl_nonneg. lia. }
  pose proof (Z.div_pos m' (Z.pos my) Hm' ltac:(lia)) as Hq.
  unfold Z.div in Hq.
  destruct (Z.div_eucl m' (Z.pos my)) as [q r]. cbn [fst] in Hq.
  specialize (Hsign q (Z.min
                         (fexp F32.prec F32.emax
                            (Zdigits2 (Z.pos mx) + ex
                             - (Zdigits2 (Z.pos my) + ey)))
                         (ex - ey))
                     (new_location (Z.pos my) r) Hq).
  destruct (binary_round_aux _ _ _ _ _ _); try discriminate; reflexivity.
Qed.

(** The reciprocal of a positive [int] is a positive finite float. *)
Lemma recip_area_positive (z : Z) :
  0 < z <= Int32.max_signed ->
  positive_finite (F32.div F32.one (F32.of_int z)) = true.
Proof.
  intros Hz. pose proof (of_int_positive z Hz) as HA.
  destruct (F32.of_int z) as [t|t| |[] m e]; try discriminate.
  unfold positive_within in HA. rewrite !Bool.andb_true_iff in HA.
  destruct HA as [[He Hlo] Hhi]. apply Z.leb_le in He, Hlo, Hhi.
  destruct (recip_positive m e He) as (Hs & Hfin & Hnz).
  cbv zeta in Hs, Hfin, Hnz.
  specialize (Hfin ltac:(lia)). specialize (Hnz ltac:(lia)).
  destruct (F32.div F32.one (S754_finite false m e))
    as [t|t| |[] m' e']; try discriminate.
  exact Hs.
Qed.

(** ** Arithmetic modulo 2^32 *)

Lemma wrap_eqm (a : Z) : eqm32 (Int32.wrap a) a.
Proof.
  unfold eqm32, eqm, Int32.wrap.
  rewrite Zminus_mod_idemp_l. f_equal. lia.
Qed.

Lemma wrap_congr (a b : Z) : eqm32 a b -> Int32.wrap a = Int32.wrap b.
Proof.
  unfold eqm32, eqm. intros H. unfold Int32.wrap.
  rewrite <- (Zplus_mod_idemp_l a), H, Zplus_mod_idemp_l. reflexivity.
Qed.

(** Equations between [int] expressions that hold in the ring of integers
    hold modulo 2^32. *)
Ltac int_ring :=
  unfold pixel_index, Int32.add, Int32.sub, Int32.mul, Int32.neg;
  apply wrap_congr; rewrite !wrap_eqm;
  unfold eqm32, eqm; f_equal; ring.

(** ** Loops as folds *)

Lemma for_range_fold {S : Type} (n : nat) (i : Z) (body : Z -> S -> S)
      (s : S) :
  for_range n i body s = fold_left (fun s k => body k s) (zseq i n) s.
Proof.
  revert i s. induction n as [|n IH]; intros i s; simpl; [reflexivity|].
  apply IH.
Qed.

Lemma zseq_length (i : Z) (n : nat) : length (zseq i n) = n.
Proof. revert i; induction n; intros; simpl; auto. Qed.

Lemma zseq_In (i : Z) (n : nat) (k : Z) :
  In k (zseq i n) <-> i <= k < i + Z.of_nat n.
Proof.
  revert i. induction n as [|n IH]; intros i; simpl.
  - lia.
  - rewrite IH. lia.
Qed.

Lemma zrange_In (lo hi k : Z) : In k (zrange lo hi) <-> lo <= k < hi.
Proof. unfold zrange. rewrite zseq_In. lia. Qed.

Lemma zrange_length (lo hi : Z) :
  length (zrange lo hi) = Z.to_nat (hi - lo).
Proof. apply zseq_length. Qed.

Lemma zrange_empty (lo hi : Z) : hi <= lo -> zrange lo hi = [].
Proof.
  intros H. unfold zrange. replace (Z.to_nat (hi - lo)) with 0%nat by lia.
  reflexivity.
Qed.

(** ** The loops of the non-local means filter *)

Section NlmLoops.

Variable fast_expf : float -> float.
Variable E : nlm_env.

Let lx := int2_x (nlm_low E).
Let hx := int2_x (nlm_high E).
Let ly := int2_y (nlm_low E).
Let hy := int2_y (nlm_high E).

Lemma q_index_next (qx qy : Z) :
  Int32.add (q_index E (qx, qy)) 1 = q_index E (qx + 1, qy).
Proof. unfold q_index; simpl. int_ring. Qed.

Lemma q_index_next_row (qy : Z) :
  Int32.add (q_index E (hx, qy))
    (Int32.sub (nlm_w E) (Int32.sub hx lx))
  = q_index E (lx, qy + 1).
Proof. unfold q_index, nlm_w; simpl. int_ring. Qed.

Lemma nlm_columns (n : nat) (qx qy : Z) (acc : float * float) :
  for_range n qx (fun qx st => nlm_step fast_expf E qx qy st)
    (q_index E (qx, qy), fst acc, snd acc)
  = (q_index E (qx + Z.of_nat n, qy),
     fst (fold_left (accumulate fast_expf E)
            (map (fun qx => (qx, qy)) (zseq qx n)) acc),
     snd (fold_left (accumulate fast_expf E)
            (map (fun qx => (qx, qy)) (zseq qx n)) acc)).
Proof.
  revert qx acc. induction n as [|n IH]; intros qx acc.
  - simpl. now rewrite Z.add_0_r.
  - cbn [for_range zseq map fold_left].
    unfold nlm_step at 2. rewrite q_index_next.
    change (q_index E (qx + 1, qy),
            F32.add (fst acc)
              (F32.mul (nlm_weight fast_expf E qx qy (q_index E (qx, qy)))
                 (nlm_noisyImage E (q_index E (qx, qy)))),
            F32.add (snd acc)
              (nlm_weight fast_expf E qx qy (q_index E (qx, qy))))
      with (q_index E (qx + 1, qy),
            fst (accumulate fast_expf E acc (qx, qy)),
            snd (accumulate fast_expf E acc (qx, qy))).
    rewrite IH.
    replace (qx + 1 + Z.of_nat n) with (qx + Z.of_nat (S n)) by lia.
    reflexivity.
Qed.

Lemma nlm_row_fold (qy : Z) (acc : float * float) :
  lx <= hx ->
  nlm_row fast_expf E qy (q_index E (lx, qy), fst acc, snd acc)
  = (q_index E (lx, qy + 1),
     fst (fold_left (accumulate fast_expf E)
            (map (fun qx => (qx, qy)) (zrange lx hx)) acc),
     snd (fold_left (accumulate fast_expf E)
            (map (fun qx => (qx, qy)) (zrange lx hx)) acc)).
Proof.
  intros Hle. unfold nlm_row, for_lt. fold lx hx.
  rewrite nlm_columns.
  replace (lx + Z.of_nat (Z.to_nat (hx - lx))) with hx by lia.
  rewrite q_index_next_row. reflexivity.
Qed.

Lemma nlm_row_empty (qy q : Z) (acc : float * float) :
  hx < lx ->
  exists q', nlm_row fast_expf E qy (q, fst acc, snd acc)
             = (q', fst acc, snd acc).
Proof.
  intros Hlt. unfold nlm_row, for_lt. fold lx hx.
  replace (Z.to_nat (hx - lx)) with 0%nat by lia. simpl.
  eexists; reflexivity.
Qed.

Lemma nlm_rows (n : nat) (qy q : Z) (acc : float * float) :
  (lx <= hx -> q = q_index E (lx, qy)) ->
  exists q',
    for_range n qy (nlm_row fast_expf E) (q, fst acc, snd acc)
    = (q',
       fst (fold_left (accumulate fast_expf E)
              (flat_map (fun qy => map (fun qx => (qx, qy)) (zrange lx hx))
                        (zseq qy n)) acc),
       snd (fold_left (accumulate fast_expf E)
              (flat_map (fun qy => map (fun qx => (qx, qy)) (zrange lx hx))
                        (zseq qy n)) acc)).
Proof.
  revert qy q acc. induction n as [|n IH]; intros qy q acc Hq.
  - simpl. eexists; reflexivity.
  - cbn [for_range zseq flat_map]. rewrite fold_left_app.
    destruct (Z.le_gt_cases lx hx) as [Hle|Hlt].
    + rewrite (Hq Hle), nlm_row_fold by exact Hle.
      apply IH. reflexivity.
    + destruct (nlm_row_empty qy q acc Hlt) as [q' ->].
      assert (Hrow : map (fun qx => (qx, qy)) (zrange lx hx) = [])
        by (rewrite zrange_empty by lia; reflexivity).
      rewrite Hrow. cbn [fold_left].
      apply IH. lia.
Qed.

(** The loops over [q] add up, in row-major order, what each candidate
    of the search window contributes. *)
Lemma nlm_sums_fold :
  nlm_sums fast_expf E
  = fold_left (accumulate fast_expf E) (nlm_window E) (F32.zero, F32.zero).
Proof.
  unfold nlm_sums, for_lt, nlm_window, zrange at 2. fold lx hx ly hy.
  destruct (nlm_rows (Z.to_nat (hy - ly)) ly (nlm_q_idx0 E)
              (F32.zero, F32.zero)) as [q' Hq'].
  { intros _. reflexivity. }
  cbn [fst snd] in Hq'. rewrite Hq'.
  now destruct (fold_left _ _ _).
Qed.

Lemma snd_accumulate (l : list (Z * Z)) (acc : float * float) :
  snd (fold_left (accumulate fast_expf E) l acc)
  = fold_left (fun sw q => F32.add sw (weight_at fast_expf E q)) l
      (snd acc).
Proof.
  revert acc. induction l as [|q l IH]; intros acc; simpl; [reflexivity|].
  apply IH.
Qed.

Lemma sum_weight_fold :
  snd (nlm_sums fast_expf E)
  = fold_left (fun sw q => F32.add sw (weight_at fast_expf E q))
      (nlm_window E) F32.zero.
Proof. rewrite nlm_sums_fold. apply snd_accumulate. Qed.

Lemma nlm_window_In (q : Z * Z) :
  In q (nlm_window E) <-> lx <= fst q < hx /\ ly <= snd q < hy.
Proof.
  unfold nlm_window. fold lx hx ly hy. rewrite in_flat_map. split.
  - intros (qy & Hy & Hin). apply in_map_iff in Hin.
    destruct Hin as (qx & <- & Hx). simpl.
    apply zrange_In in Hx, Hy. lia.
  - intros (Hx & Hy). exists (snd q). split; [now apply zrange_In|].
    apply in_map_iff. exists (fst q). split; [now destruct q|].
    now apply zrange_In.
Qed.

Lemma nlm_window_length :
  length (nlm_window E) = (Z.to_nat (hx - lx) * Z.to_nat (hy - ly))%nat.
Proof.
  unfold nlm_window. fold lx hx ly hy. rewrite <- (zrange_length ly hy).
  induction (zrange ly hy) as [|qy l IH]; simpl; [lia|].
  rewrite length_app, length_map, zrange_length, IH. lia.
Qed.

(** Every candidate lies in the rectangle. *)
Lemma nlm_window_in_rect (q : Z * Z) :
  In q (nlm_window E) -> in_rect (nlm_rect E) q.
Proof.
  rewrite nlm_window_In. unfold in_rect, lx, hx, ly, hy, nlm_low, nlm_high.
  unfold max_i, min_i; simpl. lia.
Qed.

End NlmLoops.

(** ** The filter depends on its images and on [fast_expf] pointwise *)

Lemma for_range_ext {S : Type} (n : nat) (i : Z) (b1 b2 : Z -> S -> S)
      (s : S) :
  (forall k s, b1 k s = b2 k s) -> for_range n i b1 s = for_range n i b2 s.
Proof.
  intros H. revert i s. induction n as [|n IH]; intros i s; simpl;
    [reflexivity|].
  rewrite H. apply IH.
Qed.

Section NlmExt.

Variables (fexp1 fexp2 : float -> float).
Variables (x y : Z) (n1 n2 w1 w2 v1 v2 : Z -> float).
Variables (rect : int4) (r f : Z) (a k_2 : float).

Hypothesis Hexp : forall z, fexp1 z = fexp2 z.
Hypothesis Hn : forall i, n1 i = n2 i.
Hypothesis Hw : forall i, w1 i = w2 i.
Hypothesis Hv : forall i, v1 i = v2 i.

Let E1 := Nlm_env x y n1 w1 v1 rect r f a k_2.
Let E2 := Nlm_env x y n2 w2 v2 rect r f a k_2.

Lemma patch_term_ext (q_idx dIdx : Z) :
  patch_term E1 q_idx dIdx = patch_term E2 q_idx dIdx.
Proof.
  unfold patch_term, E1, E2, nlm_p_idx.
  cbn [nlm_weightImage nlm_variance nlm_a nlm_k_2 nlm_x nlm_y nlm_rect].
  now rewrite !Hw, !Hv.
Qed.

Lemma patch_row_ext (q_idx : Z) (lo hi : int2) (st : Z * float) :
  patch_row E1 q_idx lo hi st = patch_row E2 q_idx lo hi st.
Proof.
  unfold patch_row, for_lt.
  rewrite (for_range_ext _ _ _
             (fun (_ : Z) '(dIdx, dI) =>
                (Int32.add dIdx 1, F32.add dI (patch_term E2 q_idx dIdx)))).
  - reflexivity.
  - intros k [dIdx dI]. now rewrite patch_term_ext.
Qed.

Lemma patch_distance_ext (qx qy q_idx : Z) :
  patch_distance E1 qx qy q_idx = patch_distance E2 qx qy q_idx.
Proof.
  unfold patch_distance, for_lt. cbv zeta.
  replace (low_dPatch E1 qx qy) with (low_dPatch E2 qx qy) by reflexivity.
  replace (high_dPatch E1 qx qy) with (high_dPatch E2 qx qy) by reflexivity.
  replace (nlm_w E1) with (nlm_w E2) by reflexivity.
  rewrite (for_range_ext _ _ _
             (fun (_ : Z) st =>
                patch_row E2 q_idx (low_dPatch E2 qx qy)
                  (high_dPatch E2 qx qy) st)).
  - reflexivity.
  - intros k st. apply patch_row_ext.
Qed.

Lemma nlm_step_ext (qx qy : Z) (st : nlm_acc) :
  nlm_step fexp1 E1 qx qy st = nlm_step fexp2 E2 qx qy st.
Proof.
  destruct st as [[q_idx si] sw]. unfold nlm_step, nlm_weight.
  rewrite patch_distance_ext, Hexp.
  unfold E1, E2. cbn [nlm_noisyImage]. now rewrite Hn.
Qed.

Lemma nlm_row_ext (qy : Z) (st : nlm_acc) :
  nlm_row fexp1 E1 qy st = nlm_row fexp2 E2 qy st.
Proof.
  unfold nlm_row, for_lt.
  replace (nlm_low E1) with (nlm_low E2) by reflexivity.
  replace (nlm_high E1) with (nlm_high E2) by reflexivity.
  replace (nlm_w E1) with (nlm_w E2) by reflexivity.
  rewrite (for_range_ext _ _ _ (fun qx st => nlm_step fexp2 E2 qx qy st)).
  - reflexivity.
  - intros k s. apply nlm_step_ext.
Qed.

(** Pointwise equal images and exponentials give the same output. *)
Lemma nlm_result_ext : nlm_result fexp1 E1 = nlm_result fexp2 E2.
Proof.
  unfold nlm_result, nlm_sums, for_lt.
  replace (nlm_low E1) with (nlm_low E2) by reflexivity.
  replace (nlm_high E1) with (nlm_high E2) by reflexivity.
  unfold nlm_q_idx0.
  replace (nlm_low E1) with (nlm_low E2) by reflexivity.
  replace (nlm_w E1) with (nlm_w E2) by reflexivity.
  replace (nlm_rect E1) with (nlm_rect E2) by reflexivity.
  rewrite (for_range_ext _ _ _ (nlm_row fexp2 E2)).
  - reflexivity.
  - intros k s. apply nlm_row_ext.
Qed.

End NlmExt.
(** ** The floor of the shadow division *)

(** Whatever the denominator read from the pass, the divisor
    [max(., 1e-7f)] is a positive float: neither a zero nor NaN. *)
Lemma max_eps_positive (v : float) :
  F32.ltb F32.zero (max_f v F32.eps) = true
  /\ F32.is_zero (max_f v F32.eps) = false
  /\ F32.is_nan (max_f v F32.eps) = false.
Proof.
  unfold max_f.
  destruct (F32.ltb F32.eps v) eqn:E; [|repeat split; reflexivity].
  destruct v as [sv|sv| |sv m e]; try discriminate E;
    destruct sv; try discriminate E; repeat split; reflexivity.
Qed.

Lemma max_eps_of_zero (v : float) :
  F32.is_zero v = true -> max_f v F32.eps = F32.eps.
Proof. destruct v as [[]|[]| |[] m e]; try discriminate; reflexivity. Qed.

(** ** [kernel_filter_divide_shadow] *)

Section DivideShadow.

Variables (kg : KernelGlobals) (sample : Z) (buffers : Z -> ptr) (x y : Z).
Variables (tile_x tile_y offset stride : int_array).
Variables (unfiltered sampleVariance sampleVarianceV bufferVariance : ptr).
Variables (rect : int4) (s : state).

Let cb := center_buffer kg buffers x y tile_x tile_y offset stride.
Let idx := pixel_index x y rect.
Let Bofs := shadow_Bofs rect.
Let s' := kernel_filter_divide_shadow kg sample buffers x y tile_x tile_y
            offset stride unfiltered sampleVariance sampleVarianceV
            bufferVariance rect s.

(** The two ratios, computed from the memory the kernel starts in. *)
Let ratioA := (load s cb 15 / max_f (load s cb 14) F32.eps)%f32.
Let ratioB := (load s cb 18 / max_f (load s cb 17) F32.eps)%f32.

Lemma divide_shadow_trace :
  exists vA vB vC vD vE,
    trace s'
    = trace s
      ++ [ Ev (blk unfiltered) (ofs unfiltered + idx) vA;
           Ev (blk unfiltered) (ofs unfiltered + Int32.add idx Bofs) vB;
           Ev (blk sampleVariance) (ofs sampleVariance + idx) vC;
           Ev (blk sampleVarianceV) (ofs sampleVarianceV + idx) vD;
           Ev (blk bufferVariance) (ofs bufferVariance + idx) vE ].
Proof.
  do 5 eexists.
  unfold s', kernel_filter_divide_shadow; cbv zeta.
  rewrite !trace_store, <- !app_assoc; cbn [app]. reflexivity.
Qed.

Lemma divide_shadow_cells :
  map ev_cell (appended s s')
  = shadow_cells x y rect unfiltered sampleVariance sampleVarianceV
      bufferVariance.
Proof.
  destruct divide_shadow_trace as (vA & vB & vC & vD & vE & H).
  rewrite (appended_app _ _ _ H). reflexivity.
Qed.

Lemma divide_shadow_frame_cells (b : block) (o : Z) :
  ~ In (b, o) (shadow_cells x y rect unfiltered sampleVariance
                 sampleVarianceV bufferVariance) ->
  fmem s' b o = fmem s b o.
Proof.
  intros H.
  unfold s', kernel_filter_divide_shadow; cbv zeta.
  rewrite !fmem_store_other; try reflexivity;
    intros K; apply H; rewrite K; unfold shadow_cells; simpl; tauto.
Qed.

Hypothesis Hsep :
  shadow_separate cb unfiltered sampleVariance sampleVarianceV
    bufferVariance.

Lemma shadow_separate_neq :
  blk cb <> blk unfiltered /\ blk cb <> blk sampleVariance
  /\ blk cb <> blk sampleVarianceV /\ blk cb <> blk bufferVariance
  /\ blk unfiltered <> blk sampleVariance
  /\ blk unfiltered <> blk sampleVarianceV
  /\ blk unfiltered <> blk bufferVariance
  /\ blk sampleVariance <> blk sampleVarianceV
  /\ blk sampleVariance <> blk bufferVariance
  /\ blk sampleVarianceV <> blk bufferVariance.
Proof.
  unfold shadow_separate in Hsep.
  repeat match goal with
         | H : NoDup (_ :: _) |- _ => inversion H; clear H; subst
         end.
  simpl in *. repeat split; intros K; rewrite K in *; tauto.
Qed.

Lemma divide_shadow_events :
  exists vC vD vE,
    appended s s'
    = [ Ev (blk unfiltered) (ofs unfiltered + idx) ratioA;
        Ev (blk unfiltered) (ofs unfiltered + Int32.add idx Bofs) ratioB;
        Ev (blk sampleVariance) (ofs sampleVariance + idx) vC;
        Ev (blk sampleVarianceV) (ofs sampleVarianceV + idx) vD;
        Ev (blk bufferVariance) (ofs bufferVariance + idx) vE ].
Proof.
  destruct shadow_separate_neq as (H1 & _).
  do 3 eexists.
  apply appended_app.
  unfold s', kernel_filter_divide_shadow; cbv zeta.
  fold cb idx Bofs.
  rewrite !(load_store_block _ unfiltered cb) by exact H1.
  rewrite !trace_store, <- !app_assoc; cbn [app].
  reflexivity.
Qed.

Lemma divide_shadow_final :
  load s' sampleVariance idx
  = ((load s cb 16 + load s cb 19) * varFac sample)%f32
  /\ load s' sampleVarianceV idx
     = (F32.half * (load s cb 16 - load s cb 19)
         * (load s cb 16 - load s cb 19) * varFac sample)%f32
  /\ load s' bufferVariance idx
     = (F32.half
         * (load s' unfiltered idx - load s' unfiltered (Int32.add idx Bofs))
         * (load s' unfiltered idx - load s' unfiltered (Int32.add idx Bofs)))%f32
  /\ load s' unfiltered (Int32.add idx Bofs) = ratioB
  /\ (Int32.add idx Bofs <> idx -> load s' unfiltered idx = ratioA).
Proof.
  destruct shadow_separate_neq
    as (H1 & H2 & H3 & H4 & H5 & H6 & H7 & H8 & H9 & H10).
  unfold s', kernel_filter_divide_shadow; cbv zeta. fold cb idx Bofs.
  repeat split.
  - rewrite (load_store_block _ bufferVariance sampleVariance) by auto.
    rewrite (load_store_block _ sampleVarianceV sampleVariance) by auto.
    rewrite load_store_same.
    rewrite !(load_store_block _ unfiltered cb) by auto. reflexivity.
  - rewrite (load_store_block _ bufferVariance sampleVarianceV) by auto.
    rewrite load_store_same.
    rewrite !(load_store_block _ sampleVariance cb) by auto.
    rewrite !(load_store_block _ unfiltered cb) by auto. reflexivity.
  - rewrite load_store_same.
    rewrite !(load_store_block _ bufferVariance unfiltered) by auto.
    reflexivity.
  - rewrite (load_store_block _ bufferVariance unfiltered) by auto.
    rewrite (load_store_block _ sampleVarianceV unfiltered) by auto.
    rewrite (load_store_block _ sampleVariance unfiltered) by auto.
    rewrite load_store_same.
    rewrite !(load_store_block _ unfiltered cb) by auto. reflexivity.
  - intros Hne.
    rewrite (load_store_block _ bufferVariance unfiltered) by auto.
    rewrite (load_store_block _ sampleVarianceV unfiltered) by auto.
    rewrite (load_store_block _ sampleVariance unfiltered) by auto.
    rewrite load_store_cell.
    + rewrite load_store_same. reflexivity.
    + unfold cell; intros K; inversion K; lia.
Qed.

End DivideShadow.

(** C5. [kernel_filter_divide_shadow] stores to [unfiltered[idx]] the ratio
    [center_buffer[15] / max(center_buffer[14], 1e-7f)] and to
    [unfiltered[idx+Bofs]] the ratio
    [center_buffer[18] / max(center_buffer[17], 1e-7f)], where
    [Bofs = (rect.w - rect.y) * align_up(rect.z - rect.x, 4)]; these are the
    first two stores of the call.  When [center_buffer[14]] is a zero the
    first ratio is [center_buffer[15] / 1e-7f]; whatever the denominators
    are, the two divisors are positive floats, neither zero nor NaN, so no
    division by zero takes place, and a finite numerator never gives NaN.
    The pass record and [unfiltered] are different allocations. *)
Theorem divide_shadow_unfiltered_ratio
    (kg : KernelGlobals) (sample : Z) (buffers : Z -> ptr) (x y : Z)
    (tile_x tile_y offset stride : int_array)
    (unfiltered sampleVariance sampleVarianceV bufferVariance : ptr)
    (rect : int4) (s : state) :
  let cb := center_buffer kg buffers x y tile_x tile_y offset stride in
  let idx := pixel_index x y rect in
  let Bofs := shadow_Bofs rect in
  let s' := kernel_filter_divide_shadow kg sample buffers x y tile_x tile_y
              offset stride unfiltered sampleVariance sampleVarianceV
              bufferVariance rect s in
  blk cb <> blk unfiltered ->
  Bofs = Int32.mul (Int32.sub (int4_w rect) (int4_y rect))
                   (align_up (Int32.sub (int4_z rect) (int4_x rect)) 4)
  /\ nth_error (appended s s') 0
     = Some (Ev (blk unfiltered) (ofs unfiltered + idx)
               (load s cb 15 / max_f (load s cb 14) F32.eps)%f32)
  /\ nth_error (appended s s') 1
     = Some (Ev (blk unfiltered) (ofs unfiltered + Int32.add idx Bofs)
               (load s cb 18 / max_f (load s cb 17) F32.eps)%f32)
  /\ (F32.is_zero (load s cb 14) = true ->
      nth_error (appended s s') 0
      = Some (Ev (blk unfiltered) (ofs unfiltered + idx)
                (load s cb 15 / F32.eps)%f32))
  /\ (F32.ltb F32.zero (max_f (load s cb 14) F32.eps) = true
      /\ F32.is_zero (max_f (load s cb 14) F32.eps) = false
      /\ F32.is_nan (max_f (load s cb 14) F32.eps) = false)
  /\ (F32.ltb F32.zero (max_f (load s cb 17) F32.eps) = true
      /\ F32.is_zero (max_f (load s cb 17) F32.eps) = false
      /\ F32.is_nan (max_f (load s cb 17) F32.eps) = false)
  /\ (F32.is_finite (load s cb 15) = true ->
      F32.is_nan (load s cb 15 / max_f (load s cb 14) F32.eps)%f32 = false)
  /\ (F32.is_finite (load s cb 18) = true ->
      F32.is_nan (load s cb 18 / max_f (load s cb 17) F32.eps)%f32 = false).
Proof.
  intros cb idx Bofs s' Hcb.
  assert (Happ : exists vC vD vE,
             appended s s'
             = [ Ev (blk unfiltered) (ofs unfiltered + idx)
                   (load s cb 15 / max_f (load s cb 14) F32.eps)%f32;
                 Ev (blk unfiltered) (ofs unfiltered + Int32.add idx Bofs)
                   (load s cb 18 / max_f (load s cb 17) F32.eps)%f32;
                 vC; vD; vE ]).
  { do 3 eexists. apply appended_app.
    unfold s', kernel_filter_divide_shadow; cbv zeta.
    fold cb idx Bofs.
    rewrite !(load_store_block _ unfiltered cb) by exact Hcb.
    rewrite !trace_store, <- !app_assoc; cbn [app]. reflexivity. }
  destruct Happ as (vC & vD & vE & Happ).
  split; [reflexivity|].
  rewrite Happ; cbn [nth_error].
  split; [reflexivity|]. split; [reflexivity|].
  split.
  { intros Hz. now rewrite (max_eps_of_zero _ Hz). }
  split; [apply max_eps_positive|].
  split; [apply max_eps_positive|].
  split; intros Hfin; (apply div_by_positive_not_nan;
                       [exact Hfin | apply max_eps_positive]).
Qed.

(** The hypothesis of C5 holds on the 4x4 tile, where pixel (1,1) has
    [center_buffer[14] = 19] and [center_buffer[15] = 20]. *)
Lemma divide_shadow_unfiltered_ratio_witness :
  1%positive <> 2%positive
  /\ nth_error (appended Tile4x4.mem (Tile4x4.divide_shadow 4 1 1)) 0
     = Some (Ev 2%positive 5 (F32.of_int 20 / F32.of_int 19)%f32).
Proof.
  split; [discriminate|].
  refine (proj1 (proj2 (divide_shadow_unfiltered_ratio
            Tile4x4.kg 4 Tile4x4.buffers 1 1 Tile4x4.tile_bounds
            Tile4x4.tile_bounds Tile4x4.offset Tile4x4.stride
            Tile4x4.unfiltered Tile4x4.sampleVariance Tile4x4.sampleVarianceV
            Tile4x4.bufferVariance Tile4x4.rect Tile4x4.mem _))).
  vm_compute. discriminate.
Defined.

(** In a rectangle whose padded size is an [int], the two halves of
    [unfiltered] do not overlap: the index of a pixel lies in the first
    half and [idx+Bofs] is another index. *)
Lemma shadow_halves_apart (x y : Z) (rect : int4) :
  rect_fits rect -> in_rect rect (x, y) ->
  (int4_w rect - int4_y rect) * (int4_z rect - int4_x rect + 3)
    <= Int32.max_signed ->
  0 <= pixel_index x y rect < shadow_Bofs rect
  /\ Int32.add (pixel_index x y rect) (shadow_Bofs rect)
     <> pixel_index x y rect.
Proof.
  intros (Rx & Ry & Rz & Rw & Ew & Eh) [Hx Hy] Hsize.
  cbn [fst snd] in Hx, Hy.
  unfold Int32.in_range, Int32.min_signed, Int32.max_signed in *.
  set (wd := int4_z rect - int4_x rect) in *.
  set (ht := int4_w rect - int4_y rect) in *.
  assert (Hwd : 1 <= wd) by (unfold wd; lia).
  assert (Hht : 1 <= ht) by (unfold ht; lia).
  assert (Hwd3 : wd + 3 <= 2 ^ 31 - 1) by nia.
  assert (Hw : wd <= buffer_w rect <= wd + 3).
  { unfold buffer_w, Int32.sub. fold wd.
    rewrite (wrap_small wd)
      by (unfold Int32.in_range, Int32.min_signed, Int32.max_signed; lia).
    apply align_up_4_spec.
    unfold Int32.min_signed, Int32.max_signed. lia. }
  set (w := buffer_w rect) in *.
  assert (HB : shadow_Bofs rect = ht * w).
  { unfold shadow_Bofs, Int32.mul, Int32.sub. fold w ht.
    rewrite (wrap_small ht)
      by (unfold Int32.in_range, Int32.min_signed, Int32.max_signed; lia).
    apply wrap_small.
    unfold Int32.in_range, Int32.min_signed, Int32.max_signed. nia. }
  assert (HI : pixel_index x y rect = (y - int4_y rect) * w + (x - int4_x rect)).
  { unfold pixel_index, Int32.add, Int32.mul, Int32.sub. fold w.
    rewrite (wrap_small (y - int4_y rect))
      by (unfold Int32.in_range, Int32.min_signed, Int32.max_signed; lia).
    rewrite (wrap_small (x - int4_x rect))
      by (unfold Int32.in_range, Int32.min_signed, Int32.max_signed; lia).
    rewrite (wrap_small ((y - int4_y rect) * w))
      by (unfold Int32.in_range, Int32.min_signed, Int32.max_signed; nia).
    apply wrap_small.
    unfold Int32.in_range, Int32.min_signed, Int32.max_signed. nia. }
  rewrite HB, HI.
  assert (Hrange : 0 <= (y - int4_y rect) * w + (x - int4_x rect) < ht * w)
    by nia.
  split; [exact Hrange|].
  unfold Int32.add.
  destruct (wrap_spec ((y - int4_y rect) * w + (x - int4_x rect) + ht * w))
    as (k & -> & _).
  assert (ht * w <= 2 ^ 31 - 1) by nia.
  lia.
Qed.

(** C6. With [varFac = 1/(sample*(sample-1))], the product being the [int]
    product of the source, a call of [kernel_filter_divide_shadow] leaves
    [(center_buffer[16] + center_buffer[19]) * varFac] in
    [sampleVariance[idx]],
    [0.5 * (center_buffer[16] - center_buffer[19])^2 * varFac] in
    [sampleVarianceV[idx]], and half the squared difference of
    [unfiltered[idx]] and [unfiltered[idx+Bofs]] in [bufferVariance[idx]];
    these two cells hold the two ratios of the shadow division (the first
    one as long as [idx+Bofs] is another index than [idx], which is the
    case for every pixel of a rectangle whose padded size is an [int]).
    For
    [2 <= sample <= 46341] the [int] product is the exact product and
    [varFac] is a positive finite float.  The pass record and the four
    outputs are five different allocations. *)
Theorem divide_shadow_variances
    (kg : KernelGlobals) (sample : Z) (buffers : Z -> ptr) (x y : Z)
    (tile_x tile_y offset stride : int_array)
    (unfiltered sampleVariance sampleVarianceV bufferVariance : ptr)
    (rect : int4) (s : state) :
  let cb := center_buffer kg buffers x y tile_x tile_y offset stride in
  let idx := pixel_index x y rect in
  let Bofs := shadow_Bofs rect in
  let s' := kernel_filter_divide_shadow kg sample buffers x y tile_x tile_y
              offset stride unfiltered sampleVariance sampleVarianceV
              bufferVariance rect s in
  let ratioA := (load s cb 15 / max_f (load s cb 14) F32.eps)%f32 in
  let ratioB := (load s cb 18 / max_f (load s cb 17) F32.eps)%f32 in
  shadow_separate cb unfiltered sampleVariance sampleVarianceV
    bufferVariance ->
  varFac sample
  = (F32.one / F32.of_int (Int32.mul sample (Int32.sub sample 1)))%f32
  /\ (2 <= sample <= 46341 ->
      Int32.mul sample (Int32.sub sample 1) = sample * (sample - 1)
      /\ positive_finite (varFac sample) = true)
  /\ load s' sampleVariance idx
     = ((load s cb 16 + load s cb 19) * varFac sample)%f32
  /\ load s' sampleVarianceV idx
     = (F32.half * (load s cb 16 - load s cb 19)
          * (load s cb 16 - load s cb 19) * varFac sample)%f32
  /\ load s' bufferVariance idx
     = (F32.half
          * (load s' unfiltered idx - load s' unfiltered (Int32.add idx Bofs))
          * (load s' unfiltered idx - load s' unfiltered (Int32.add idx Bofs)))%f32
  /\ load s' unfiltered (Int32.add idx Bofs) = ratioB
  /\ (Int32.add idx Bofs <> idx ->
      load s' unfiltered idx = ratioA
      /\ load s' bufferVariance idx
         = (F32.half * (ratioA - ratioB) * (ratioA - ratioB))%f32)
  /\ (rect_fits rect -> in_rect rect (x, y) ->
      (int4_w rect - int4_y rect) * (int4_z rect - int4_x rect + 3)
        <= Int32.max_signed ->
      load s' bufferVariance idx
      = (F32.half * (ratioA - ratioB) * (ratioA - ratioB))%f32).
Proof.
  intros cb idx Bofs s' ratioA ratioB Hsep.
  destruct (divide_shadow_final kg sample buffers x y tile_x tile_y offset
              stride unfiltered sampleVariance sampleVarianceV bufferVariance
              rect s Hsep) as (H1 & H2 & H3 & H4 & H5).
  fold cb idx Bofs s' in H1, H2, H3, H4, H5.
  split; [reflexivity|].
  split.
  { intros Hs. destruct (sample_product_exact sample Hs) as [Hp Hpos].
    split; [exact Hp|]. unfold varFac. rewrite Hp.
    apply recip_area_positive.
    unfold Int32.max_signed. split; [exact Hpos | nia]. }
  repeat (split; [assumption|]).
  assert (Hbv : Int32.add idx Bofs <> idx ->
                load s' bufferVariance idx
                = (F32.half * (ratioA - ratioB) * (ratioA - ratioB))%f32).
  { intros Hne. rewrite H3, H4, (H5 Hne). reflexivity. }
  split; [intros Hne; split; [auto | apply Hbv; exact Hne]|].
  intros Hfit Hin Hsize. apply Hbv.
  apply (shadow_halves_apart x y rect Hfit Hin Hsize).
Qed.

Lemma divide_shadow_variances_witness :
  NoDup [1; 2; 3; 4; 5]%positive
  /\ load (Tile4x4.divide_shadow 4 1 1) Tile4x4.sampleVariance 5
     = ((F32.of_int 21 + F32.of_int 24) * varFac 4)%f32.
Proof.
  assert (Hsep : NoDup [1; 2; 3; 4; 5]%positive)
    by (repeat constructor; simpl; intuition discriminate).
  split; [exact Hsep|].
  refine (proj1 (proj2 (proj2 (divide_shadow_variances
            Tile4x4.kg 4 Tile4x4.buffers 1 1 Tile4x4.tile_bounds
            Tile4x4.tile_bounds Tile4x4.offset Tile4x4.stride
            Tile4x4.unfiltered Tile4x4.sampleVariance Tile4x4.sampleVarianceV
            Tile4x4.bufferVariance Tile4x4.rect Tile4x4.mem _)))).
  exact Hsep.
Defined.

(** ** The frame of [kernel_filter_divide_shadow] *)

Lemma cells_written_nodup (evs : list event) :
  NoDup (map ev_cell evs) -> cells_written evs = map ev_cell evs.
Proof. intros H. unfold cells_written. now apply nodup_fixed_point. Qed.

(** C9, refuted as stated: on the 4x4 tile a call for pixel (1,1) stores to
    five different cells, not four: two of [unfiltered] and one of each of
    the three variance buffers. *)
Lemma divide_shadow_four_writes_counterexample :
  cells_written (appended Tile4x4.mem (Tile4x4.divide_shadow 4 1 1))
  = [(2%positive, 5); (2%positive, 21); (3%positive, 5); (4%positive, 5);
     (5%positive, 5)]
  /\ length (cells_written
               (appended Tile4x4.mem (Tile4x4.divide_shadow 4 1 1)))
     <> 4%nat.
Proof. split; [vm_compute; reflexivity | vm_compute; discriminate]. Qed.

(** C9, amended.  One call of [kernel_filter_divide_shadow] performs
    exactly five stores, in this order: to [unfiltered[idx]], to
    [unfiltered[idx+Bofs]], to [sampleVariance[idx]], to
    [sampleVarianceV[idx]] and to [bufferVariance[idx]], that is two cells
    of [unfiltered] and one cell of each of the other three output buffers.
    Every memory cell other than these five holds after the call what it
    held before.  When the pass record and the four output buffers are five
    different allocations and [idx+Bofs] is another index than [idx], the
    five cells are pairwise different and the pass record is unchanged. *)
Theorem divide_shadow_writes_five
    (kg : KernelGlobals) (sample : Z) (buffers : Z -> ptr) (x y : Z)
    (tile_x tile_y offset stride : int_array)
    (unfiltered sampleVariance sampleVarianceV bufferVariance : ptr)
    (rect : int4) (s : state) :
  let cb := center_buffer kg buffers x y tile_x tile_y offset stride in
  let idx := pixel_index x y rect in
  let Bofs := shadow_Bofs rect in
  let s' := kernel_filter_divide_shadow kg sample buffers x y tile_x tile_y
              offset stride unfiltered sampleVariance sampleVarianceV
              bufferVariance rect s in
  let cells := shadow_cells x y rect unfiltered sampleVariance
                 sampleVarianceV bufferVariance in
  map ev_cell (appended s s') = cells
  /\ length (appended s s') = 5%nat
  /\ (forall b o, ~ In (b, o) cells -> fmem s' b o = fmem s b o)
  /\ (shadow_separate cb unfiltered sampleVariance sampleVarianceV
        bufferVariance ->
      Int32.add idx Bofs <> idx ->
      NoDup cells
      /\ length (cells_written (appended s s')) = 5%nat
      /\ forall i, load s' cb i = load s cb i).
Proof.
  intros cb idx Bofs s' cells.
  pose proof (divide_shadow_cells kg sample buffers x y tile_x tile_y offset
                stride unfiltered sampleVariance sampleVarianceV
                bufferVariance rect s) as Hcells.
  fold s' cells in Hcells.
  split; [exact Hcells|].
  split; [rewrite <- (length_map ev_cell), Hcells; reflexivity|].
  split; [apply divide_shadow_frame_cells|].
  intros Hsep Hne.
  destruct (shadow_separate_neq kg buffers x y tile_x tile_y offset stride
              unfiltered sampleVariance sampleVarianceV bufferVariance Hsep)
    as (H1 & H2 & H3 & H4 & H5 & H6 & H7 & H8 & H9 & H10).
  fold cb in H1, H2, H3, H4.
  assert (Hnd : NoDup cells).
  { unfold cells, shadow_cells, cell. fold idx Bofs.
    repeat constructor; simpl;
      intuition (try match goal with
                     | K : (_, _) = (_, _) |- _ => inversion K; clear K
                     end; try congruence; try lia). }
  split; [exact Hnd|].
  split.
  - rewrite cells_written_nodup; rewrite Hcells; [reflexivity | exact Hnd].
  - intros i. unfold load. apply divide_shadow_frame_cells.
    unfold shadow_cells, cell; simpl.
    intros K.
    repeat match goal with
           | K : _ \/ _ |- _ => destruct K as [K|K]
           | K : (_, _) = (_, _) |- _ => inversion K; clear K
           end; try contradiction;
      match goal with
      | K : blk _ = _ |- _ =>
          first [ exact (H1 (eq_sym K)) | exact (H2 (eq_sym K))
                | exact (H3 (eq_sym K)) | exact (H4 (eq_sym K)) ]
      end.
Qed.

Lemma divide_shadow_writes_five_witness :
  NoDup [1; 2; 3; 4; 5]%positive /\ Int32.add 5 16 <> 5
  /\ length (cells_written
               (appended Tile4x4.mem (Tile4x4.divide_shadow 4 1 1)))
     = 5%nat.
Proof.
  assert (Hsep : NoDup [1; 2; 3; 4; 5]%positive)
    by (repeat constructor; simpl; intuition discriminate).
  assert (Hne : Int32.add 5 16 <> 5) by (vm_compute; discriminate).
  split; [exact Hsep|]. split; [exact Hne|].
  refine (proj1 (proj2 (proj2 (proj2 (proj2 (divide_shadow_writes_five
            Tile4x4.kg 4 Tile4x4.buffers 1 1 Tile4x4.tile_bounds
            Tile4x4.tile_bounds Tile4x4.offset Tile4x4.stride
            Tile4x4.unfiltered Tile4x4.sampleVariance Tile4x4.sampleVarianceV
            Tile4x4.bufferVariance Tile4x4.rect Tile4x4.mem))) Hsep Hne))).
Defined.

(** ** [kernel_filter_get_feature] *)

(** C8. [kernel_filter_get_feature] stores [center_buffer[m_offset] / sample]
    to [mean[idx]] and then
    [center_buffer[v_offset] / (sample*(sample-1))] to [variance[idx]], the
    product being the [int] product of the source, which for
    [2 <= sample <= 46341] is the exact product, both divisors then being
    positive finite floats; with [sample = 2] the variance written is the
    raw variance channel divided by [2.0f].  The pass record and [mean]
    are different allocations. *)
Theorem get_feature_normalizes
    (kg : KernelGlobals) (sample : Z) (buffers : Z -> ptr)
    (m_offset v_offset x y : Z) (tile_x tile_y offset stride : int_array)
    (mean variance : ptr) (rect : int4) (s : state) :
  let cb := center_buffer kg buffers x y tile_x tile_y offset stride in
  let idx := pixel_index x y rect in
  let s' := kernel_filter_get_feature kg sample buffers m_offset v_offset
              x y tile_x tile_y offset stride mean variance rect s in
  blk cb <> blk mean ->
  appended s s'
  = [ Ev (blk mean) (ofs mean + idx)
        (load s cb m_offset / F32.of_int sample)%f32;
      Ev (blk variance) (ofs variance + idx)
        (load s cb v_offset
           / F32.of_int (Int32.mul sample (Int32.sub sample 1)))%f32 ]
  /\ load s' variance idx
     = (load s cb v_offset
          / F32.of_int (Int32.mul sample (Int32.sub sample 1)))%f32
  /\ (cell mean idx <> cell variance idx ->
      load s' mean idx = (load s cb m_offset / F32.of_int sample)%f32)
  /\ (2 <= sample <= 46341 ->
      Int32.mul sample (Int32.sub sample 1) = sample * (sample - 1)
      /\ positive_within 1 32 (F32.of_int sample) = true
      /\ positive_within 1 32
           (F32.of_int (Int32.mul sample (Int32.sub sample 1))) = true)
  /\ (sample = 2 ->
      load s' variance idx = (load s cb v_offset / two)%f32).
Proof.
  intros cb idx s' Hcb.
  assert (Hv : load s' variance idx
               = (load s cb v_offset
                    / F32.of_int (Int32.mul sample (Int32.sub sample 1)))%f32).
  { unfold s', kernel_filter_get_feature; cbv zeta. fold cb idx.
    rewrite load_store_same, (load_store_block _ mean cb) by exact Hcb.
    reflexivity. }
  split.
  { apply appended_app.
    unfold s', kernel_filter_get_feature; cbv zeta. fold cb idx.
    rewrite (load_store_block _ mean cb) by exact Hcb.
    rewrite !trace_store, <- !app_assoc; cbn [app]. reflexivity. }
  split; [exact Hv|].
  split.
  { intros Hne.
    unfold s', kernel_filter_get_feature; cbv zeta. fold cb idx.
    rewrite load_store_cell by exact Hne. apply load_store_same. }
  split.
  { intros Hs. destruct (sample_product_exact sample Hs) as [Hp Hpos].
    split; [exact Hp|]. rewrite Hp.
    split; apply of_int_positive; unfold Int32.max_signed; nia. }
  intros ->. rewrite Hv. reflexivity.
Qed.

(** On the 4x4 tile, pixel (1,1) with the mean in channel 3 and the
    variance in channel 4: the raw values are 8 and 9, and two samples give
    the mean 4 and the variance 9/2. *)
Lemma get_feature_normalizes_witness :
  1%positive <> 2%positive
  /\ appended Tile4x4.mem (Tile4x4.get_feature 2 3 4 1 1)
     = [ Ev 2%positive 5 (F32.of_int 8 / F32.of_int 2)%f32;
         Ev 3%positive 5 (F32.of_int 9 / F32.of_int 2)%f32 ].
Proof.
  split; [discriminate|].
  refine (proj1 (get_feature_normalizes
            Tile4x4.kg 2 Tile4x4.buffers 3 4 1 1 Tile4x4.tile_bounds
            Tile4x4.tile_bounds Tile4x4.offset Tile4x4.stride
            (Ptr 2%positive 0) (Ptr 3%positive 0) Tile4x4.rect Tile4x4.mem _)).
  vm_compute. discriminate.
Defined.

(** ** [kernel_filter_combine_halves] *)

(** C7. Swapping the buffers [a] and [b] changes nothing in what
    [kernel_filter_combine_halves] does: the mean [0.5f*(a[idx]+b[idx])] and
    the variance [0.5f*(a[idx]-b[idx])*(a[idx]-b[idx])] it stores are the
    same floats either way, for every pixel, rectangle and memory, whether
    or not the output pointers are null, NaN and infinities included. *)
Theorem combine_halves_swap
    (x y : Z) (mean variance : option ptr) (a b : ptr) (rect : int4)
    (s : state) :
  let idx := pixel_index x y rect in
  kernel_filter_combine_halves x y mean variance a b rect s
  = kernel_filter_combine_halves x y mean variance b a rect s
  /\ (forall m,
        appended s (kernel_filter_combine_halves x y (Some m) None a b rect s)
        = [Ev (blk m) (ofs m + idx)
             (F32.half * (load s a idx + load s b idx))%f32])
  /\ (forall v,
        appended s (kernel_filter_combine_halves x y None (Some v) a b rect s)
        = [Ev (blk v) (ofs v + idx)
             (F32.half * (load s a idx - load s b idx)
                * (load s a idx - load s b idx))%f32])
  /\ (F32.half * (load s a idx + load s b idx))%f32
     = (F32.half * (load s b idx + load s a idx))%f32
  /\ (F32.half * (load s a idx - load s b idx)
        * (load s a idx - load s b idx))%f32
     = (F32.half * (load s b idx - load s a idx)
          * (load s b idx - load s a idx))%f32.
Proof.
  intros idx.
  split.
  { unfold kernel_filter_combine_halves; cbv zeta. fold idx.
    destruct mean as [m|], variance as [v|]; try reflexivity.
    - rewrite (add_comm (load s a idx)).
      now rewrite half_square_diff_swap.
    - now rewrite (add_comm (load s a idx)).
    - now rewrite half_square_diff_swap. }
  split; [intros m; apply appended_app; reflexivity|].
  split; [intros v; apply appended_app; reflexivity|].
  split; [now rewrite add_comm | apply half_square_diff_swap].
Qed.

(** ** [kernel_filter_non_local_means]: the search window *)

(** At a corner of the rectangle and with [r = 3] each axis of the window
    holds at most four candidates. *)
Lemma corner_axis (c lo hi : Z) :
  Int32.in_range c -> c = lo \/ c = hi - 1 ->
  Z.min hi (Int32.add (Int32.add c 3) 1) - Z.max lo (Int32.sub c 3) <= 4.
Proof.
  unfold Int32.add, Int32.sub, Int32.in_range, Int32.min_signed,
    Int32.max_signed.
  intros Hc Hcorner.
  destruct (wrap_spec (c + 3)) as (k1 & E1 & R1).
  destruct (wrap_spec (Int32.wrap (c + 3) + 1)) as (k2 & E2 & R2).
  destruct (wrap_spec (c - 3)) as (k3 & E3 & R3).
  unfold Int32.in_range, Int32.min_signed, Int32.max_signed in R1, R2, R3.
  rewrite E2, E3. rewrite E1 in *. lia.
Qed.

(** C4. The candidates [q] the loops of [kernel_filter_non_local_means]
    visit are exactly the points of
    [[max(rect.x, x-r), min(rect.z, x+r+1)) x
     [max(rect.y, y-r), min(rect.w, y+r+1))], all of which lie in the
    rectangle; [sum_image] and [sum_weight] are the sums, in row-major
    order, of what these candidates contribute, and of nothing else.  At a
    corner pixel with [r = 3] the window has at most 4 x 4 = 16 candidates,
    not the 49 of the full window. *)
Theorem nlm_window_clipped (fast_expf : float -> float) (E : nlm_env) :
  let rect := nlm_rect E in
  let x := nlm_x E in
  let y := nlm_y E in
  let r := nlm_r E in
  (forall q,
      In q (nlm_window E) <->
      Z.max (int4_x rect) (Int32.sub x r) <= fst q
        < Z.min (int4_z rect) (Int32.add (Int32.add x r) 1)
      /\ Z.max (int4_y rect) (Int32.sub y r) <= snd q
           < Z.min (int4_w rect) (Int32.add (Int32.add y r) 1))
  /\ (forall q, In q (nlm_window E) -> in_rect rect q)
  /\ nlm_sums fast_expf E
     = fold_left (accumulate fast_expf E) (nlm_window E) (F32.zero, F32.zero)
  /\ snd (nlm_sums fast_expf E)
     = fold_left (fun sw q => F32.add sw (weight_at fast_expf E q))
         (nlm_window E) F32.zero
  /\ (r = 3 -> Int32.in_range x -> Int32.in_range y ->
      x = int4_x rect \/ x = int4_z rect - 1 ->
      y = int4_y rect \/ y = int4_w rect - 1 ->
      (length (nlm_window E) <= 16)%nat).
Proof.
  intros rect x y r.
  split; [intros q; apply nlm_window_In|].
  split; [intros q; apply nlm_window_in_rect|].
  split; [apply nlm_sums_fold|].
  split; [apply sum_weight_fold|].
  intros Hr Hx Hy Hcx Hcy.
  rewrite nlm_window_length.
  unfold nlm_low, nlm_high, max_i, min_i; cbn [int2_x int2_y].
  fold rect x y r. rewrite Hr.
  pose proof (corner_axis x (int4_x rect) (int4_z rect) Hx Hcx) as Ax.
  pose proof (corner_axis y (int4_y rect) (int4_w rect) Hy Hcy) as Ay.
  change 16%nat with (4 * 4)%nat.
  apply Nat.mul_le_mono; lia.
Qed.

(** The corner (0,0) of the rectangle (0,0,8,8) with [r = 3]: the window
    is [0,4) x [0,4). *)
Lemma nlm_window_clipped_witness :
  Int32.in_range 0 /\ (length (nlm_window corner_env) <= 16)%nat.
Proof.
  assert (H0 : Int32.in_range 0) by (vm_compute; split; discriminate).
  split; [exact H0|].
  refine (proj2 (proj2 (proj2 (proj2 (nlm_window_clipped expf_coarse
            corner_env)))) eq_refl H0 H0 (or_introl eq_refl)
            (or_introl eq_refl)).
Defined.

Example corner_window :
  nlm_window corner_env
  = [ (0, 0); (1, 0); (2, 0); (3, 0); (0, 1); (1, 1); (2, 1); (3, 1);
      (0, 2); (1, 2); (2, 2); (3, 2); (0, 3); (1, 3); (2, 3); (3, 3) ].
Proof. vm_compute. reflexivity. Qed.

(** ** [kernel_filter_non_local_means]: the uniform 4x4 image *)

(** C1. On the rectangle (0,0,4,4), with [noisyImage] and [weightImage]
    holding 5.0 and [variance] holding 0 at each of the sixteen pixels, and
    [r = 1], [f = 1], [a = 1], [k_2 = 1], the kernel stores exactly 5.0 to
    [filteredImage] for every pixel of the rectangle, the interior ones
    included, and it is its only store.  The one fact used about
    [fast_expf] is that it maps [-0.0f] to 1. *)
Theorem nlm_uniform_five
    (fast_expf : float -> float) (s : state)
    (noisyImage weightImage variance filteredImage : ptr) (x y : Z) :
  let rect := make_int4 0 0 4 4 in
  let s' := kernel_filter_non_local_means fast_expf x y noisyImage
              weightImage variance filteredImage rect 1 1 F32.one F32.one s in
  fast_expf (S754_zero true) = F32.one ->
  (forall i, 0 <= i < 16 ->
             load s noisyImage i = five /\ load s weightImage i = five
             /\ load s variance i = F32.zero) ->
  0 <= x < 4 -> 0 <= y < 4 ->
  load s' filteredImage (pixel_index x y rect) = five
  /\ appended s s' = [Ev (blk filteredImage) (ofs filteredImage + (4 * y + x))
                        five].
Proof.
  intros rect s' Hexp Himg Hx Hy.
  set (in16 := fun i => (0 <=? i) && (i <? 16)).
  assert (Hin16 : forall (c : float) (g : Z -> float),
             (forall i, 0 <= i < 16 -> g i = c) ->
             forall i, g i = if in16 i then c else g i).
  { intros c g Hg i. unfold in16.
    destruct (Z.leb_spec 0 i), (Z.ltb_spec i 16); simpl; try reflexivity.
    apply Hg; lia. }
  assert (He : forall v, fast_expf v
                         = if F32.same v (S754_zero true) then F32.one
                           else fast_expf v).
  { intros v. destruct v as [[]|[]| |[] m e]; simpl; auto. }
  assert (Hres : nlm_result fast_expf
                   (Nlm_env x y (load s noisyImage) (load s weightImage)
                      (load s variance) rect 1 1 F32.one F32.one) = five
                 /\ pixel_index x y rect = 4 * y + x).
  { rewrite (nlm_result_ext fast_expf _ x y
               (load s noisyImage) _ (load s weightImage) _
               (load s variance) _ rect 1 1 F32.one F32.one He
               (Hin16 five _ (fun i Hi => proj1 (Himg i Hi)))
               (Hin16 five _ (fun i Hi => proj1 (proj2 (Himg i Hi))))
               (Hin16 F32.zero _ (fun i Hi => proj2 (proj2 (Himg i Hi))))).
    clear He Hin16 Himg Hexp s'.
    assert (Hxs : x = 0 \/ x = 1 \/ x = 2 \/ x = 3) by lia.
    assert (Hys : y = 0 \/ y = 1 \/ y = 2 \/ y = 3) by lia.
    clear Hx Hy.
    destruct Hxs as [->|[->|[->| ->]]], Hys as [->|[->|[->| ->]]];
      split; vm_compute; reflexivity. }
  destruct Hres as [Hres Hidx].
  unfold s', kernel_filter_non_local_means; cbv zeta.
  split.
  - rewrite load_store_same. exact Hres.
  - apply appended_app. rewrite trace_store.
    change (nlm_p_idx (Nlm_env x y (load s noisyImage) (load s weightImage)
                         (load s variance) rect 1 1 F32.one F32.one))
      with (pixel_index x y rect).
    rewrite Hres, Hidx. reflexivity.
Qed.

Lemma nlm_uniform_five_witness :
  expf_coarse (S754_zero true) = F32.one
  /\ load (kernel_filter_non_local_means expf_coarse 1 2
             Image4x4.noisyImage Image4x4.weightImage Image4x4.variance
             Image4x4.filteredImage Image4x4.rect 1 1 F32.one F32.one
             (Image4x4.uniform five F32.zero))
       Image4x4.filteredImage 9
     = five.
Proof.
  split; [reflexivity|].
  refine (proj1 (nlm_uniform_five expf_coarse
            (Image4x4.uniform five F32.zero)
            Image4x4.noisyImage Image4x4.weightImage Image4x4.variance
            Image4x4.filteredImage 1 2 eq_refl _ _ _)).
  - intros i _. repeat split; reflexivity.
  - lia.
  - lia.
Defined.

(** ** [kernel_filter_non_local_means]: the weight of the pixel itself *)

Lemma for_range_invariant {S : Type} (P : S -> Prop) (n : nat) (i : Z)
      (body : Z -> S -> S) (s : S) :
  P s -> (forall k s, P s -> P (body k s)) -> P (for_range n i body s).
Proof.
  intros Hs Hbody. revert i s Hs.
  induction n as [|n IH]; intros i s Hs; simpl; auto.
Qed.

Lemma finite_of_sign_zero_or (s : bool) (x : float) :
  finite_of_sign s x = true -> zero_or_sign s x = true.
Proof.
  destruct x as [t|t| |t m e]; try discriminate; try reflexivity.
  unfold zero_or_sign; simpl. auto.
Qed.

(** [1.0f / (1e-7f + k)] for a non-negative finite [k]. *)
Lemma recip_eps_plus (k : float) :
  finite_of_sign false k = true ->
  finite_of_sign false (F32.div F32.one (F32.add F32.eps k)) = true.
Proof.
  intros Hk. pose proof (eps_plus_nonneg k Hk) as Hden.
  destruct (F32.add F32.eps k) as [t|[]| |[] m e]; try discriminate.
  - reflexivity.
  - unfold positive_from in Hden. apply andb_prop in Hden.
    destruct Hden as [He Hmag]. apply Z.leb_le in He, Hmag.
    destruct (recip_positive m e He) as (Hs & Hfin & _).
    cbv zeta in Hs, Hfin.
    apply zero_or_sign_finite; [|apply Hfin; lia].
    unfold zero_or_sign. rewrite Hs. apply Bool.orb_true_r.
Qed.

Section SelfWeight.

Variable E : nlm_env.
Hypothesis Hclean : clean_inputs E.

(** With [q = p] every summand of [dI] is zero or negative. *)
Lemma self_term_nonpos (dIdx : Z) :
  zero_or_sign true (patch_term E (nlm_p_idx E) dIdx) = true.
Proof.
  destruct Hclean as (Ha & Hk & Hi).
  unfold patch_term. cbv zeta.
  set (i := Int32.add (nlm_p_idx E) dIdx).
  destruct (Hi i) as (Hw & Hv & Hta & Htk).
  rewrite (sub_self _ Hw), min_f_same.
  change (F32.mul F32.zero F32.zero) with F32.zero.
  pose proof (scaled_double _ _ Ha Hv Hta) as Ht.
  pose proof (scaled_double _ _ Hk Hv Htk) as Hkk.
  pose proof (zero_sub_nonneg _ Ht) as Hu.
  pose proof (recip_eps_plus _ Hkk) as Hr.
  destruct (finite_of_sign_signed _ _ Hu) as [Hsu Hfu].
  destruct (finite_of_sign_signed _ _ Hr) as [Hsr Hfr].
  apply (mul_finite_sign true false); assumption.
Qed.

Lemma self_row_nonpos (lo hi : int2) (st : Z * float) :
  zero_or_sign true (snd st) = true ->
  zero_or_sign true (snd (patch_row E (nlm_p_idx E) lo hi st)) = true.
Proof.
  intros Hst. unfold patch_row, for_lt.
  set (body := fun (_ : Z) '(dIdx, dI) =>
                 (Int32.add dIdx 1,
                  F32.add dI (patch_term E (nlm_p_idx E) dIdx))).
  assert (H : zero_or_sign true
                (snd (for_range (Z.to_nat (int2_x hi - int2_x lo))
                        (int2_x lo) body st)) = true).
  { apply (for_range_invariant
             (fun st => zero_or_sign true (snd st) = true)); [exact Hst|].
    intros k [dIdx dI] HdI. simpl in *.
    apply add_same_sign; [exact HdI | apply self_term_nonpos]. }
  destruct (for_range _ _ body st) as [dIdx dI]. exact H.
Qed.

(** The distance of the patch at [p] from itself, before it is divided by
    the patch area, is zero or negative. *)
Lemma self_distance_nonpos (lo hi : int2) (dIdx0 : Z) :
  zero_or_sign true
    (snd (for_lt (int2_y lo) (int2_y hi)
            (fun _ st => patch_row E (nlm_p_idx E) lo hi st)
            (dIdx0, F32.zero))) = true.
Proof.
  unfold for_lt.
  apply (for_range_invariant (fun st => zero_or_sign true (snd st) = true)).
  - reflexivity.
  - intros k st Hst. apply self_row_nonpos. exact Hst.
Qed.

End SelfWeight.

(** For a pixel inside the rectangle the patch around it is not empty and
    its area is the product of its sides. *)
Lemma patch_area_positive (E : nlm_env) :
  patch_fits E ->
  0 < patch_area (low_dPatch E (nlm_x E) (nlm_y E))
                 (high_dPatch E (nlm_x E) (nlm_y E))
    <= Int32.max_signed.
Proof.
  intros (Hrect & Hin & Hf & Harea).
  destruct Hrect as (Rx & Ry & Rz & Rw & Ew & Eh).
  destruct Hin as [Hx Hy]. cbn [fst snd] in Hx, Hy.
  unfold Int32.in_range, Int32.min_signed, Int32.max_signed in *.
  assert (Hfb : nlm_f E <= 23170) by nia.
  unfold patch_area, low_dPatch, high_dPatch, max_i, min_i.
  cbn [int2_x int2_y].
  unfold Int32.sub, Int32.add, Int32.neg, Int32.mul.
  rewrite !(wrap_small (int4_x (nlm_rect E) - nlm_x E))
    by (unfold Int32.in_range, Int32.min_signed, Int32.max_signed; lia).
  rewrite !(wrap_small (int4_y (nlm_rect E) - nlm_y E))
    by (unfold Int32.in_range, Int32.min_signed, Int32.max_signed; lia).
  rewrite !(wrap_small (int4_z (nlm_rect E) - nlm_x E))
    by (unfold Int32.in_range, Int32.min_signed, Int32.max_signed; lia).
  rewrite !(wrap_small (int4_w (nlm_rect E) - nlm_y E))
    by (unfold Int32.in_range, Int32.min_signed, Int32.max_signed; lia).
  rewrite (wrap_small (- nlm_f E))
    by (unfold Int32.in_range, Int32.min_signed, Int32.max_signed; lia).
  rewrite (wrap_small (nlm_f E + 1))
    by (unfold Int32.in_range, Int32.min_signed, Int32.max_signed; lia).
  set (wd := Z.min (Z.min (int4_z (nlm_rect E) - nlm_x E)
                          (int4_z (nlm_rect E) - nlm_x E)) (nlm_f E + 1)
             - Z.max (Z.max (int4_x (nlm_rect E) - nlm_x E)
                            (int4_x (nlm_rect E) - nlm_x E)) (- nlm_f E)).
  set (ht := Z.min (Z.min (int4_w (nlm_rect E) - nlm_y E)
                          (int4_w (nlm_rect E) - nlm_y E)) (nlm_f E + 1)
             - Z.max (Z.max (int4_y (nlm_rect E) - nlm_y E)
                            (int4_y (nlm_rect E) - nlm_y E)) (- nlm_f E)).
  assert (Hwd : 1 <= wd <= 2 * nlm_f E + 1) by (unfold wd; lia).
  assert (Hht : 1 <= ht <= 2 * nlm_f E + 1) by (unfold ht; lia).
  rewrite (wrap_small wd)
    by (unfold Int32.in_range, Int32.min_signed, Int32.max_signed; lia).
  rewrite (wrap_small ht)
    by (unfold Int32.in_range, Int32.min_signed, Int32.max_signed; lia).
  assert (Hprod : 1 <= wd * ht <= 2 ^ 31 - 1) by nia.
  rewrite wrap_small
    by (unfold Int32.in_range, Int32.min_signed, Int32.max_signed; lia).
  lia.
Qed.

(** The clamp [max(0.0f, dI)] of a zero or negative [dI] is a zero. *)
Lemma clamp_nonpos (d : float) :
  zero_or_sign true d = true -> F32.is_zero (max_f F32.zero d) = true.
Proof.
  destruct d as [[]|[]| |[] m e]; try discriminate; reflexivity.
Qed.

(** C2, refuted as stated.  With [a = -1] and variance 1 on the uniform 4x4
    image, the distance of the patch at (1,1) from itself is 1, the clamp
    [max(0, dI)] is 1 and not 0, and the weight is [fast_expf(-1.0f)]: a
    quarter for the coarse exponential, 0.37 for the true one, never 1.
    With a weight image of plus infinity, or with a variance whose double
    overflows, the distance is NaN and so is the argument of [fast_expf]. *)
Lemma nlm_self_weight_counterexample :
  distance_at negative_a_env (1, 1) = F32.one
  /\ max_f F32.zero (distance_at negative_a_env (1, 1)) = F32.one
  /\ F32.is_zero (max_f F32.zero (distance_at negative_a_env (1, 1))) = false
  /\ weight_at expf_coarse negative_a_env (1, 1) = pow2 (-2)
  /\ weight_at expf_coarse negative_a_env (1, 1) <> F32.one
  /\ max_f F32.zero (distance_at infinite_env (1, 1)) = S754_nan
  /\ max_f F32.zero (distance_at overflow_env (1, 1)) = S754_nan.
Proof.
  repeat split; try (vm_compute; reflexivity).
  vm_compute. discriminate.
Qed.

(** Whatever [fast_expf] is, the weight in that call is its value at
    [-1.0f]. *)
Lemma nlm_self_weight_negative_a (fast_expf : float -> float) :
  weight_at fast_expf negative_a_env (1, 1) = fast_expf (F32.opp F32.one).
Proof.
  unfold weight_at, nlm_weight. f_equal; vm_compute; reflexivity.
Qed.

(** C2, amended.  For a target pixel inside the rectangle, a patch
    half-size [f >= 0] whose area [(2f+1)^2] is an [int], a finite weight
    image, and finite non-negative variance, [a] and [k_2] for which
    neither [a * 2 variance] nor [k_2 * 2 variance] overflows, the
    candidate [q = p] is compared at the index [p_idx] itself, every
    summand of its distance is zero or negative, the clamp [max(0, dI)] is
    a zero, and the weight [wI] is exactly 1, as soon as [fast_expf] maps
    both zeros to 1. *)
Theorem nlm_self_weight_one (fast_expf : float -> float) (E : nlm_env) :
  (forall sgn, fast_expf (S754_zero sgn) = F32.one) ->
  clean_inputs E -> patch_fits E ->
  let p := (nlm_x E, nlm_y E) in
  q_index E p = nlm_p_idx E
  /\ (forall dIdx,
        zero_or_sign true (patch_term E (nlm_p_idx E) dIdx) = true)
  /\ F32.is_zero (max_f F32.zero (distance_at E p)) = true
  /\ weight_at fast_expf E p = F32.one.
Proof.
  intros Hexp Hclean Hfits p.
  split; [reflexivity|].
  split; [intros dIdx; apply self_term_nonpos; exact Hclean|].
  assert (Hd : zero_or_sign true (distance_at E p) = true).
  { unfold distance_at, patch_distance, p. cbn [fst snd]. cbv zeta.
    change (q_index E (nlm_x E, nlm_y E)) with (nlm_p_idx E).
    pose proof (self_distance_nonpos E Hclean
                  (low_dPatch E (nlm_x E) (nlm_y E))
                  (high_dPatch E (nlm_x E) (nlm_y E))
                  (Int32.add (int2_x (low_dPatch E (nlm_x E) (nlm_y E)))
                     (Int32.mul (int2_y (low_dPatch E (nlm_x E) (nlm_y E)))
                        (nlm_w E)))) as HdI.
    destruct (for_lt _ _ _ _) as [dIdx dI]. cbn [snd] in HdI.
    apply mul_by_positive; [exact HdI|].
    apply recip_area_positive. apply patch_area_positive. exact Hfits. }
  pose proof (clamp_nonpos _ Hd) as Hz.
  split; [exact Hz|].
  unfold weight_at, nlm_weight.
  change (patch_distance E (fst p) (snd p) (q_index E p))
    with (distance_at E p).
  destruct (max_f F32.zero (distance_at E p)) as [sgn|sgn| |sgn m e];
    try discriminate.
  apply Hexp.
Qed.

Lemma nlm_self_weight_one_witness :
  (forall sgn, expf_coarse (S754_zero sgn) = F32.one)
  /\ clean_inputs noisy_env /\ patch_fits noisy_env
  /\ weight_at expf_coarse noisy_env (1, 1) = F32.one.
Proof.
  assert (Hexp : forall sgn, expf_coarse (S754_zero sgn) = F32.one)
    by reflexivity.
  assert (Hclean : clean_inputs noisy_env).
  { repeat split; reflexivity. }
  assert (Hfits : patch_fits noisy_env).
  { unfold patch_fits, rect_fits, in_rect, Int32.in_range, Int32.min_signed,
      Int32.max_signed; simpl. lia. }
  split; [exact Hexp|]. split; [exact Hclean|]. split; [exact Hfits|].
  exact (proj2 (proj2 (proj2
           (nlm_self_weight_one expf_coarse noisy_env Hexp Hclean Hfits)))).
Defined.

(** ** The coarse exponential is a model of [fast_expf] *)

Lemma pow2_unit (k : Z) : 0 <= k <= 126 -> unit_weight (pow2 (- k)) = true.
Proof.
  intros Hk. unfold unit_weight, pow2, positive_finite.
  apply andb_true_intro. split.
  - apply Z.leb_le. unfold emin, SpecFloat.emin, F32.emax, F32.prec. lia.
  - unfold F32.leb, SFleb, F32.one, SFcompare.
    destruct (Z.compare_spec (- k - 23) (-23)) as [H|H|H]; try reflexivity.
    lia.
Qed.

Lemma expf_coarse_like : exp_like expf_coarse.
Proof.
  split.
  - reflexivity.
  - intros x Hx. destruct x as [sx|[]| |[] m e]; try discriminate.
    + reflexivity.
    + apply (pow2_unit 126). lia.
    + unfold expf_coarse. apply pow2_unit.
      assert (0 <= Z.shiftl (3 * Z.pos m) (e - 1))
        by (apply Z.shiftl_nonneg; lia).
      lia.
Qed.

(** ** [kernel_filter_non_local_means]: the sum of the weights *)

Lemma unit_weight_positive (w : float) :
  unit_weight w = true -> positive_finite w = true.
Proof. unfold unit_weight. intros H. apply andb_prop in H. tauto. Qed.

(** The clamped and negated distance is zero or negative unless the
    distance is NaN. *)
Lemma clamp_opp_nonpos (d : float) :
  F32.is_nan d = false -> nonpos (F32.opp (max_f F32.zero d)) = true.
Proof. destruct d as [[]|[]| |[] m e]; try discriminate; reflexivity. Qed.

(** Under the description of [fast_expf] in the spec every weight whose
    distance is not NaN lies in (0,1]. *)
Lemma weight_in_unit (fast_expf : float -> float) (E : nlm_env) (q : Z * Z) :
  exp_like fast_expf -> F32.is_nan (distance_at E q) = false ->
  unit_weight (weight_at fast_expf E q) = true.
Proof.
  intros Hexp Hd. unfold weight_at, nlm_weight.
  apply (exp_unit _ Hexp). apply clamp_opp_nonpos. exact Hd.
Qed.

(** A sum of positive finite floats over a non-empty list is positive. *)
Lemma sum_positive {A : Type} (w : A -> float) (l : list A) (acc : float) :
  (forall q, In q l -> positive_finite (w q) = true) ->
  F32.is_zero acc || strictly_positive acc = true ->
  l <> [] ->
  strictly_positive (fold_left (fun sw q => F32.add sw (w q)) l acc) = true.
Proof.
  revert acc. induction l as [|q l IH]; intros acc Hw Hacc Hne;
    [contradiction|].
  cbn [fold_left].
  assert (Hs : strictly_positive (F32.add acc (w q)) = true)
    by (apply add_strictly_positive; [exact Hacc | apply Hw; now left]).
  destruct l as [|q' l'].
  - exact Hs.
  - apply IH.
    + intros q0 Hq0. apply Hw. now right.
    + rewrite Hs. apply Bool.orb_true_r.
    + discriminate.
Qed.

Lemma strictly_positive_gt_zero (x : float) :
  strictly_positive x = true ->
  F32.ltb F32.zero x = true /\ F32.is_zero x = false
  /\ F32.is_nan x = false.
Proof.
  destruct x as [[]|[]| |[] m e]; try discriminate; repeat split.
Qed.

(** Without overflow in its bounds the search window contains the target
    pixel. *)
Lemma window_contains_target (E : nlm_env) :
  window_fits E -> In (nlm_x E, nlm_y E) (nlm_window E).
Proof.
  intros ([Hx Hy] & Hr & Rx1 & Rx2 & Ry1 & Ry2).
  cbn [fst snd] in Hx, Hy.
  apply nlm_window_In. cbn [fst snd].
  unfold nlm_low, nlm_high, max_i, min_i. cbn [int2_x int2_y].
  unfold Int32.sub, Int32.add.
  unfold Int32.in_range, Int32.min_signed, Int32.max_signed in *.
  rewrite (wrap_small (nlm_x E - nlm_r E))
    by (unfold Int32.in_range, Int32.min_signed, Int32.max_signed; lia).
  rewrite (wrap_small (nlm_y E - nlm_r E))
    by (unfold Int32.in_range, Int32.min_signed, Int32.max_signed; lia).
  rewrite (wrap_small (nlm_x E + nlm_r E))
    by (unfold Int32.in_range, Int32.min_signed, Int32.max_signed; lia).
  rewrite (wrap_small (nlm_y E + nlm_r E))
    by (unfold Int32.in_range, Int32.min_signed, Int32.max_signed; lia).
  rewrite (wrap_small (nlm_x E + nlm_r E + 1))
    by (unfold Int32.in_range, Int32.min_signed, Int32.max_signed; lia).
  rewrite (wrap_small (nlm_y E + nlm_r E + 1))
    by (unfold Int32.in_range, Int32.min_signed, Int32.max_signed; lia).
  lia.
Qed.

(** C3, refuted as stated.  With [r = 2147483647] at pixel (0,0) of the
    4x4 rectangle, [x + r + 1] wraps around to [-2147483648], the window is
    empty, [sum_weight] is 0 and the kernel computes 0/0.  And with a
    weight image of NaN the window of pixel (1,1) has nine candidates but
    [sum_weight] is NaN, not a positive float. *)
Lemma nlm_sum_weight_counterexample :
  in_rect (nlm_rect huge_r_env) (nlm_x huge_r_env, nlm_y huge_r_env)
  /\ 0 <= nlm_r huge_r_env
  /\ int2_x (nlm_high huge_r_env) = -2147483648
  /\ nlm_window huge_r_env = []
  /\ snd (nlm_sums expf_coarse huge_r_env) = F32.zero
  /\ nlm_result expf_coarse huge_r_env = S754_nan
  /\ length (nlm_window nan_env) = 9%nat
  /\ snd (nlm_sums expf_coarse nan_env) = S754_nan
  /\ F32.ltb F32.zero (snd (nlm_sums expf_coarse nan_env)) = false.
Proof.
  split; [unfold in_rect; simpl; lia|].
  split; [simpl; lia|].
  repeat split; vm_compute; reflexivity.
Qed.

(** C3, amended.  For a target pixel inside the rectangle and [r >= 0] such
    that [x - r], [x + r + 1], [y - r] and [y + r + 1] are [int]s, the
    search window is not empty and contains [p] itself, so the weight of
    [p] is one of the summands of [sum_weight].  If moreover every weight
    of the window is a positive finite float, which is the case when no
    distance [dI] is NaN and [fast_expf] maps non-positive arguments into
    (0,1], then [sum_weight > 0]: the final division is not a division by
    zero. *)
Theorem nlm_sum_weight_positive (fast_expf : float -> float) (E : nlm_env) :
  window_fits E ->
  In (nlm_x E, nlm_y E) (nlm_window E)
  /\ nlm_window E <> []
  /\ snd (nlm_sums fast_expf E)
     = fold_left (fun sw q => F32.add sw (weight_at fast_expf E q))
         (nlm_window E) F32.zero
  /\ ((forall q, In q (nlm_window E) ->
                 positive_finite (weight_at fast_expf E q) = true) ->
      F32.ltb F32.zero (snd (nlm_sums fast_expf E)) = true
      /\ F32.is_zero (snd (nlm_sums fast_expf E)) = false
      /\ F32.is_nan (snd (nlm_sums fast_expf E)) = false)
  /\ (exp_like fast_expf ->
      (forall q, In q (nlm_window E) ->
                 F32.is_nan (distance_at E q) = false) ->
      forall q, In q (nlm_window E) ->
                positive_finite (weight_at fast_expf E q) = true).
Proof.
  intros Hfits.
  pose proof (window_contains_target E Hfits) as Hin.
  assert (Hne : nlm_window E <> [])
    by (intros K; rewrite K in Hin; contradiction).
  split; [exact Hin|]. split; [exact Hne|].
  split; [apply sum_weight_fold|].
  split.
  - intros Hw. rewrite sum_weight_fold.
    apply strictly_positive_gt_zero.
    apply sum_positive; [exact Hw | reflexivity | exact Hne].
  - intros Hexp Hd q Hq. apply unit_weight_positive.
    apply weight_in_unit; [exact Hexp | apply Hd; exact Hq].
Qed.

Lemma nlm_sum_weight_positive_witness :
  window_fits uniform_env
  /\ In (1, 1) (nlm_window uniform_env)
  /\ F32.ltb F32.zero (snd (nlm_sums expf_coarse uniform_env)) = true.
Proof.
  assert (Hfits : window_fits uniform_env).
  { unfold window_fits, in_rect, Int32.in_range, Int32.min_signed,
      Int32.max_signed; simpl. lia. }
  split; [exact Hfits|].
  pose proof (nlm_sum_weight_positive expf_coarse uniform_env Hfits)
    as (Hin & _ & _ & Hpos & Hw).
  split; [exact Hin|].
  apply Hpos. apply Hw; [exact expf_coarse_like|].
  intros q Hq.
  assert (Hall : forallb (fun q => negb (F32.is_nan (distance_at uniform_env q)))
                   (nlm_window uniform_env) = true)
    by (vm_compute; reflexivity).
  rewrite forallb_forall in Hall. specialize (Hall q Hq).
  now destruct (F32.is_nan (distance_at uniform_env q)).
Defined.

(** ** [kernel_filter_non_local_means]: the output as a weighted mean *)

(** C10, refuted as stated.  On the uniform 4x4 image of value
    [1 + 2^-22], with variance 0 and [r = f = 1], [a = k_2 = 1], the nine
    candidates of pixel (1,1) all have weight 1 and the value [1 + 2^-22],
    yet the kernel stores [1 + 2^-23]: the sum of the nine products is
    rounded, and so is the quotient.  The output lies below the minimum of
    [noisyImage] over the window. *)
Lemma nlm_convex_counterexample :
  forallb (fun q => F32.same (nlm_noisyImage ulp_env (q_index ulp_env q))
                      one_plus_2ulp
                    && F32.same (weight_at expf_coarse ulp_env q) F32.one)
          (nlm_window ulp_env) = true
  /\ length (nlm_window ulp_env) = 9%nat
  /\ nlm_result expf_coarse ulp_env = one_plus_1ulp
  /\ load (kernel_filter_non_local_means expf_coarse 1 1 Image4x4.noisyImage
             Image4x4.weightImage Image4x4.variance Image4x4.filteredImage
             Image4x4.rect 1 1 F32.one F32.one
             (Image4x4.uniform one_plus_2ulp F32.zero))
       Image4x4.filteredImage 5
     = one_plus_1ulp
  /\ F32.ltb one_plus_1ulp one_plus_2ulp = true.
Proof. repeat split; vm_compute; reflexivity. Qed.

(** The same output for every [fast_expf] that maps [-0.0f] to 1. *)
Lemma nlm_uniform_rounding (fast_expf : float -> float) :
  fast_expf (S754_zero true) = F32.one ->
  nlm_result fast_expf ulp_env = one_plus_1ulp.
Proof.
  intros Hexp.
  assert (He : forall v, fast_expf v
                         = if F32.same v (S754_zero true) then F32.one
                           else fast_expf v).
  { intros v. destruct v as [[]|[]| |[] m e]; simpl; auto. }
  unfold ulp_env, Image4x4.env.
  rewrite (nlm_result_ext fast_expf _ 1 1 _ _ _ _ _ _ Image4x4.rect 1 1
             F32.one F32.one He (fun i => eq_refl) (fun i => eq_refl)
             (fun i => eq_refl)).
  vm_compute. reflexivity.
Qed.

(** C10, amended.  The output [filteredImage[p_idx]] is the binary32
    quotient [sum_image / sum_weight] of the two sums, taken in row-major
    order over the clipped search window and over nothing else, of
    [wI * noisyImage[q]] and of [wI]; every candidate lies in the
    rectangle, and every weight whose distance [dI] is not NaN lies in
    (0,1] when [fast_expf] maps non-positive arguments into (0,1].  Each
    product, each sum and the quotient are rounded: the output is a convex
    combination of the window values up to rounding only. *)
Theorem nlm_weighted_mean
    (fast_expf : float -> float) (x y : Z)
    (noisyImage weightImage variance filteredImage : ptr)
    (rect : int4) (r f : Z) (a k_2 : float) (s : state) :
  let E := Nlm_env x y (load s noisyImage) (load s weightImage)
             (load s variance) rect r f a k_2 in
  let s' := kernel_filter_non_local_means fast_expf x y noisyImage
              weightImage variance filteredImage rect r f a k_2 s in
  let sums := fold_left (accumulate fast_expf E) (nlm_window E)
                (F32.zero, F32.zero) in
  load s' filteredImage (pixel_index x y rect)
  = F32.div (fst sums) (snd sums)
  /\ appended s s'
     = [Ev (blk filteredImage) (ofs filteredImage + pixel_index x y rect)
          (F32.div (fst sums) (snd sums))]
  /\ (forall q, In q (nlm_window E) -> in_rect rect q)
  /\ (exp_like fast_expf ->
      forall q, In q (nlm_window E) ->
                F32.is_nan (distance_at E q) = false ->
                unit_weight (weight_at fast_expf E q) = true).
Proof.
  intros E s' sums.
  assert (Hres : nlm_result fast_expf E = F32.div (fst sums) (snd sums)).
  { unfold nlm_result. rewrite nlm_sums_fold. reflexivity. }
  split.
  { unfold s', kernel_filter_non_local_means; cbv zeta. fold E.
    rewrite load_store_same. exact Hres. }
  split.
  { apply appended_app.
    unfold s', kernel_filter_non_local_means; cbv zeta. fold E.
    rewrite trace_store, Hres. reflexivity. }
  split; [intros q Hq; apply (nlm_window_in_rect E q Hq)|].
  intros Hexp q _ Hd. apply weight_in_unit; assumption.
Qed.

Lemma nlm_weighted_mean_witness :
  exp_like expf_coarse
  /\ In (2, 1) (nlm_window noisy_env)
  /\ F32.is_nan (distance_at noisy_env (2, 1)) = false
  /\ unit_weight (weight_at expf_coarse noisy_env (2, 1)) = true.
Proof.
  assert (Hin : In (2, 1) (nlm_window noisy_env))
    by (vm_compute; tauto).
  assert (Hd : F32.is_nan (distance_at noisy_env (2, 1)) = false)
    by (vm_compute; reflexivity).
  split; [exact expf_coarse_like|]. split; [exact Hin|].
  split; [exact Hd|].
  exact (proj2 (proj2 (proj2
           (nlm_weighted_mean expf_coarse 1 1 Image4x4.noisyImage
              Image4x4.weightImage Image4x4.variance Image4x4.filteredImage
              Image4x4.rect 1 1 F32.one F32.one
              (Image4x4.uniform five F32.one))))
           expf_coarse_like (2, 1) Hin Hd).
Defined.

(** * Further properties of the kernels *)

(** ** Addressing: the tile of a pixel and its index in the buffers *)

Lemma tile_band_cases (c : Z) (bounds : int_array) :
  (c < bounds 1 /\ tile_band c bounds = 0)
  \/ (bounds 1 <= c < bounds 2 /\ tile_band c bounds = 1)
  \/ (bounds 1 <= c /\ bounds 2 <= c /\ tile_band c bounds = 2).
Proof.
  unfold tile_band.
  destruct (Z.ltb_spec c (bounds 1)); [left; split; [lia | reflexivity]|].
  destruct (Z.ltb_spec c (bounds 2)); right; [left | right]; repeat split; lia.
Qed.

Lemma tile_index_value (x y : Z) (tile_x tile_y : int_array) :
  tile_index x y tile_x tile_y = 3 * tile_band y tile_y + tile_band x tile_x.
Proof.
  unfold tile_index.
  destruct (tile_band_cases x tile_x) as [[_ Hx]|[[_ Hx]|(_ & _ & Hx)]];
    destruct (tile_band_cases y tile_y) as [[_ Hy]|[[_ Hy]|(_ & _ & Hy)]];
    rewrite Hx, Hy; reflexivity.
Qed.

(** X1. The tile number [ytile*3 + xtile] both pass kernels index
    [buffers], [offset] and [stride] with is one of 0..8, whatever the pixel
    and the tile bounds are: the nine-element arrays are never indexed out
    of range, and the [int] expression does not wrap around. *)
Theorem tile_index_in_bounds (x y : Z) (tile_x tile_y : int_array) :
  0 <= tile_index x y tile_x tile_y <= 8
  /\ tile_index x y tile_x tile_y
     = 3 * tile_band y tile_y + tile_band x tile_x
  /\ 0 <= tile_band x tile_x <= 2 /\ 0 <= tile_band y tile_y <= 2.
Proof.
  rewrite tile_index_value.
  destruct (tile_band_cases x tile_x) as [[_ Hx]|[[_ Hx]|(_ & _ & Hx)]];
    destruct (tile_band_cases y tile_y) as [[_ Hy]|[[_ Hy]|(_ & _ & Hy)]];
    rewrite Hx, Hy; lia.
Qed.

(** X2. The pixel record is read from the centre tile, number 4, exactly
    when the pixel lies in the current tile on both axes:
    [tile_x[1] <= x < tile_x[2]] and [tile_y[1] <= y < tile_y[2]]. *)
Theorem tile_index_center (x y : Z) (tile_x tile_y : int_array) :
  tile_index x y tile_x tile_y = 4
  <-> (tile_x 1 <= x < tile_x 2 /\ tile_y 1 <= y < tile_y 2).
Proof.
  rewrite tile_index_value.
  destruct (tile_band_cases x tile_x) as [[Bx Hx]|[[Bx Hx]|(Bx & Bx' & Hx)]];
    destruct (tile_band_cases y tile_y) as [[By Hy]|[[By Hy]|(By & By' & Hy)]];
    rewrite Hx, Hy; lia.
Qed.

(** The layout of a buffer over a rectangle whose padded size is an [int]:
    the padded width is a multiple of four between the width and the width
    plus three, and the index expressions do not wrap around. *)
Lemma rect_layout (rect : int4) :
  rect_fits rect ->
  (int4_w rect - int4_y rect) * (int4_z rect - int4_x rect + 3)
    <= Int32.max_signed ->
  int4_x rect < int4_z rect -> int4_y rect < int4_w rect ->
  int4_z rect - int4_x rect <= buffer_w rect <= int4_z rect - int4_x rect + 3
  /\ buffer_w rect mod 4 = 0
  /\ shadow_Bofs rect = (int4_w rect - int4_y rect) * buffer_w rect
  /\ forall x y, in_rect rect (x, y) ->
       pixel_index x y rect
       = (y - int4_y rect) * buffer_w rect + (x - int4_x rect).
Proof.
  intros (Rx & Ry & Rz & Rw & Ew & Eh) Hsize Hxz Hyw.
  unfold Int32.in_range, Int32.min_signed, Int32.max_signed in *.
  set (wd := int4_z rect - int4_x rect) in *.
  set (ht := int4_w rect - int4_y rect) in *.
  assert (Hwd3 : wd + 3 <= 2 ^ 31 - 1) by nia.
  assert (Hal : buffer_w rect = 4 * ((wd + 3) / 4)
                /\ wd <= buffer_w rect <= wd + 3).
  { unfold buffer_w, Int32.sub. fold wd.
    rewrite (wrap_small wd)
      by (unfold Int32.in_range, Int32.min_signed, Int32.max_signed; lia).
    apply align_up_4_spec.
    unfold Int32.min_signed, Int32.max_signed. lia. }
  destruct Hal as [Hal Hw].
  split; [exact Hw|].
  split.
  { rewrite Hal, Z.mul_comm. apply Z.mod_mul. lia. }
  set (w := buffer_w rect) in *.
  split.
  { unfold shadow_Bofs, Int32.mul, Int32.sub. fold w ht.
    rewrite (wrap_small ht)
      by (unfold Int32.in_range, Int32.min_signed, Int32.max_signed; lia).
    apply wrap_small.
    unfold Int32.in_range, Int32.min_signed, Int32.max_signed. nia. }
  intros x y [Hx Hy]. cbn [fst snd] in Hx, Hy.
  unfold pixel_index, Int32.add, Int32.mul, Int32.sub. fold w.
  rewrite (wrap_small (y - int4_y rect))
    by (unfold Int32.in_range, Int32.min_signed, Int32.max_signed; lia).
  rewrite (wrap_small (x - int4_x rect))
    by (unfold Int32.in_range, Int32.min_signed, Int32.max_signed; lia).
  rewrite (wrap_small ((y - int4_y rect) * w))
    by (unfold Int32.in_range, Int32.min_signed, Int32.max_signed; nia).
  apply wrap_small.
  unfold Int32.in_range, Int32.min_signed, Int32.max_signed. nia.
Qed.

(** X3. In a rectangle whose padded size [height * (width + 3)] is an [int],
    the index [(y-rect.y)*buffer_w + (x-rect.x)] of a pixel of the rectangle
    lies inside the buffer of [height * buffer_w] cells, and two pixels of
    the rectangle with the same index are the same pixel: the calls for two
    different pixels never store to the same cell of an output buffer. *)
Theorem pixel_index_injective (rect : int4) (x1 y1 x2 y2 : Z) :
  rect_fits rect ->
  (int4_w rect - int4_y rect) * (int4_z rect - int4_x rect + 3)
    <= Int32.max_signed ->
  in_rect rect (x1, y1) -> in_rect rect (x2, y2) ->
  0 <= pixel_index x1 y1 rect < shadow_Bofs rect
  /\ (pixel_index x1 y1 rect = pixel_index x2 y2 rect ->
      x1 = x2 /\ y1 = y2).
Proof.
  intros Hfit Hsize H1 H2.
  assert (Hxz : int4_x rect < int4_z rect)
    by (destruct H1 as [H1 _]; cbn [fst] in H1; lia).
  assert (Hyw : int4_y rect < int4_w rect)
    by (destruct H1 as [_ H1]; cbn [snd] in H1; lia).
  destruct (rect_layout rect Hfit Hsize Hxz Hyw) as (Hw & _ & HB & HI).
  rewrite HB, (HI x1 y1 H1), (HI x2 y2 H2).
  destruct H1 as [Hx1 Hy1], H2 as [Hx2 Hy2]. cbn [fst snd] in *.
  set (w := buffer_w rect) in *.
  split; [nia|].
  intros Heq.
  assert (Hy : y1 = y2) by nia.
  subst y2. split; [lia | reflexivity].
Qed.

Lemma pixel_index_injective_witness :
  rect_fits Tile4x4.rect
  /\ in_rect Tile4x4.rect (1, 2) /\ in_rect Tile4x4.rect (3, 0)
  /\ 0 <= pixel_index 1 2 Tile4x4.rect < shadow_Bofs Tile4x4.rect.
Proof.
  assert (Hfit : rect_fits Tile4x4.rect)
    by (unfold rect_fits, Int32.in_range; vm_compute;
        intuition discriminate).
  assert (H1 : in_rect Tile4x4.rect (1, 2))
    by (unfold in_rect; simpl; lia).
  assert (H2 : in_rect Tile4x4.rect (3, 0))
    by (unfold in_rect; simpl; lia).
  split; [exact Hfit|]. split; [exact H1|]. split; [exact H2|].
  refine (proj1 (pixel_index_injective Tile4x4.rect 1 2 3 0 Hfit _ H1 H2)).
  vm_compute; discriminate.
Defined.

(** ** The sign of the buffer variances *)

(** The half square [0.5f * d * d] is NaN, a zero or positive, whatever the
    float [d] is. *)
Lemma half_square_signed (d : float) :
  F32.is_nan (F32.half * d * d)%f32 || signed false (F32.half * d * d)%f32
  = true.
Proof.
  destruct d as [s|s| |s m e]; try (destruct s; reflexivity);
    try reflexivity.
  pose proof (mul_finite_sign false s F32.half (S754_finite s m e)
                eq_refl) as Hh.
  assert (Hs : signed s (S754_finite s m e) = true)
    by (simpl; apply Bool.eqb_reflx).
  specialize (Hh Hs eq_refl eq_refl).
  change (xorb false s) with s in Hh.
  destruct (F32.half * S754_finite s m e)%f32 as [t|t| |t m' e'] eqn:Eh.
  - destruct t, s; reflexivity.
  - simpl in Hh. apply Bool.eqb_prop in Hh. subst t. destruct s; reflexivity.
  - discriminate Hh.
  - simpl in Hh. apply andb_prop in Hh. destruct Hh as [Ht _].
    apply Bool.eqb_prop in Ht. subst t.
    pose proof (mul_finite_sign s s (S754_finite s m' e') (S754_finite s m e))
      as Hr.
    assert (Hs' : signed s (S754_finite s m' e') = true)
      by (simpl; apply Bool.eqb_reflx).
    specialize (Hr Hs' Hs eq_refl eq_refl).
    rewrite Bool.xorb_nilpotent in Hr.
    destruct (S754_finite s m' e' * S754_finite s m e)%f32 as [u|u| |u m2 e2];
      simpl in Hr |- *; try reflexivity; try discriminate Hr.
    + exact Hr.
    + apply andb_prop in Hr. tauto.
Qed.

(** A float that is NaN, a zero or positive is not below zero. *)
Lemma signed_not_below_zero (r : float) :
  F32.is_nan r || signed false r = true -> F32.ltb r F32.zero = false.
Proof.
  destruct r as [[]|[]| |[] m e]; simpl; intros H;
    try discriminate H; reflexivity.
Qed.

(** A product with a positive finite factor keeps that. *)
Lemma signed_mul_positive (r vf : float) :
  F32.is_nan r || signed false r = true -> positive_finite vf = true ->
  F32.is_nan (r * vf)%f32 || signed false (r * vf)%f32 = true.
Proof.
  intros Hr Hvf.
  destruct vf as [|[]| |[] mv ev]; try discriminate Hvf.
  destruct r as [[]|[]| |[] m e]; try discriminate Hr; try reflexivity.
  pose proof (mul_finite_sign false false (S754_finite false m e)
                (S754_finite false mv ev) eq_refl eq_refl eq_refl eq_refl)
    as H.
  change (xorb false false) with false in H.
  destruct (S754_finite false m e * S754_finite false mv ev)%f32
    as [u|u| |u m2 e2]; simpl in H |- *; try reflexivity;
    try discriminate H; try exact H.
  apply andb_prop in H. tauto.
Qed.

(** X4. The buffer variance [0.5f*(a[idx]-b[idx])*(a[idx]-b[idx])] that
    [kernel_filter_combine_halves] stores is never below zero: it is NaN,
    a zero or a positive float (plus infinity included), for all contents
    of the two half buffers, also when the mean was written over one of
    them just before. *)
Theorem combine_halves_variance_nonneg
    (x y : Z) (mean : option ptr) (variance a b : ptr) (rect : int4)
    (s : state) :
  let idx := pixel_index x y rect in
  let s' := kernel_filter_combine_halves x y mean (Some variance) a b rect s in
  F32.ltb (load s' variance idx) F32.zero = false
  /\ F32.is_nan (load s' variance idx) || signed false (load s' variance idx)
     = true.
Proof.
  cbv zeta. unfold kernel_filter_combine_halves.
  rewrite load_store_same.
  split; [apply signed_not_below_zero|]; apply half_square_signed.
Qed.

(** X5. Of what [kernel_filter_divide_shadow] stores, the buffer variance
    [bufferVariance[idx]] is never below zero, for every memory, pixel and
    sample count; and for [2 <= sample <= 46341], where [varFac] is a
    positive finite float, neither is the variance of the sample variance
    [sampleVarianceV[idx]] when it has a block of its own among the
    outputs. *)
Theorem divide_shadow_variance_nonneg
    (kg : KernelGlobals) (sample : Z) (buffers : Z -> ptr) (x y : Z)
    (tile_x tile_y offset stride : int_array)
    (unfiltered sampleVariance sampleVarianceV bufferVariance : ptr)
    (rect : int4) (s : state) :
  let idx := pixel_index x y rect in
  let s' := kernel_filter_divide_shadow kg sample buffers x y tile_x tile_y
              offset stride unfiltered sampleVariance sampleVarianceV
              bufferVariance rect s in
  F32.ltb (load s' bufferVariance idx) F32.zero = false
  /\ (2 <= sample <= 46341 ->
      blk bufferVariance <> blk sampleVarianceV ->
      F32.ltb (load s' sampleVarianceV idx) F32.zero = false).
Proof.
  cbv zeta. unfold kernel_filter_divide_shadow.
  split.
  - rewrite load_store_same.
    apply signed_not_below_zero, half_square_signed.
  - intros Hsample Hblk.
    rewrite load_store_block by (intros H; apply Hblk; symmetry; exact H).
    rewrite load_store_same.
    apply signed_not_below_zero, signed_mul_positive.
    + apply half_square_signed.
    + unfold varFac.
      destruct (sample_product_exact sample Hsample) as [Hp Hpos].
      rewrite Hp. apply recip_area_positive.
      unfold Int32.max_signed. nia.
Qed.

Lemma divide_shadow_variance_nonneg_witness :
  2 <= 4 <= 46341
  /\ F32.ltb (load (Tile4x4.divide_shadow 4 1 1) Tile4x4.sampleVarianceV 5)
       F32.zero = false.
Proof.
  split; [lia|].
  refine (proj2 (divide_shadow_variance_nonneg Tile4x4.kg 4 Tile4x4.buffers
                   1 1 Tile4x4.tile_bounds Tile4x4.tile_bounds Tile4x4.offset
                   Tile4x4.stride Tile4x4.unfiltered Tile4x4.sampleVariance
                   Tile4x4.sampleVarianceV Tile4x4.bufferVariance Tile4x4.rect
                   Tile4x4.mem) _ _).
  - lia.
  - discriminate.
Defined.

(** ** Fewer than two samples *)

(** A quotient by [+0] and a product with plus infinity are not finite. *)
Lemma div_zero_not_finite (c : float) :
  F32.is_finite (c / F32.of_int 0)%f32 = false.
Proof. destruct c as [[]|[]| |[] m e]; reflexivity. Qed.

Lemma mul_infinity_not_finite (c : float) :
  F32.is_finite (c * S754_infinity false)%f32 = false.
Proof. destruct c as [[]|[]| |[] m e]; reflexivity. Qed.

(** X6. With a sample count of 0 or 1 the divisor [sample * (sample-1)] of
    [kernel_filter_get_feature] is 0, and the variance it stores is the
    quotient of the variance channel by [+0]: an infinity or NaN, never a
    finite float, whatever the pass holds. *)
Theorem get_feature_single_sample
    (kg : KernelGlobals) (sample : Z) (buffers : Z -> ptr)
    (m_offset v_offset x y : Z) (tile_x tile_y offset stride : int_array)
    (mean variance : ptr) (rect : int4) (s : state) :
  let idx := pixel_index x y rect in
  let s' := kernel_filter_get_feature kg sample buffers m_offset v_offset
              x y tile_x tile_y offset stride mean variance rect s in
  sample = 0 \/ sample = 1 ->
  Int32.mul sample (Int32.sub sample 1) = 0
  /\ F32.is_finite (load s' variance idx) = false.
Proof.
  cbv zeta. intros Hs.
  assert (H0 : Int32.mul sample (Int32.sub sample 1) = 0)
    by (destruct Hs; subst sample; reflexivity).
  split; [exact H0|].
  unfold kernel_filter_get_feature.
  rewrite load_store_same, H0.
  apply div_zero_not_finite.
Qed.

Lemma get_feature_single_sample_witness :
  (1 = 0 \/ 1 = 1)
  /\ F32.is_finite (load (Tile4x4.get_feature 1 3 4 1 1) (Ptr 3%positive 0) 5)
     = false.
Proof.
  split; [right; reflexivity|].
  refine (proj2 (get_feature_single_sample Tile4x4.kg 1 Tile4x4.buffers 3 4
                   1 1 Tile4x4.tile_bounds Tile4x4.tile_bounds Tile4x4.offset
                   Tile4x4.stride (Ptr 2%positive 0) (Ptr 3%positive 0)
                   Tile4x4.rect Tile4x4.mem _)).
  right; reflexivity.
Defined.

(** X7. With a sample count of 0 or 1 the factor [varFac] of
    [kernel_filter_divide_shadow] is [1.0f / 0], plus infinity, and the
    sample variance it stores is not a finite float, whatever the pass
    holds; the output buffers being different allocations. *)
Theorem divide_shadow_single_sample
    (kg : KernelGlobals) (sample : Z) (buffers : Z -> ptr) (x y : Z)
    (tile_x tile_y offset stride : int_array)
    (unfiltered sampleVariance sampleVarianceV bufferVariance : ptr)
    (rect : int4) (s : state) :
  let idx := pixel_index x y rect in
  let s' := kernel_filter_divide_shadow kg sample buffers x y tile_x tile_y
              offset stride unfiltered sampleVariance sampleVarianceV
              bufferVariance rect s in
  sample = 0 \/ sample = 1 ->
  blk sampleVariance <> blk sampleVarianceV ->
  blk sampleVariance <> blk bufferVariance ->
  blk sampleVarianceV <> blk bufferVariance ->
  varFac sample = S754_infinity false
  /\ F32.is_finite (load s' sampleVariance idx) = false
  /\ F32.is_finite (load s' sampleVarianceV idx) = false.
Proof.
  cbv zeta. intros Hs H12 H13 H23.
  assert (Hv : varFac sample = S754_infinity false)
    by (destruct Hs; subst sample; reflexivity).
  split; [exact Hv|].
  unfold kernel_filter_divide_shadow. rewrite Hv.
  split.
  - rewrite !load_store_block by assumption.
    rewrite load_store_same. apply mul_infinity_not_finite.
  - rewrite load_store_block by assumption.
    rewrite load_store_same. apply mul_infinity_not_finite.
Qed.

Lemma divide_shadow_single_sample_witness :
  (1 = 0 \/ 1 = 1)
  /\ F32.is_finite (load (Tile4x4.divide_shadow 1 1 1) Tile4x4.sampleVariance 5)
     = false.
Proof.
  split; [right; reflexivity|].
  refine (proj1 (proj2 (divide_shadow_single_sample Tile4x4.kg 1
                   Tile4x4.buffers 1 1 Tile4x4.tile_bounds Tile4x4.tile_bounds
                   Tile4x4.offset Tile4x4.stride Tile4x4.unfiltered
                   Tile4x4.sampleVariance Tile4x4.sampleVarianceV
                   Tile4x4.bufferVariance Tile4x4.rect Tile4x4.mem
                   _ _ _ _))).
  - right; reflexivity.
  - discriminate.
  - discriminate.
  - discriminate.
Defined.

(** ** [kernel_filter_non_local_means]: the patches and the cells read *)

(** Two loops whose bodies agree on the states of an invariant compute the
    same, and the invariant holds at the end. *)
Lemma for_range_agree {S : Type} (P : Z -> S -> Prop) (n : nat) (i : Z)
      (b1 b2 : Z -> S -> S) (s : S) :
  P i s ->
  (forall k s, i <= k < i + Z.of_nat n -> P k s ->
               b1 k s = b2 k s /\ P (k + 1) (b1 k s)) ->
  for_range n i b1 s = for_range n i b2 s
  /\ P (i + Z.of_nat n) (for_range n i b1 s).
Proof.
  revert i s. induction n as [|n IH]; intros i s Hs Hb.
  - simpl. rewrite Z.add_0_r. split; [reflexivity | exact Hs].
  - cbn [for_range].
    destruct (Hb i s ltac:(lia) Hs) as [Heq HP].
    rewrite <- Heq.
    replace (i + Z.of_nat (Datatypes.S n)) with (i + 1 + Z.of_nat n) by lia.
    apply IH; [exact HP|].
    intros k s' Hk. apply Hb. lia.
Qed.

Lemma fold_left_agree {A B : Type} (g1 g2 : A -> B -> A) (l : list B)
      (acc : A) :
  (forall acc q, In q l -> g1 acc q = g2 acc q) ->
  fold_left g1 l acc = fold_left g2 l acc.
Proof.
  revert acc. induction l as [|q l IH]; intros acc H; simpl; [reflexivity|].
  rewrite H by (left; reflexivity).
  apply IH. intros acc' q' Hq. apply H. right. exact Hq.
Qed.

(** The index of a pixel of the rectangle is a cell of the buffer. *)
Lemma pixel_index_in_buffer (rect : int4) (u v : Z) :
  buffer_fits rect -> in_rect rect (u, v) ->
  0 <= pixel_index u v rect < shadow_Bofs rect.
Proof.
  intros [Hfit Hsize] Hin.
  assert (Hxz : int4_x rect < int4_z rect)
    by (destruct Hin as [H _]; cbn [fst] in H; lia).
  assert (Hyw : int4_y rect < int4_w rect)
    by (destruct Hin as [_ H]; cbn [snd] in H; lia).
  destruct (rect_layout rect Hfit Hsize Hxz Hyw) as (Hw & _ & HB & HI).
  rewrite HB, (HI u v Hin).
  destruct Hin as [Hu Hv]. cbn [fst snd] in *.
  set (w := buffer_w rect) in *. nia.
Qed.

(** The index of [p] moved by a patch offset is the index of the moved
    pixel. *)
Lemma pixel_index_offset (rect : int4) (u v dx dy : Z) :
  Int32.add (pixel_index u v rect) (patch_offset rect dx dy)
  = pixel_index (u + dx) (v + dy) rect.
Proof. unfold patch_offset. int_ring. Qed.

Lemma patch_offset_next (rect : int4) (dx dy : Z) :
  Int32.add (patch_offset rect dx dy) 1 = patch_offset rect (dx + 1) dy.
Proof. unfold patch_offset. int_ring. Qed.

Lemma patch_offset_next_row (rect : int4) (lx hx dy : Z) :
  Int32.add (patch_offset rect hx dy)
    (Int32.sub (buffer_w rect) (Int32.sub hx lx))
  = patch_offset rect lx (dy + 1).
Proof. unfold patch_offset. int_ring. Qed.

(** The bounds of the patch at a candidate of the rectangle, free of
    wrap-around. *)
Lemma patch_bounds (E : nlm_env) (qx qy : Z) :
  patch_fits E -> in_rect (nlm_rect E) (qx, qy) ->
  let rect := nlm_rect E in
  low_dPatch E qx qy
  = make_int2
      (Z.max (Z.max (int4_x rect - qx) (int4_x rect - nlm_x E)) (- nlm_f E))
      (Z.max (Z.max (int4_y rect - qy) (int4_y rect - nlm_y E)) (- nlm_f E))
  /\ high_dPatch E qx qy
     = make_int2
         (Z.min (Z.min (int4_z rect - qx) (int4_z rect - nlm_x E))
                (nlm_f E + 1))
         (Z.min (Z.min (int4_w rect - qy) (int4_w rect - nlm_y E))
                (nlm_f E + 1)).
Proof.
  intros (Hrect & Hin & Hf & Harea) [Hqx Hqy].
  destruct Hrect as (Rx & Ry & Rz & Rw & Ew & Eh).
  destruct Hin as [Hx Hy]. cbn [fst snd] in Hx, Hy, Hqx, Hqy.
  unfold Int32.in_range, Int32.min_signed, Int32.max_signed in *.
  assert (Hfb : nlm_f E <= 23170) by nia.
  cbv zeta.
  unfold low_dPatch, high_dPatch, max_i, min_i.
  unfold Int32.sub, Int32.add, Int32.neg.
  rewrite !(wrap_small (int4_x (nlm_rect E) - nlm_x E))
    by (unfold Int32.in_range, Int32.min_signed, Int32.max_signed; lia).
  rewrite !(wrap_small (int4_y (nlm_rect E) - nlm_y E))
    by (unfold Int32.in_range, Int32.min_signed, Int32.max_signed; lia).
  rewrite !(wrap_small (int4_z (nlm_rect E) - nlm_x E))
    by (unfold Int32.in_range, Int32.min_signed, Int32.max_signed; lia).
  rewrite !(wrap_small (int4_w (nlm_rect E) - nlm_y E))
    by (unfold Int32.in_range, Int32.min_signed, Int32.max_signed; lia).
  rewrite !(wrap_small (int4_x (nlm_rect E) - qx))
    by (unfold Int32.in_range, Int32.min_signed, Int32.max_signed; lia).
  rewrite !(wrap_small (int4_y (nlm_rect E) - qy))
    by (unfold Int32.in_range, Int32.min_signed, Int32.max_signed; lia).
  rewrite !(wrap_small (int4_z (nlm_rect E) - qx))
    by (unfold Int32.in_range, Int32.min_signed, Int32.max_signed; lia).
  rewrite !(wrap_small (int4_w (nlm_rect E) - qy))
    by (unfold Int32.in_range, Int32.min_signed, Int32.max_signed; lia).
  rewrite !(wrap_small (- nlm_f E))
    by (unfold Int32.in_range, Int32.min_signed, Int32.max_signed; lia).
  rewrite !(wrap_small (nlm_f E + 1))
    by (unfold Int32.in_range, Int32.min_signed, Int32.max_signed; lia).
  split; reflexivity.
Qed.

(** The clipped patch contains the offset (0,0). *)
Lemma patch_spans_origin (E : nlm_env) (qx qy : Z) :
  patch_fits E -> in_rect (nlm_rect E) (qx, qy) ->
  int2_x (low_dPatch E qx qy) <= 0 < int2_x (high_dPatch E qx qy)
  /\ int2_y (low_dPatch E qx qy) <= 0 < int2_y (high_dPatch E qx qy).
Proof.
  intros Hfit Hq.
  destruct (patch_bounds E qx qy Hfit Hq) as [Hlo Hhi].
  rewrite Hlo, Hhi.
  destruct Hfit as (Hrect & Hin & Hf & Harea).
  destruct Hin as [Hx Hy]. destruct Hq as [Hqx Hqy].
  cbn [fst snd] in Hx, Hy, Hqx, Hqy.
  cbn [int2_x int2_y]. lia.
Qed.

(** X8. For every candidate [q] of the rectangle, the target pixel being in
    it and the patch half-size [f >= 0] having an area [(2f+1)^2] that is
    an [int], the clipped patch contains the offset (0,0): its area, the
    [int] product the distance is divided by, lies between 1 and
    [(2f+1)^2], and [1.0f / area] is a positive finite float.  The
    normalisation of the distance never divides by zero. *)
Theorem nlm_patch_never_empty (E : nlm_env) (qx qy : Z) :
  patch_fits E -> in_rect (nlm_rect E) (qx, qy) ->
  let lo := low_dPatch E qx qy in
  let hi := high_dPatch E qx qy in
  (int2_x lo <= 0 < int2_x hi /\ int2_y lo <= 0 < int2_y hi)
  /\ 1 <= patch_area lo hi <= (2 * nlm_f E + 1) * (2 * nlm_f E + 1)
  /\ positive_finite (F32.div F32.one (F32.of_int (patch_area lo hi))) = true.
Proof.
  intros Hfit Hq. cbv zeta.
  destruct (patch_bounds E qx qy Hfit Hq) as [Hlo Hhi].
  rewrite Hlo, Hhi.
  destruct Hfit as (Hrect & Hin & Hf & Harea).
  destruct Hrect as (Rx & Ry & Rz & Rw & Ew & Eh).
  destruct Hin as [Hx Hy]. destruct Hq as [Hqx Hqy].
  cbn [fst snd] in Hx, Hy, Hqx, Hqy.
  unfold Int32.in_range, Int32.min_signed, Int32.max_signed in *.
  cbn [int2_x int2_y].
  split; [lia|].
  unfold patch_area. cbn [int2_x int2_y].
  set (wd := Z.min (Z.min (int4_z (nlm_rect E) - qx)
                          (int4_z (nlm_rect E) - nlm_x E)) (nlm_f E + 1)
             - Z.max (Z.max (int4_x (nlm_rect E) - qx)
                            (int4_x (nlm_rect E) - nlm_x E)) (- nlm_f E)).
  set (ht := Z.min (Z.min (int4_w (nlm_rect E) - qy)
                          (int4_w (nlm_rect E) - nlm_y E)) (nlm_f E + 1)
             - Z.max (Z.max (int4_y (nlm_rect E) - qy)
                            (int4_y (nlm_rect E) - nlm_y E)) (- nlm_f E)).
  assert (Hwd : 1 <= wd <= 2 * nlm_f E + 1) by (unfold wd; lia).
  assert (Hht : 1 <= ht <= 2 * nlm_f E + 1) by (unfold ht; lia).
  unfold Int32.mul, Int32.sub. fold wd ht.
  rewrite (wrap_small wd)
    by (unfold Int32.in_range, Int32.min_signed, Int32.max_signed; lia).
  rewrite (wrap_small ht)
    by (unfold Int32.in_range, Int32.min_signed, Int32.max_signed; lia).
  assert (Hprod : 1 <= wd * ht <= (2 * nlm_f E + 1) * (2 * nlm_f E + 1)).
  { split.
    - change 1 with (1 * 1). apply Z.mul_le_mono_nonneg; lia.
    - apply Z.mul_le_mono_nonneg; lia. }
  rewrite wrap_small
    by (unfold Int32.in_range, Int32.min_signed, Int32.max_signed; lia).
  split; [exact Hprod|].
  apply recip_area_positive. unfold Int32.max_signed. lia.
Qed.

Lemma nlm_patch_never_empty_witness :
  patch_fits noisy_env /\ in_rect (nlm_rect noisy_env) (3, 0)
  /\ 1 <= patch_area (low_dPatch noisy_env 3 0) (high_dPatch noisy_env 3 0)
     <= (2 * nlm_f noisy_env + 1) * (2 * nlm_f noisy_env + 1).
Proof.
  assert (Hfit : patch_fits noisy_env).
  { unfold patch_fits, rect_fits, in_rect, Int32.in_range.
    vm_compute. intuition discriminate. }
  assert (Hq : in_rect (nlm_rect noisy_env) (3, 0)).
  { unfold in_rect. vm_compute. intuition discriminate. }
  split; [exact Hfit|]. split; [exact Hq|].
  exact (proj1 (proj2 (nlm_patch_never_empty noisy_env 3 0 Hfit Hq))).
Defined.

Section NlmReads.

Variable fast_expf : float -> float.
Variables (x y : Z) (n1 n2 w1 w2 v1 v2 : Z -> float).
Variables (rect : int4) (r f : Z) (a k_2 : float).

Let E1 := Nlm_env x y n1 w1 v1 rect r f a k_2.
Let E2 := Nlm_env x y n2 w2 v2 rect r f a k_2.

Hypothesis Hfit : patch_fits E1.
Hypothesis Hbuf : buffer_fits rect.
Hypothesis Hn : agree_on_buffer rect n1 n2.
Hypothesis Hw : agree_on_buffer rect w1 w2.
Hypothesis Hv : agree_on_buffer rect v1 v2.

(** The summand of the distance at an offset that keeps both [p] and [q]
    in the rectangle reads cells of the buffer only. *)
Lemma patch_term_agree (qx qy dx dy : Z) :
  in_rect rect (x + dx, y + dy) -> in_rect rect (qx + dx, qy + dy) ->
  patch_term E1 (pixel_index qx qy rect) (patch_offset rect dx dy)
  = patch_term E2 (pixel_index qx qy rect) (patch_offset rect dx dy).
Proof.
  intros Hp Hq.
  unfold patch_term, E1, E2, nlm_p_idx.
  cbn [nlm_weightImage nlm_variance nlm_a nlm_k_2 nlm_x nlm_y nlm_rect].
  rewrite !pixel_index_offset.
  pose proof (pixel_index_in_buffer rect _ _ Hbuf Hp) as Bp.
  pose proof (pixel_index_in_buffer rect _ _ Hbuf Hq) as Bq.
  now rewrite (Hw _ Bp), (Hw _ Bq), (Hv _ Bp), (Hv _ Bq).
Qed.

(** The offsets of the patch at a candidate of the rectangle keep both
    [p] and [q] in the rectangle. *)
Lemma patch_offsets_in_rect (qx qy dx dy : Z) :
  in_rect rect (qx, qy) ->
  int2_x (low_dPatch E1 qx qy) <= dx < int2_x (high_dPatch E1 qx qy) ->
  int2_y (low_dPatch E1 qx qy) <= dy < int2_y (high_dPatch E1 qx qy) ->
  in_rect rect (x + dx, y + dy) /\ in_rect rect (qx + dx, qy + dy).
Proof.
  intros Hq.
  destruct (patch_bounds E1 qx qy Hfit Hq) as [Hlo Hhi].
  rewrite Hlo, Hhi. cbn [int2_x int2_y nlm_rect nlm_x nlm_y nlm_f E1].
  unfold in_rect. cbn [fst snd]. lia.
Qed.

Lemma patch_row_agree (qx qy dy : Z) (dI : float) :
  in_rect rect (qx, qy) ->
  int2_y (low_dPatch E1 qx qy) <= dy < int2_y (high_dPatch E1 qx qy) ->
  let lo := low_dPatch E1 qx qy in
  let hi := high_dPatch E1 qx qy in
  let st := (patch_offset rect (int2_x lo) dy, dI) in
  patch_row E1 (pixel_index qx qy rect) lo hi st
  = patch_row E2 (pixel_index qx qy rect) lo hi st
  /\ fst (patch_row E1 (pixel_index qx qy rect) lo hi st)
     = patch_offset rect (int2_x lo) (dy + 1).
Proof.
  intros Hq Hdy lo hi st.
  assert (Hne : int2_x lo <= int2_x hi).
  { destruct (patch_spans_origin E1 qx qy Hfit Hq) as [H1 H2].
    unfold lo, hi. lia. }
  unfold patch_row, for_lt.
  replace (nlm_w E2) with (buffer_w rect) by reflexivity.
  replace (nlm_w E1) with (buffer_w rect) by reflexivity.
  destruct (for_range_agree
              (fun dx (st : Z * float) => fst st = patch_offset rect dx dy)
              (Z.to_nat (int2_x hi - int2_x lo)) (int2_x lo)
              (fun (_ : Z) '(dIdx, dI) =>
                 (Int32.add dIdx 1,
                  F32.add dI (patch_term E1 (pixel_index qx qy rect) dIdx)))
              (fun (_ : Z) '(dIdx, dI) =>
                 (Int32.add dIdx 1,
                  F32.add dI (patch_term E2 (pixel_index qx qy rect) dIdx)))
              st) as [Heq Hend].
  - reflexivity.
  - intros dx [dIdx dI0] Hdx HP. cbn [fst] in HP. subst dIdx.
    rewrite Z2Nat.id in Hdx by lia.
    destruct (patch_offsets_in_rect qx qy dx dy Hq) as [Hp' Hq'];
      [fold lo hi; lia | exact Hdy |].
    split.
    + now rewrite (patch_term_agree qx qy dx dy Hp' Hq').
    + cbn [fst]. apply patch_offset_next.
  - rewrite <- Heq.
    rewrite Z2Nat.id in Hend by lia.
    replace (int2_x lo + (int2_x hi - int2_x lo)) with (int2_x hi) in Hend
      by lia.
    destruct (for_range _ _ _ st) as [dIdx dI'].
    cbn [fst] in Hend |- *. subst dIdx.
    split; [reflexivity|]. apply patch_offset_next_row.
Qed.

Lemma patch_distance_agree (qx qy : Z) :
  in_rect rect (qx, qy) ->
  patch_distance E1 qx qy (pixel_index qx qy rect)
  = patch_distance E2 qx qy (pixel_index qx qy rect).
Proof.
  intros Hq.
  destruct (patch_spans_origin E1 qx qy Hfit Hq) as [_ Hy].
  unfold patch_distance, for_lt. cbv zeta.
  replace (low_dPatch E2 qx qy) with (low_dPatch E1 qx qy) by reflexivity.
  replace (high_dPatch E2 qx qy) with (high_dPatch E1 qx qy) by reflexivity.
  replace (nlm_w E2) with (buffer_w rect) by reflexivity.
  replace (nlm_w E1) with (buffer_w rect) by reflexivity.
  set (lo := low_dPatch E1 qx qy) in *.
  set (hi := high_dPatch E1 qx qy) in *.
  change (Int32.add (int2_x lo) (Int32.mul (int2_y lo) (buffer_w rect)))
    with (patch_offset rect (int2_x lo) (int2_y lo)).
  destruct (for_range_agree
              (fun dy (st : Z * float) =>
                 fst st = patch_offset rect (int2_x lo) dy)
              (Z.to_nat (int2_y hi - int2_y lo)) (int2_y lo)
              (fun (_ : Z) st =>
                 patch_row E1 (pixel_index qx qy rect) lo hi st)
              (fun (_ : Z) st =>
                 patch_row E2 (pixel_index qx qy rect) lo hi st)
              (patch_offset rect (int2_x lo) (int2_y lo), F32.zero))
    as [Heq _].
  - reflexivity.
  - intros dy [dIdx dI0] Hdy HP. cbn [fst] in HP. subst dIdx.
    rewrite Z2Nat.id in Hdy by lia.
    apply (patch_row_agree qx qy dy dI0 Hq). fold lo hi. lia.
  - now rewrite Heq.
Qed.

Lemma accumulate_agree (acc : float * float) (q : Z * Z) :
  in_rect rect q ->
  accumulate fast_expf E1 acc q = accumulate fast_expf E2 acc q.
Proof.
  intros Hq. destruct q as [qx qy].
  unfold accumulate, weight_at, nlm_weight, q_index.
  cbn [fst snd].
  replace (nlm_rect E2) with rect by reflexivity.
  replace (nlm_rect E1) with rect by reflexivity.
  rewrite (patch_distance_agree qx qy Hq).
  replace (nlm_noisyImage E1) with n1 by reflexivity.
  replace (nlm_noisyImage E2) with n2 by reflexivity.
  now rewrite (Hn _ (pixel_index_in_buffer rect qx qy Hbuf Hq)).
Qed.

Lemma nlm_result_agree : nlm_result fast_expf E1 = nlm_result fast_expf E2.
Proof.
  unfold nlm_result. rewrite !nlm_sums_fold.
  replace (nlm_window E2) with (nlm_window E1) by reflexivity.
  rewrite (fold_left_agree (accumulate fast_expf E1)
             (accumulate fast_expf E2)); [reflexivity|].
  intros acc q Hq. apply accumulate_agree.
  apply (nlm_window_in_rect E1 q Hq).
Qed.

End NlmReads.

(** X9. The filter reads cells of its three input buffers only: for a
    target pixel of a rectangle whose padded size is an [int] and a patch
    half-size [f >= 0] with [(2f+1)^2] an [int], two memories that agree on
    the [(rect.w - rect.y) * buffer_w] cells of [noisyImage], of
    [weightImage] and of [variance] make the kernel store the same float to
    the same cell, whatever else the memories hold, for every radius [r];
    and the cell stored to has an index inside the buffer. *)
Theorem nlm_reads_inside_buffers
    (fast_expf : float -> float) (x y : Z)
    (noisyImage weightImage variance filteredImage : ptr)
    (rect : int4) (r f : Z) (a k_2 : float) (s1 s2 : state) :
  let K := kernel_filter_non_local_means fast_expf x y noisyImage weightImage
             variance filteredImage rect r f a k_2 in
  buffer_fits rect -> in_rect rect (x, y) ->
  0 <= f -> (2 * f + 1) * (2 * f + 1) <= Int32.max_signed ->
  (forall i, 0 <= i < shadow_Bofs rect ->
             load s1 noisyImage i = load s2 noisyImage i
             /\ load s1 weightImage i = load s2 weightImage i
             /\ load s1 variance i = load s2 variance i) ->
  appended s1 (K s1) = appended s2 (K s2)
  /\ 0 <= pixel_index x y rect < shadow_Bofs rect.
Proof.
  intros K Hbuf Hin Hf Harea Hagree.
  split; [|apply pixel_index_in_buffer; assumption].
  unfold K, kernel_filter_non_local_means. cbv zeta.
  rewrite (appended_app _ _ _ (trace_store s1 _ _ _)).
  rewrite (appended_app _ _ _ (trace_store s2 _ _ _)).
  unfold nlm_p_idx. cbn [nlm_x nlm_y nlm_rect].
  rewrite (nlm_result_agree fast_expf x y
             (load s1 noisyImage) (load s2 noisyImage)
             (load s1 weightImage) (load s2 weightImage)
             (load s1 variance) (load s2 variance) rect r f a k_2).
  - reflexivity.
  - split; [exact (proj1 Hbuf)|]. split; [exact Hin|]. split; assumption.
  - exact Hbuf.
  - intros i Hi. apply (Hagree i Hi).
  - intros i Hi. apply (Hagree i Hi).
  - intros i Hi. apply (Hagree i Hi).
Qed.

Lemma nlm_reads_inside_buffers_witness :
  buffer_fits Image4x4.rect /\ in_rect Image4x4.rect (1, 1)
  /\ appended (Image4x4.uniform five F32.zero)
       (kernel_filter_non_local_means expf_coarse 1 1 Image4x4.noisyImage
          Image4x4.weightImage Image4x4.variance Image4x4.filteredImage
          Image4x4.rect 1 1 F32.one F32.one (Image4x4.uniform five F32.zero))
     = appended (fenced five F32.zero)
         (kernel_filter_non_local_means expf_coarse 1 1 Image4x4.noisyImage
            Image4x4.weightImage Image4x4.variance Image4x4.filteredImage
            Image4x4.rect 1 1 F32.one F32.one (fenced five F32.zero)).
Proof.
  assert (Hbuf : buffer_fits Image4x4.rect).
  { unfold buffer_fits, rect_fits, Int32.in_range.
    vm_compute. intuition discriminate. }
  assert (Hin : in_rect Image4x4.rect (1, 1)).
  { unfold in_rect. vm_compute. intuition discriminate. }
  split; [exact Hbuf|]. split; [exact Hin|].
  refine (proj1 (nlm_reads_inside_buffers expf_coarse 1 1 Image4x4.noisyImage
                   Image4x4.weightImage Image4x4.variance
                   Image4x4.filteredImage Image4x4.rect 1 1 F32.one F32.one
                   (Image4x4.uniform five F32.zero) (fenced five F32.zero)
                   Hbuf Hin _ _ _)).
  - lia.
  - vm_compute; discriminate.
  - intros i Hi. change (shadow_Bofs Image4x4.rect) with 16 in Hi.
    unfold load, fenced. cbn [fmem blk ofs Image4x4.noisyImage
      Image4x4.weightImage Image4x4.variance].
    rewrite Z.add_0_l.
    destruct (Z.leb_spec 0 i); [|lia].
    destruct (Z.ltb_spec i 16); [|lia].
    repeat split.
Defined.

(** ** What the kernels leave alone, and calls for two pixels *)

(** Two stores to different cells commute, as far as the memory goes. *)
Lemma fmem_store_swap (s : state) (p q : ptr) (i j : Z) (u v : float)
      (b : block) (o : Z) :
  cell p i <> cell q j ->
  fmem (store (store s p i u) q j v) b o
  = fmem (store (store s q j v) p i u) b o.
Proof.
  unfold cell, store. cbn [fmem]. intros Hne.
  destruct (Pos.eqb_spec b (blk q)), (Z.eqb_spec o (ofs q + j)),
           (Pos.eqb_spec b (blk p)), (Z.eqb_spec o (ofs p + i));
    cbn [andb]; try reflexivity.
  exfalso. apply Hne. congruence.
Qed.

(** The memory after a store, cell by cell. *)
Lemma fmem_store (s : state) (p : ptr) (i : Z) (v : float) (b : block)
      (o : Z) :
  fmem (store s p i v) b o
  = if cell_eqb (b, o) (cell p i) then v else fmem s b o.
Proof. reflexivity. Qed.

Lemma cell_eqb_spec (c d : block * Z) : reflect (c = d) (cell_eqb c d).
Proof.
  destruct c as [b o], d as [b' o']. unfold cell_eqb. cbn [fst snd].
  destruct (Pos.eqb_spec b b'), (Z.eqb_spec o o'); cbn [andb];
    constructor; congruence.
Qed.

(** X10. [kernel_filter_get_feature] changes the two cells [mean[idx]] and
    [variance[idx]] and no other cell of the memory; when the pass record
    is in another allocation than the two outputs, the kernel does not
    change what it reads. *)
Theorem get_feature_frame
    (kg : KernelGlobals) (sample : Z) (buffers : Z -> ptr)
    (m_offset v_offset x y : Z) (tile_x tile_y offset stride : int_array)
    (mean variance : ptr) (rect : int4) (s : state) :
  let cb := center_buffer kg buffers x y tile_x tile_y offset stride in
  let idx := pixel_index x y rect in
  let s' := kernel_filter_get_feature kg sample buffers m_offset v_offset
              x y tile_x tile_y offset stride mean variance rect s in
  (forall b o, (b, o) <> cell mean idx -> (b, o) <> cell variance idx ->
               fmem s' b o = fmem s b o)
  /\ map ev_cell (appended s s') = [cell mean idx; cell variance idx]
  /\ (blk cb <> blk mean -> blk cb <> blk variance ->
      forall i, load s' cb i = load s cb i).
Proof.
  cbv zeta. unfold kernel_filter_get_feature. cbv zeta.
  split; [|split].
  - intros b o Hm Hv. now rewrite !fmem_store_other.
  - erewrite appended_app; [|rewrite !trace_store, <- app_assoc; reflexivity].
    reflexivity.
  - intros Hm Hv i. now rewrite !load_store_block.
Qed.

Lemma get_feature_frame_witness :
  1%positive <> 2%positive /\ 1%positive <> 3%positive
  /\ forall i, load (Tile4x4.get_feature 2 3 4 1 1) (Ptr 1%positive 100) i
               = load Tile4x4.mem (Ptr 1%positive 100) i.
Proof.
  split; [discriminate|]. split; [discriminate|].
  refine (proj2 (proj2 (get_feature_frame Tile4x4.kg 2 Tile4x4.buffers 3 4
                   1 1 Tile4x4.tile_bounds Tile4x4.tile_bounds Tile4x4.offset
                   Tile4x4.stride (Ptr 2%positive 0) (Ptr 3%positive 0)
                   Tile4x4.rect Tile4x4.mem)) _ _); discriminate.
Defined.

(** X11. Two calls of [kernel_filter_get_feature] for pixels with different
    indices, on a pass in another allocation than the two outputs, which
    are two allocations themselves, leave the same memory in either order:
    the calls for the pixels of a rectangle can run in any order. *)
Theorem get_feature_calls_commute
    (kg : KernelGlobals) (sample : Z) (buffers : Z -> ptr)
    (m_offset v_offset x1 y1 x2 y2 : Z)
    (tile_x tile_y offset stride : int_array)
    (mean variance : ptr) (rect : int4) (s : state) :
  let K := fun x y =>
             kernel_filter_get_feature kg sample buffers m_offset v_offset
               x y tile_x tile_y offset stride mean variance rect in
  (forall t, blk (buffers t) <> blk mean) ->
  (forall t, blk (buffers t) <> blk variance) ->
  blk mean <> blk variance ->
  pixel_index x1 y1 rect <> pixel_index x2 y2 rect ->
  forall b o, fmem (K x2 y2 (K x1 y1 s)) b o = fmem (K x1 y1 (K x2 y2 s)) b o.
Proof.
  intros K Hm Hv Hmv Hidx b o.
  unfold K, kernel_filter_get_feature. cbv zeta.
  set (cb1 := center_buffer kg buffers x1 y1 tile_x tile_y offset stride).
  set (cb2 := center_buffer kg buffers x2 y2 tile_x tile_y offset stride).
  assert (H1m : blk cb1 <> blk mean) by apply Hm.
  assert (H1v : blk cb1 <> blk variance) by apply Hv.
  assert (H2m : blk cb2 <> blk mean) by apply Hm.
  assert (H2v : blk cb2 <> blk variance) by apply Hv.
  rewrite !load_store_block by assumption.
  rewrite !fmem_store.
  unfold cell.
  destruct (cell_eqb_spec (b, o) (blk variance, ofs variance + pixel_index x1 y1 rect)) as [E1|N1];
    destruct (cell_eqb_spec (b, o) (blk variance, ofs variance + pixel_index x2 y2 rect)) as [E2|N2];
    destruct (cell_eqb_spec (b, o) (blk mean, ofs mean + pixel_index x1 y1 rect)) as [E3|N3];
    destruct (cell_eqb_spec (b, o) (blk mean, ofs mean + pixel_index x2 y2 rect)) as [E4|N4];
    try reflexivity; exfalso;
    repeat match goal with
           | H : (_, _) = (_, _) |- _ => injection H as ? ?
           end; subst; try (apply Hmv; congruence); try lia.
Qed.

Lemma get_feature_calls_commute_witness :
  pixel_index 1 1 Tile4x4.rect <> pixel_index 2 1 Tile4x4.rect
  /\ forall b o,
       fmem (kernel_filter_get_feature Tile4x4.kg 2 Tile4x4.buffers 3 4 2 1
               Tile4x4.tile_bounds Tile4x4.tile_bounds Tile4x4.offset
               Tile4x4.stride (Ptr 2%positive 0) (Ptr 3%positive 0)
               Tile4x4.rect (Tile4x4.get_feature 2 3 4 1 1)) b o
       = fmem (kernel_filter_get_feature Tile4x4.kg 2 Tile4x4.buffers 3 4 1 1
                 Tile4x4.tile_bounds Tile4x4.tile_bounds Tile4x4.offset
                 Tile4x4.stride (Ptr 2%positive 0) (Ptr 3%positive 0)
                 Tile4x4.rect (Tile4x4.get_feature 2 3 4 2 1)) b o.
Proof.
  assert (Hidx : pixel_index 1 1 Tile4x4.rect <> pixel_index 2 1 Tile4x4.rect)
    by (vm_compute; discriminate).
  split; [exact Hidx|].
  refine (get_feature_calls_commute Tile4x4.kg 2 Tile4x4.buffers 3 4 1 1 2 1
            Tile4x4.tile_bounds Tile4x4.tile_bounds Tile4x4.offset
            Tile4x4.stride (Ptr 2%positive 0) (Ptr 3%positive 0) Tile4x4.rect
            Tile4x4.mem _ _ _ Hidx).
  - intros t; discriminate.
  - intros t; discriminate.
  - discriminate.
Defined.

(** X12. [kernel_filter_combine_halves] with both output pointers null does
    nothing; with both set, and the two output cells different from each
    other and from the cells [a[idx]] and [b[idx]] it reads, it leaves the
    mean and the buffer variance of the two values the half buffers held
    before the call, and every other cell of the memory as it was. *)
Theorem combine_halves_separate
    (x y : Z) (mean variance a b : ptr) (rect : int4) (s : state) :
  let idx := pixel_index x y rect in
  let s' := kernel_filter_combine_halves x y (Some mean) (Some variance)
              a b rect s in
  cell mean idx <> cell a idx -> cell mean idx <> cell b idx ->
  cell mean idx <> cell variance idx ->
  kernel_filter_combine_halves x y None None a b rect s = s
  /\ load s' mean idx = (F32.half * (load s a idx + load s b idx))%f32
  /\ load s' variance idx
     = (F32.half * (load s a idx - load s b idx)
          * (load s a idx - load s b idx))%f32
  /\ (forall c o, (c, o) <> cell mean idx -> (c, o) <> cell variance idx ->
                  fmem s' c o = fmem s c o).
Proof.
  cbv zeta. intros Hma Hmb Hmv.
  unfold kernel_filter_combine_halves. cbv zeta.
  split; [reflexivity|].
  split; [|split].
  - rewrite load_store_cell by exact Hmv. apply load_store_same.
  - rewrite load_store_same.
    rewrite !(load_store_cell s mean a)
      by (intros H; apply Hma; symmetry; exact H).
    rewrite !(load_store_cell s mean b)
      by (intros H; apply Hmb; symmetry; exact H).
    reflexivity.
  - intros c o Hm Hv. now rewrite !fmem_store_other.
Qed.

Lemma combine_halves_separate_witness :
  cell Halves4x4.mean 5 <> cell Halves4x4.a 5
  /\ load (kernel_filter_combine_halves 1 1 (Some Halves4x4.mean)
             (Some Halves4x4.variance) Halves4x4.a Halves4x4.b
             (make_int4 0 0 4 4) Halves4x4.mem) Halves4x4.mean 5
     = (F32.half * (F32.of_int 5 + F32.of_int 15))%f32.
Proof.
  split; [discriminate|].
  refine (proj1 (proj2 (combine_halves_separate 1 1 Halves4x4.mean
                   Halves4x4.variance Halves4x4.a Halves4x4.b
                   (make_int4 0 0 4 4) Halves4x4.mem _ _ _)));
    discriminate.
Defined.

(** X13. Called in place, with the mean written over the half buffer [a],
    [kernel_filter_combine_halves] computes the buffer variance from the
    mean it has just stored and not from the value [a[idx]] held before:
    the variance stored is [0.5f * (m - b[idx]) * (m - b[idx])] with
    [m = 0.5f * (a[idx] + b[idx])]. *)
Theorem combine_halves_in_place
    (x y : Z) (variance a b : ptr) (rect : int4) (s : state) :
  let idx := pixel_index x y rect in
  let s' := kernel_filter_combine_halves x y (Some a) (Some variance)
              a b rect s in
  let m := (F32.half * (load s a idx + load s b idx))%f32 in
  cell b idx <> cell a idx ->
  load s' variance idx
  = (F32.half * (m - load s b idx) * (m - load s b idx))%f32
  /\ (cell a idx <> cell variance idx -> load s' a idx = m).
Proof.
  cbv zeta. intros Hba.
  unfold kernel_filter_combine_halves. cbv zeta.
  split.
  - rewrite load_store_same.
    rewrite !load_store_same.
    rewrite !(load_store_cell s a b) by exact Hba.
    reflexivity.
  - intros Hav. rewrite load_store_cell by exact Hav.
    apply load_store_same.
Qed.

Lemma combine_halves_in_place_witness :
  cell Halves4x4.b 5 <> cell Halves4x4.a 5
  /\ load (kernel_filter_combine_halves 1 1 (Some Halves4x4.a)
             (Some Halves4x4.variance) Halves4x4.a Halves4x4.b
             (make_int4 0 0 4 4) Halves4x4.mem) Halves4x4.variance 5
     = (F32.half
          * (F32.half * (F32.of_int 5 + F32.of_int 15) - F32.of_int 15)
          * (F32.half * (F32.of_int 5 + F32.of_int 15) - F32.of_int 15))%f32.
Proof.
  split; [discriminate|].
  refine (proj1 (combine_halves_in_place 1 1 Halves4x4.variance Halves4x4.a
                   Halves4x4.b (make_int4 0 0 4 4) Halves4x4.mem _)).
  discriminate.
Defined.

(** X14. [kernel_filter_non_local_means] changes the cell
    [filteredImage[p_idx]] and no other.  With the output in another
    allocation than the three images it reads, a call stores the same float
    whether or not a call for another pixel has run before, and two calls
    for pixels with different indices leave the same memory in either
    order. *)
Theorem nlm_calls_commute
    (fast_expf : float -> float) (x1 y1 x2 y2 : Z)
    (noisyImage weightImage variance filteredImage : ptr)
    (rect : int4) (r f : Z) (a k_2 : float) (s : state) :
  let K := fun x y =>
             kernel_filter_non_local_means fast_expf x y noisyImage
               weightImage variance filteredImage rect r f a k_2 in
  blk noisyImage <> blk filteredImage ->
  blk weightImage <> blk filteredImage ->
  blk variance <> blk filteredImage ->
  (forall c o, (c, o) <> cell filteredImage (pixel_index x1 y1 rect) ->
               fmem (K x1 y1 s) c o = fmem s c o)
  /\ appended (K x1 y1 s) (K x2 y2 (K x1 y1 s)) = appended s (K x2 y2 s)
  /\ (pixel_index x1 y1 rect <> pixel_index x2 y2 rect ->
      forall c o,
        fmem (K x2 y2 (K x1 y1 s)) c o = fmem (K x1 y1 (K x2 y2 s)) c o).
Proof.
  intros K Hn Hw Hv.
  assert (Hres : forall x y x' y' v,
             nlm_result fast_expf
               (Nlm_env x y
                  (load (store s filteredImage (pixel_index x' y' rect) v)
                        noisyImage)
                  (load (store s filteredImage (pixel_index x' y' rect) v)
                        weightImage)
                  (load (store s filteredImage (pixel_index x' y' rect) v)
                        variance) rect r f a k_2)
             = nlm_result fast_expf
                 (Nlm_env x y (load s noisyImage) (load s weightImage)
                    (load s variance) rect r f a k_2)).
  { intros x y x' y' v. apply nlm_result_ext.
    - reflexivity.
    - intros i. now apply load_store_block.
    - intros i. now apply load_store_block.
    - intros i. now apply load_store_block. }
  unfold K, kernel_filter_non_local_means. cbv zeta.
  unfold nlm_p_idx. cbn [nlm_x nlm_y nlm_rect].
  split; [|split].
  - intros c o Hc. now rewrite fmem_store_other.
  - rewrite Hres.
    rewrite (appended_app _ _ _ (trace_store _ _ _ _)).
    rewrite (appended_app _ _ _ (trace_store _ _ _ _)).
    reflexivity.
  - intros Hidx c o. rewrite !Hres.
    apply fmem_store_swap. unfold cell. intros H. apply Hidx.
    injection H as H. lia.
Qed.

Lemma nlm_calls_commute_witness :
  1%positive <> 4%positive /\ 2%positive <> 4%positive
  /\ 3%positive <> 4%positive
  /\ appended
       (kernel_filter_non_local_means expf_coarse 1 1 Image4x4.noisyImage
          Image4x4.weightImage Image4x4.variance Image4x4.filteredImage
          Image4x4.rect 1 1 F32.one F32.one (Image4x4.uniform five F32.zero))
       (kernel_filter_non_local_means expf_coarse 2 1 Image4x4.noisyImage
          Image4x4.weightImage Image4x4.variance Image4x4.filteredImage
          Image4x4.rect 1 1 F32.one F32.one
          (kernel_filter_non_local_means expf_coarse 1 1 Image4x4.noisyImage
             Image4x4.weightImage Image4x4.variance Image4x4.filteredImage
             Image4x4.rect 1 1 F32.one F32.one
             (Image4x4.uniform five F32.zero)))
     = appended (Image4x4.uniform five F32.zero)
         (kernel_filter_non_local_means expf_coarse 2 1 Image4x4.noisyImage
            Image4x4.weightImage Image4x4.variance Image4x4.filteredImage
            Image4x4.rect 1 1 F32.one F32.one
            (Image4x4.uniform five F32.zero)).
Proof.
  split; [discriminate|]. split; [discriminate|]. split; [discriminate|].
  refine (proj1 (proj2 (nlm_calls_commute expf_coarse 1 1 2 1
                   Image4x4.noisyImage Image4x4.weightImage Image4x4.variance
                   Image4x4.filteredImage Image4x4.rect 1 1 F32.one F32.one
                   (Image4x4.uniform five F32.zero) _ _ _))); discriminate.
Defined.

(** ** [kernel_filter_non_local_means]: an empty window *)

Lemma nlm_window_empty (E : nlm_env) :
  int2_x (nlm_high E) <= int2_x (nlm_low E)
  \/ int2_y (nlm_high E) <= int2_y (nlm_low E) ->
  nlm_window E = [].
Proof.
  unfold nlm_window. intros [H|H].
  - rewrite (zrange_empty _ _ H).
    induction (zrange _ _) as [|qy l IH]; [reflexivity | exact IH].
  - now rewrite (zrange_empty _ _ H).
Qed.

(** X15. With a negative radius [r], [x - r] and [x + r + 1] being [int]s,
    the search window is empty, the loops over [q] do not run a single
    time, and the kernel stores [0.0f / 0.0f], NaN, whatever the images
    hold and whatever [fast_expf] is. *)
Theorem nlm_negative_radius
    (fast_expf : float -> float) (x y : Z)
    (noisyImage weightImage variance filteredImage : ptr)
    (rect : int4) (r f : Z) (a k_2 : float) (s : state) :
  let E := Nlm_env x y (load s noisyImage) (load s weightImage)
             (load s variance) rect r f a k_2 in
  let s' := kernel_filter_non_local_means fast_expf x y noisyImage
              weightImage variance filteredImage rect r f a k_2 s in
  r < 0 -> Int32.in_range (x - r) -> Int32.in_range (x + r + 1) ->
  nlm_window E = []
  /\ nlm_sums fast_expf E = (F32.zero, F32.zero)
  /\ appended s s'
     = [Ev (blk filteredImage) (ofs filteredImage + pixel_index x y rect)
          S754_nan].
Proof.
  intros E s' Hr Hlo Hhi.
  assert (Hadd : Int32.add (Int32.add x r) 1 = x + r + 1).
  { transitivity (Int32.wrap (x + r + 1)); [|apply wrap_small; exact Hhi].
    unfold Int32.add. apply wrap_congr. rewrite wrap_eqm. reflexivity. }
  assert (Hempty : nlm_window E = []).
  { apply nlm_window_empty. left.
    unfold nlm_low, nlm_high, max_i, min_i, E.
    cbn [int2_x nlm_x nlm_r nlm_rect].
    rewrite Hadd. unfold Int32.sub.
    rewrite (wrap_small (x - r)) by exact Hlo.
    lia. }
  assert (Hsums : nlm_sums fast_expf E = (F32.zero, F32.zero)).
  { rewrite nlm_sums_fold, Hempty. reflexivity. }
  split; [exact Hempty|]. split; [exact Hsums|].
  unfold s', kernel_filter_non_local_means. cbv zeta. fold E.
  rewrite (appended_app _ _ _ (trace_store _ _ _ _)).
  unfold nlm_result. rewrite Hsums.
  reflexivity.
Qed.

Lemma nlm_negative_radius_witness :
  -1 < 0 /\ Int32.in_range (1 - -1) /\ Int32.in_range (1 + -1 + 1)
  /\ appended (Image4x4.uniform five F32.zero)
       (kernel_filter_non_local_means expf_coarse 1 1 Image4x4.noisyImage
          Image4x4.weightImage Image4x4.variance Image4x4.filteredImage
          Image4x4.rect (-1) 1 F32.one F32.one
          (Image4x4.uniform five F32.zero))
     = [Ev 4%positive 5 S754_nan].
Proof.
  assert (H1 : Int32.in_range (1 - -1))
    by (unfold Int32.in_range; vm_compute; intuition discriminate).
  assert (H2 : Int32.in_range (1 + -1 + 1))
    by (unfold Int32.in_range; vm_compute; intuition discriminate).
  split; [lia|]. split; [exact H1|]. split; [exact H2|].
  refine (proj2 (proj2 (nlm_negative_radius expf_coarse 1 1
                   Image4x4.noisyImage Image4x4.weightImage Image4x4.variance
                   Image4x4.filteredImage Image4x4.rect (-1) 1 F32.one F32.one
                   (Image4x4.uniform five F32.zero) _ H1 H2))).
  lia.
Defined.

(** ** Sample counts whose product is not an [int] *)

Lemma of_int_neg (p : positive) :
  F32.of_int (Z.neg p) = F32.opp (F32.of_int (Z.pos p)).
Proof.
  unfold F32.of_int. cbn [binary_normalize]. apply (round_opp false).
Qed.

Lemma div_opp_r (x y : float) :
  F32.div x (F32.opp y) = F32.opp (F32.div x y).
Proof.
  destruct x as [sx|sx| |sx mx ex], y as [sy|sy| |sy my ey];
    try reflexivity; try (destruct sx, sy; reflexivity).
  unfold F32.div, F32.opp. cbn [SFdiv SFopp].
  destruct (SFdiv_core_binary F32.prec F32.emax (Z.pos mx) ex (Z.pos my) ey)
    as [[mz ez] lz].
  change (binary_round_aux F32.prec F32.emax (xorb sx (negb sy)) mz ez lz
          = F32.opp (binary_round_aux F32.prec F32.emax (xorb sx sy)
                       mz ez lz)).
  rewrite <- round_aux_opp. f_equal. destruct sx, sy; reflexivity.
Qed.

(** X22. For sample counts from 46342 to 65536 the product
    [sample * (sample-1)] is above the largest [int]; with the
    two's-complement wrap-around of the [int] product it comes out as the
    exact product minus 2^32, a negative number, and the factor [varFac]
    that [kernel_filter_divide_shadow] scales the sample variances with is
    a negative float. *)
Theorem varFac_wraps_negative (sample : Z) :
  46342 <= sample <= 65536 ->
  Int32.max_signed < sample * (sample - 1)
  /\ Int32.mul sample (Int32.sub sample 1) = sample * (sample - 1) - 2 ^ 32
  /\ Int32.mul sample (Int32.sub sample 1) < 0
  /\ F32.ltb (varFac sample) F32.zero = true.
Proof.
  intros Hs.
  assert (HP : 2 ^ 31 < sample * (sample - 1) < 2 ^ 32 - 65535) by nia.
  assert (Hmul : Int32.mul sample (Int32.sub sample 1)
                 = sample * (sample - 1) - 2 ^ 32).
  { unfold Int32.mul, Int32.sub.
    rewrite (wrap_small (sample - 1))
      by (unfold Int32.in_range, Int32.min_signed, Int32.max_signed; lia).
    destruct (wrap_spec (sample * (sample - 1))) as (k & Hk & Hr).
    unfold Int32.in_range, Int32.min_signed, Int32.max_signed in Hr.
    assert (k = -1) by lia. subst k. lia. }
  split; [unfold Int32.max_signed; lia|].
  split; [exact Hmul|]. split; [lia|].
  unfold varFac. rewrite Hmul.
  set (z := 2 ^ 32 - sample * (sample - 1)).
  assert (Hz : 0 < z <= Int32.max_signed)
    by (unfold z, Int32.max_signed; lia).
  replace (sample * (sample - 1) - 2 ^ 32) with (- z) by (unfold z; lia).
  pose proof (recip_area_positive z Hz) as Hpos.
  destruct z as [|p|p]; try lia.
  change (- Z.pos p) with (Z.neg p).
  rewrite of_int_neg, div_opp_r.
  destruct (F32.div F32.one (F32.of_int (Z.pos p))) as [t|t| |[] m e];
    try discriminate Hpos.
  reflexivity.
Qed.

Lemma varFac_wraps_negative_witness :
  46342 <= 46342 <= 65536
  /\ Int32.mul 46342 (Int32.sub 46342 1) = 46342 * (46342 - 1) - 2 ^ 32
  /\ F32.ltb (varFac 46342) F32.zero = true.
Proof.
  split; [lia|].
  split.
  - refine (proj1 (proj2 (varFac_wraps_negative 46342 _))). lia.
  - refine (proj2 (proj2 (proj2 (varFac_wraps_negative 46342 _)))). lia.
Defined.

(** * The frame-range parser *)

Section ParserFacts.

Variable isspace : ascii -> bool.

(** ** White space *)

Lemma parse_whitespace_split (s : list ascii) :
  exists ws, s = ws ++ parse_whitespace isspace s
             /\ forallb isspace ws = true.
Proof.
  induction s as [|c s IH].
  - exists []. split; reflexivity.
  - cbn [parse_whitespace]. destruct (isspace c) eqn:Hc.
    + destruct IH as (ws & Hs & Hws).
      exists (c :: ws). split.
      * cbn [app]. now rewrite <- Hs.
      * cbn [forallb]. now rewrite Hc, Hws.
    + exists []. split; reflexivity.
Qed.

Lemma parse_whitespace_head (s : list ascii) :
  match parse_whitespace isspace s with
  | c :: _ => isspace c = false
  | [] => True
  end.
Proof.
  induction s as [|c s IH]; cbn [parse_whitespace]; [exact I|].
  destruct (isspace c) eqn:Hc; [exact IH | exact Hc].
Qed.

Lemma parse_whitespace_app (ws rest : list ascii) :
  forallb isspace ws = true ->
  parse_whitespace isspace (ws ++ rest) = parse_whitespace isspace rest.
Proof.
  induction ws as [|c ws IH]; intros H; [reflexivity|].
  cbn [forallb] in H. apply andb_prop in H. destruct H as [Hc Hws].
  cbn [app parse_whitespace]. rewrite Hc. apply IH, Hws.
Qed.

Lemma parse_whitespace_stop (rest : list ascii) :
  match rest with c :: _ => isspace c = false | [] => True end ->
  parse_whitespace isspace rest = rest.
Proof.
  destruct rest as [|c rest]; intros H; [reflexivity|].
  cbn [parse_whitespace]. now rewrite H.
Qed.

(** X16. [parse_whitespace] moves the pointer over the white space the
    string starts with and over nothing else: what it skips is white space
    only, it stops at the end of the string or at a character that is not
    white space, wherever that is, and a second call does not move the
    pointer again. *)
Theorem parse_whitespace_skips (s : list ascii) :
  (exists ws, s = ws ++ parse_whitespace isspace s
              /\ forallb isspace ws = true)
  /\ match parse_whitespace isspace s with
     | c :: _ => isspace c = false
     | [] => True
     end
  /\ parse_whitespace isspace (parse_whitespace isspace s)
     = parse_whitespace isspace s
  /\ (forall ws rest,
        s = ws ++ rest -> forallb isspace ws = true ->
        match rest with c :: _ => isspace c = false | [] => True end ->
        parse_whitespace isspace s = rest).
Proof.
  split; [apply parse_whitespace_split|].
  split; [apply parse_whitespace_head|].
  split.
  - apply parse_whitespace_stop, parse_whitespace_head.
  - intros ws rest Hs Hws Hrest. subst s.
    rewrite parse_whitespace_app by exact Hws.
    apply parse_whitespace_stop, Hrest.
Qed.

(** ** Literals *)

Lemma literal_loop_some (c lit c' lit' : list ascii) :
  literal_loop c lit = Some (c', lit') ->
  exists pre, c = pre ++ c' /\ lit = pre ++ lit' /\ (c' = [] \/ lit' = []).
Proof.
  revert lit. induction c as [|x c IH]; intros lit H.
  - cbn in H. injection H as <- <-. exists []. repeat split. now left.
  - destruct lit as [|y lit].
    + cbn in H. injection H as <- <-. exists []. repeat split. now right.
    + cbn [literal_loop] in H.
      destruct (Ascii.eqb x y) eqn:Hxy; [|discriminate H].
      apply Ascii.eqb_eq in Hxy. subst y.
      destruct (IH lit H) as (pre & Hc & Hl & Hend).
      exists (x :: pre). cbn [app]. now rewrite <- Hc, <- Hl.
Qed.

Lemma literal_loop_app (lit rest : list ascii) :
  literal_loop (lit ++ rest) lit = Some (rest, []).
Proof.
  induction lit as [|y lit IH]; cbn [app literal_loop].
  - now destruct rest.
  - now rewrite Ascii.eqb_refl.
Qed.

(** X17. For a literal that is not empty, [parse_literal] returns [true]
    and leaves the pointer at [s'] exactly when the string, after its
    leading white space, starts with the literal and goes on with [s']: the
    white space before the literal is skipped and nothing after it is.  For
    the empty literal it returns [true] without moving the pointer, the
    white space not being skipped. *)
Theorem parse_literal_accepts (s lit s' : list ascii) :
  lit <> [] ->
  (parse_literal isspace s lit = (true, s')
   <-> parse_whitespace isspace s = lit ++ s')
  /\ parse_literal isspace s [] = (true, s).
Proof.
  intros Hlit. split; [|reflexivity].
  destruct lit as [|y lit]; [contradiction|].
  unfold parse_literal. split.
  - destruct (literal_loop (parse_whitespace isspace s) (y :: lit))
      as [[c lit']|] eqn:Hloop; [|discriminate].
    intros H. destruct lit' as [|z lit']; [|discriminate H].
    injection H as ->.
    destruct (literal_loop_some _ _ _ _ Hloop) as (pre & Hc & Hl & _).
    rewrite app_nil_r in Hl. now subst pre.
  - intros H. rewrite H, literal_loop_app. reflexivity.
Qed.

(** X18. When [parse_literal] returns [false], either two characters
    differed and the pointer is where it was, before the white space, or
    the string ended inside the literal and the pointer is at the end of
    the string: the rest of the string after its white space is then a
    proper prefix of the literal. *)
Theorem parse_literal_rejects (s lit : list ascii) :
  fst (parse_literal isspace s lit) = false ->
  snd (parse_literal isspace s lit) = s
  \/ (snd (parse_literal isspace s lit) = []
      /\ exists more, more <> []
                      /\ lit = parse_whitespace isspace s ++ more).
Proof.
  unfold parse_literal. destruct lit as [|y lit]; [discriminate|].
  destruct (literal_loop (parse_whitespace isspace s) (y :: lit))
    as [[c lit']|] eqn:Hloop; cbn [fst snd]; [|now left].
  intros H. destruct lit' as [|z lit']; [discriminate H|].
  destruct (literal_loop_some _ _ _ _ Hloop) as (pre & Hc & Hl & Hend).
  destruct Hend as [->|Habs]; [|discriminate Habs].
  right. split; [reflexivity|].
  exists (z :: lit'). split; [discriminate|].
  rewrite app_nil_r in Hc. now rewrite Hc.
Qed.

(** The pointer [parse_literal] leaves is a pointer into the string, and
    behind the literal if it was found. *)
Lemma parse_literal_suffix (s lit : list ascii) :
  exists pre,
    s = pre ++ snd (parse_literal isspace s lit)
    /\ (fst (parse_literal isspace s lit) = true -> lit <> [] -> pre <> []).
Proof.
  unfold parse_literal. destruct lit as [|y lit].
  - exists []. split; [reflexivity|]. intros _ H. now contradiction H.
  - destruct (literal_loop (parse_whitespace isspace s) (y :: lit))
      as [[c lit']|] eqn:Hloop; cbn [fst snd].
    + destruct (parse_whitespace_split s) as (ws & Hs & _).
      destruct (literal_loop_some _ _ _ _ Hloop) as (pre & Hc & Hl & _).
      exists (ws ++ pre). split.
      * rewrite <- app_assoc, <- Hc. exact Hs.
      * intros Hok _. destruct lit' as [|z lit']; [|discriminate Hok].
        rewrite app_nil_r in Hl. subst pre.
        intros H. apply app_eq_nil in H. destruct H as [_ H].
        discriminate H.
    + exists []. split; [reflexivity|]. intros H. discriminate H.
Qed.

Lemma position_app (pre s : list ascii) :
  position (pre ++ s) s = Z.of_nat (length pre).
Proof. unfold position. rewrite length_app. lia. Qed.

Lemma parse_error_log_text (msg s : list ascii) (pos : Z) :
  parse_error_log msg s pos <> [].
Proof.
  unfold parse_error_log. intros H.
  apply app_eq_nil in H. destruct H as [_ H]. discriminate H.
Qed.

Section Ranges.

Variable strtol : list ascii -> Z * nat.

(** ** Ranges *)

Lemma parse_range_cases (s : list ascii) (start end_ : Z) (out : list ascii)
      (ok : bool) (s' : list ascii) (start' end' : Z) (out' : list ascii) :
  parse_range isspace strtol s start end_ out = (ok, s', start', end', out') ->
  exists pre,
    s = pre ++ s'
    /\ (ok = true -> pre <> [] /\ out' = out)
    /\ (ok = false ->
        exists msg, (msg = expected_int \/ msg = expected_dash)
                    /\ out' = out ++ parse_error_log msg s (position s s')).
Proof.
  unfold parse_range, parse_int.
  destruct (strtol s) as [v n].
  pose proof (firstn_skipn n s) as Hn.
  destruct (Nat.eqb n 0) eqn:Hn0; cbn [negb].
  - intros H. injection H as <- <- <- <- <-.
    exists (firstn n s). split; [now rewrite Hn|].
    split; [discriminate|]. intros _.
    exists expected_int. split; [now left | reflexivity].
  - destruct (parse_literal isspace (skipn n s) ["-"%char]) as [dash s1]
      eqn:HL.
    destruct (parse_literal_suffix (skipn n s) ["-"%char])
      as (pre1 & H1 & Hpre1).
    rewrite HL in H1, Hpre1. cbn [fst snd] in H1, Hpre1.
    destruct dash; cbn [negb].
    + destruct (strtol s1) as [v2 n2].
      pose proof (firstn_skipn n2 s1) as Hn2.
      assert (Hs : s = (firstn n s ++ pre1 ++ firstn n2 s1) ++ skipn n2 s1).
      { rewrite <- !app_assoc, Hn2, <- H1. now rewrite Hn. }
      destruct (Nat.eqb n2 0) eqn:Hn20; cbn [negb];
        intros H; injection H as <- <- <- <- <-;
        exists (firstn n s ++ pre1 ++ firstn n2 s1);
        (split; [exact Hs|]).
      * split; [discriminate|]. intros _.
        exists expected_int. split; [now left | reflexivity].
      * split; [|discriminate]. intros _. split; [|reflexivity].
        intros H. apply app_eq_nil in H. destruct H as [_ H].
        apply app_eq_nil in H. destruct H as [H _].
        now apply (Hpre1 eq_refl).
    + intros H. injection H as <- <- <- <- <-.
      exists (firstn n s ++ pre1). split.
      * rewrite <- app_assoc, <- H1. now rewrite Hn.
      * split; [discriminate|]. intros _.
        exists expected_dash. split; [now right | reflexivity].
Qed.

(** X19. [parse_range] moves the pointer forward only, and it reports every
    failure: when it returns [true] it has gone over at least one
    character and printed nothing; when it returns [false] it has printed
    one of its two messages, the string it was called on, and a caret
    after as many blanks as the characters it went over before it gave
    up, which are at most the length of the string. *)
Theorem parse_range_reports (s : list ascii) (start end_ : Z)
    (out : list ascii) (ok : bool) (s' : list ascii) (start' end' : Z)
    (out' : list ascii) :
  parse_range isspace strtol s start end_ out = (ok, s', start', end', out') ->
  (exists pre, s = pre ++ s' /\ position s s' = Z.of_nat (length pre))
  /\ 0 <= position s s' <= Z.of_nat (length s)
  /\ (ok = true -> s' <> s /\ out' = out)
  /\ (ok = false ->
      exists msg,
        (msg = expected_int \/ msg = expected_dash)
        /\ out'
           = out ++ msg ++ [":"%char; newline] ++ s ++ [newline]
               ++ repeat " "%char (length s - length s')
               ++ ["^"%char; newline]).
Proof.
  intros H.
  destruct (parse_range_cases _ _ _ _ _ _ _ _ _ H) as (pre & Hs & Hok & Hko).
  assert (Hpos : position s s' = Z.of_nat (length pre))
    by (rewrite Hs at 1; apply position_app).
  assert (Hlen : length s = (length pre + length s')%nat)
    by (rewrite Hs at 1; apply length_app).
  split; [exists pre; split; assumption|].
  split; [rewrite Hpos; lia|].
  split.
  - intros Ht. destruct (Hok Ht) as [Hpre Hout]. split; [|exact Hout].
    intros Heq. apply Hpre. apply length_zero_iff_nil.
    rewrite Heq in Hlen. lia.
  - intros Hf. destruct (Hko Hf) as (msg & Hmsg & Hout).
    exists msg. split; [exact Hmsg|].
    rewrite Hout. unfold parse_error_log. rewrite Hpos.
    replace (Z.abs_nat (Z.of_nat (length pre)))
      with (length s - length s')%nat by lia.
    reflexivity.
Qed.

(** ** Lists of ranges *)

Lemma parse_slices_loop_returns (fuel : nat) (s : list ascii)
      (start end_ : Z) (slices : list (Z * Z)) (out : list ascii) :
  (length s < fuel)%nat ->
  exists ok new out',
    parse_slices_loop isspace strtol fuel s start end_ slices out
    = Some (ok, slices ++ new, out')
    /\ (ok = true -> new <> [] /\ out' = out)
    /\ (ok = false -> exists text, text <> [] /\ out' = out ++ text).
Proof.
  revert s start end_ slices out.
  induction fuel as [|fuel IH]; intros s start end_ slices out Hfuel;
    [lia|].
  cbn [parse_slices_loop].
  destruct (parse_range isspace strtol s start end_ out)
    as [[[[ok s1] st1] en1] out1] eqn:HR.
  destruct (parse_range_cases _ _ _ _ _ _ _ _ _ HR) as (pre & Hs & Hok & Hko).
  destruct ok; cbn [negb].
  - destruct (Hok eq_refl) as [Hpre ->].
    destruct (parse_literal isspace s1 [","%char]) as [comma s2] eqn:HL.
    destruct (parse_literal_suffix s1 [","%char]) as (pre2 & H2 & Hpre2).
    rewrite HL in H2, Hpre2. cbn [fst snd] in H2, Hpre2.
    destruct comma; cbn [negb].
    + destruct s2 as [|c s2].
      * exists true, [(st1, en1)], out. split; [reflexivity|].
        split; [intros _; split; [discriminate | reflexivity]|].
        discriminate.
      * assert (Hlen : (length (c :: s2) < fuel)%nat).
        { assert (L1 : length s = (length pre + length s1)%nat)
            by (rewrite Hs at 1; apply length_app).
          assert (L2 : length s1 = (length pre2 + length (c :: s2))%nat)
            by (rewrite H2 at 1; apply length_app).
          assert (P1 : (0 < length pre)%nat)
            by (destruct pre; [contradiction | cbn; lia]).
          lia. }
        destruct (IH (c :: s2) st1 en1 (slices ++ [(st1, en1)]) out Hlen)
          as (ok' & new' & out' & Hloop & Ht & Hf).
        exists ok', ((st1, en1) :: new'), out'.
        split.
        { rewrite Hloop. now rewrite <- app_assoc. }
        split.
        { intros Hok'. split; [discriminate | apply (Ht Hok')]. }
        exact Hf.
    + exists true, [(st1, en1)], out. split; [reflexivity|].
      split; [intros _; split; [discriminate | reflexivity]|].
      discriminate.
  - destruct (Hko eq_refl) as (msg & _ & Hout).
    exists false, [], out1. split; [now rewrite app_nil_r|].
    split; [discriminate|]. intros _.
    exists (parse_error_log msg s (position s s1)).
    split; [apply parse_error_log_text | exact Hout].
Qed.

(** X20. [parse_slices] returns, for every string: its loop runs at most
    once for each character and once more.  It only ever appends to the
    list of slices it is given; when it returns [true] it has appended at
    least one slice and printed nothing, and when it returns [false] it
    has printed an error, and the slices of the ranges before the bad one
    have been appended all the same. *)
Theorem parse_slices_returns (s : list ascii) (start end_ : Z)
    (slices : list (Z * Z)) (out : list ascii) :
  exists ok new out',
    parse_slices isspace strtol s start end_ slices out
    = Some (ok, slices ++ new, out')
    /\ (ok = true -> new <> [] /\ out' = out)
    /\ (ok = false -> exists text, text <> [] /\ out' = out ++ text).
Proof.
  unfold parse_slices. apply parse_slices_loop_returns. lia.
Qed.

(** The two local variables [start] and [end] of [parse_slices] are not
    initialised; [parse_range] writes both before it returns [true]. *)
Lemma parse_range_locals (s : list ascii) (a b a' b' : Z)
      (out : list ascii) :
  exists ok s1 st en en' out1,
    parse_range isspace strtol s a b out = (ok, s1, st, en, out1)
    /\ parse_range isspace strtol s a' b' out = (ok, s1, st, en', out1)
    /\ (ok = true -> en = en').
Proof.
  unfold parse_range, parse_int.
  destruct (strtol s) as [v n].
  destruct (Nat.eqb n 0); cbn [negb].
  - do 6 eexists. split; [reflexivity|]. split; [reflexivity|]. discriminate.
  - destruct (parse_literal isspace (skipn n s) ["-"%char]) as [dash s1].
    destruct dash; cbn [negb].
    + destruct (strtol s1) as [v2 n2].
      destruct (Nat.eqb n2 0); cbn [negb].
      * do 6 eexists. split; [reflexivity|]. split; [reflexivity|].
        discriminate.
      * do 6 eexists. split; [reflexivity|]. split; [reflexivity|].
        reflexivity.
    + do 6 eexists. split; [reflexivity|]. split; [reflexivity|].
      discriminate.
Qed.

(** X21. What [parse_slices] returns, appends and prints does not depend on
    the values its two uninitialised local variables [start] and [end]
    happen to hold: no slice is ever built from a value that was not
    parsed. *)
Theorem parse_slices_locals (s : list ascii) (a b a' b' : Z)
    (slices : list (Z * Z)) (out : list ascii) :
  parse_slices isspace strtol s a b slices out
  = parse_slices isspace strtol s a' b' slices out.
Proof.
  unfold parse_slices. generalize (S (length s)) as fuel.
  intros fuel. revert s a b a' b' slices out.
  induction fuel as [|fuel IH]; intros s a b a' b' slices out;
    [reflexivity|].
  cbn [parse_slices_loop].
  destruct (parse_range_locals s a b a' b' out)
    as (ok & s1 & st & en & en' & out1 & H1 & H2 & Hen).
  rewrite H1, H2.
  destruct ok; cbn [negb]; [|reflexivity].
  rewrite <- (Hen eq_refl).
  destruct (parse_literal isspace s1 [","%char]) as [comma s2].
  destruct comma; cbn [negb]; reflexivity.
Qed.

End Ranges.

End ParserFacts.

Lemma parse_range_reports_witness :
  parse_range isspace_c strtol_dec (String.list_ascii_of_string "12 x") 0 0 []
  = (false, String.list_ascii_of_string " x", 12, 0,
     expected_dash ++ String.list_ascii_of_string ":"
       ++ [newline] ++ String.list_ascii_of_string "12 x" ++ [newline]
       ++ String.list_ascii_of_string "  ^" ++ [newline])
  /\ 0 <= position (String.list_ascii_of_string "12 x")
            (String.list_ascii_of_string " x")
       <= Z.of_nat (length (String.list_ascii_of_string "12 x")).
Proof.
  assert (H : parse_range isspace_c strtol_dec
                (String.list_ascii_of_string "12 x") 0 0 []
              = (false, String.list_ascii_of_string " x", 12, 0,
                 expected_dash ++ String.list_ascii_of_string ":"
                   ++ [newline] ++ String.list_ascii_of_string "12 x"
                   ++ [newline] ++ String.list_ascii_of_string "  ^"
                   ++ [newline])) by reflexivity.
  split; [exact H|].
  exact (proj1 (proj2 (parse_range_reports isspace_c strtol_dec _ _ _ _ _ _
                         _ _ _ H))).
Defined.


Lemma parse_literal_accepts_witness :
  ["-"%char] <> []
  /\ parse_literal isspace_c
       (String.list_ascii_of_string "  -12") ["-"%char]
     = (true, String.list_ascii_of_string "12").
Proof.
  assert (H : ["-"%char] <> []) by discriminate.
  split; [exact H|].
  refine (proj2 (proj1 (parse_literal_accepts isspace_c
                          (String.list_ascii_of_string "  -12") ["-"%char]
                          (String.list_ascii_of_string "12") H)) _).
  reflexivity.
Defined.

Lemma parse_literal_rejects_witness :
  fst (parse_literal isspace_c (String.list_ascii_of_string "12 ")
         ["-"%char]) = false
  /\ (snd (parse_literal isspace_c (String.list_ascii_of_string "12 ")
             ["-"%char]) = String.list_ascii_of_string "12 "
      \/ (snd (parse_literal isspace_c (String.list_ascii_of_string "12 ")
                 ["-"%char]) = []
          /\ exists more,
               more <> []
               /\ ["-"%char]
                  = parse_whitespace isspace_c
                      (String.list_ascii_of_string "12 ") ++ more)).
Proof.
  split; [reflexivity|].
  apply (parse_literal_rejects isspace_c (String.list_ascii_of_string "12 ")
           ["-"%char]).
  reflexivity.
Defined.

(** ** [kernel_filter_divide_shadow]: calls for two pixels *)

Lemma fmem_stores (ws : list write) (s : state) (b : block) (o : Z) :
  fmem (stores s ws) b o
  = match written ws (b, o) with
    | Some v => v
    | None => fmem s b o
    end.
Proof.
  revert s. induction ws as [|w ws IH]; intros s; [reflexivity|].
  change (stores s (w :: ws))
    with (stores (store s (fst (fst w)) (snd (fst w)) (snd w)) ws).
  rewrite IH. cbn [written].
  destruct (written ws (b, o)); [reflexivity|].
  rewrite fmem_store. unfold write_cell.
  now destruct (cell_eqb (b, o) (cell (fst (fst w)) (snd (fst w)))).
Qed.

Lemma written_cells (ws : list write) (c : block * Z) :
  ~ In c (map write_cell ws) -> written ws c = None.
Proof.
  induction ws as [|w ws IH]; intros H; [reflexivity|].
  cbn [written map In] in *.
  rewrite IH by tauto.
  destruct (cell_eqb_spec c (write_cell w)) as [->|]; [|reflexivity].
  exfalso. apply H. now left.
Qed.

(** Two lists of stores to different cells leave the same memory in either
    order. *)
Lemma stores_commute (s : state) (ws1 ws2 : list write) :
  (forall c, In c (map write_cell ws1) -> ~ In c (map write_cell ws2)) ->
  forall b o,
    fmem (stores (stores s ws1) ws2) b o
    = fmem (stores (stores s ws2) ws1) b o.
Proof.
  intros Hdisj b o. rewrite !fmem_stores.
  destruct (in_dec cell_eq_dec (b, o) (map write_cell ws1)) as [H1|H1].
  - rewrite (written_cells ws2 (b, o) (Hdisj _ H1)). reflexivity.
  - rewrite (written_cells ws1 (b, o) H1).
    now destruct (written ws2 (b, o)).
Qed.

Lemma shadow_outputs_apart
      (unfiltered sampleVariance sampleVarianceV bufferVariance : ptr) :
  NoDup [blk unfiltered; blk sampleVariance; blk sampleVarianceV;
         blk bufferVariance] ->
  blk unfiltered <> blk sampleVariance
  /\ blk unfiltered <> blk sampleVarianceV
  /\ blk unfiltered <> blk bufferVariance
  /\ blk sampleVariance <> blk sampleVarianceV
  /\ blk sampleVariance <> blk bufferVariance
  /\ blk sampleVarianceV <> blk bufferVariance.
Proof.
  intros Hout.
  inversion Hout as [|? ? N1 D1]; subst.
  inversion D1 as [|? ? N2 D2]; subst.
  inversion D2 as [|? ? N3 D3]; subst.
  cbn [In] in N1, N2, N3. repeat split; intros E; intuition congruence.
Qed.

Section ShadowCommute.

Variables (kg : KernelGlobals) (sample : Z) (buffers : Z -> ptr).
Variables (tile_x tile_y offset stride : int_array).
Variables (unfiltered sampleVariance sampleVarianceV bufferVariance : ptr).
Variable rect : int4.

Let K (x y : Z) : state -> state :=
  kernel_filter_divide_shadow kg sample buffers x y tile_x tile_y offset
    stride unfiltered sampleVariance sampleVarianceV bufferVariance rect.

Let W (x y : Z) : state -> list write :=
  shadow_writes kg sample buffers x y tile_x tile_y offset stride unfiltered
    sampleVariance sampleVarianceV bufferVariance rect.

Hypothesis Hpass :
  forall t, ~ In (blk (buffers t))
              [blk unfiltered; blk sampleVariance; blk sampleVarianceV;
               blk bufferVariance].
Hypothesis Hout :
  NoDup [blk unfiltered; blk sampleVariance; blk sampleVarianceV;
         blk bufferVariance].

Lemma shadow_pass_apart (x y : Z) :
  let cb := center_buffer kg buffers x y tile_x tile_y offset stride in
  blk cb <> blk unfiltered /\ blk cb <> blk sampleVariance
  /\ blk cb <> blk sampleVarianceV /\ blk cb <> blk bufferVariance.
Proof.
  cbv zeta.
  pose proof (Hpass (tile_index x y tile_x tile_y)) as H.
  cbn [In] in H.
  change (blk (center_buffer kg buffers x y tile_x tile_y offset stride))
    with (blk (buffers (tile_index x y tile_x tile_y))).
  repeat split; intros E; apply H; rewrite E; tauto.
Qed.

(** A call is the list of its five stores, the floats taken from the pass
    record as it is before the call. *)
Lemma divide_shadow_as_stores (x y : Z) (s : state) :
  Int32.add (pixel_index x y rect) (shadow_Bofs rect) <> pixel_index x y rect ->
  K x y s = stores s (W x y s).
Proof.
  intros Hidx.
  destruct (shadow_outputs_apart _ _ _ _ Hout)
    as (U1 & U2 & U3 & V1 & V2 & V3).
  destruct (shadow_pass_apart x y) as (P1 & P2 & P3 & P4).
  unfold K, W, kernel_filter_divide_shadow, shadow_writes, stores.
  cbv zeta. cbn [fold_left fst snd].
  set (cb := center_buffer kg buffers x y tile_x tile_y offset stride) in *.
  rewrite !(load_store_block _ _ cb) by assumption.
  rewrite !(load_store_block _ sampleVarianceV unfiltered) by assumption.
  rewrite !(load_store_block _ sampleVariance unfiltered) by assumption.
  rewrite !load_store_same.
  rewrite !(load_store_cell _ unfiltered unfiltered
              (Int32.add (pixel_index x y rect) (shadow_Bofs rect))
              (pixel_index x y rect))
    by (unfold cell; intros E; injection E as E; apply Hidx; lia).
  rewrite !load_store_same.
  reflexivity.
Qed.

(** The stores of a call do not depend on what another call has stored. *)
Lemma shadow_writes_stable (x y : Z) (s : state) (ws : list write) :
  (forall w, In w ws ->
             In (blk (fst (fst w)))
                [blk unfiltered; blk sampleVariance; blk sampleVarianceV;
                 blk bufferVariance]) ->
  W x y (stores s ws) = W x y s.
Proof.
  intros Hws.
  assert (Hload : forall j,
             load (stores s ws)
               (center_buffer kg buffers x y tile_x tile_y offset stride) j
             = load s
                 (center_buffer kg buffers x y tile_x tile_y offset stride) j).
  { intros j. unfold load. rewrite fmem_stores.
    rewrite written_cells; [reflexivity|].
    intros Hin. apply in_map_iff in Hin. destruct Hin as (w & Hc & Hw).
    pose proof (Hws w Hw) as Hb.
    apply (Hpass (tile_index x y tile_x tile_y)).
    unfold write_cell, cell in Hc. injection Hc as Hc _.
    change (blk (center_buffer kg buffers x y tile_x tile_y offset stride))
      with (blk (buffers (tile_index x y tile_x tile_y))) in Hc.
    rewrite <- Hc. exact Hb. }
  unfold W, shadow_writes. cbv zeta. rewrite !Hload. reflexivity.
Qed.

Lemma shadow_writes_blocks (x y : Z) (s : state) (w : write) :
  In w (W x y s) ->
  In (blk (fst (fst w)))
     [blk unfiltered; blk sampleVariance; blk sampleVarianceV;
      blk bufferVariance].
Proof.
  unfold W, shadow_writes. cbv zeta. cbn [In].
  intros [<-|[<-|[<-|[<-|[<-|[]]]]]]; cbn [fst snd]; tauto.
Qed.

End ShadowCommute.

Lemma shadow_writes_cells
      (kg : KernelGlobals) (sample : Z) (buffers : Z -> ptr) (x y : Z)
      (tile_x tile_y offset stride : int_array)
      (unfiltered sampleVariance sampleVarianceV bufferVariance : ptr)
      (rect : int4) (s : state) :
  map write_cell
    (shadow_writes kg sample buffers x y tile_x tile_y offset stride
       unfiltered sampleVariance sampleVarianceV bufferVariance rect s)
  = shadow_cells x y rect unfiltered sampleVariance sampleVarianceV
      bufferVariance.
Proof. reflexivity. Qed.

(** The cells of two pixels with different indices [i1] and [i2] in the
    first half of [unfiltered]. *)
Lemma shadow_cells_disjoint
      (unfiltered sampleVariance sampleVarianceV bufferVariance : ptr)
      (i1 i2 B : Z) (c : block * Z) :
  NoDup [blk unfiltered; blk sampleVariance; blk sampleVarianceV;
         blk bufferVariance] ->
  i1 <> i2 -> 0 <= i1 < B -> 0 <= i2 < B ->
  In c [cell unfiltered i1; cell unfiltered (i1 + B); cell sampleVariance i1;
        cell sampleVarianceV i1; cell bufferVariance i1] ->
  ~ In c [cell unfiltered i2; cell unfiltered (i2 + B);
          cell sampleVariance i2; cell sampleVarianceV i2;
          cell bufferVariance i2].
Proof.
  intros Hout Hi B1 B2 H1 H2.
  destruct (shadow_outputs_apart _ _ _ _ Hout)
    as (U1 & U2 & U3 & V1 & V2 & V3).
  clear Hout. unfold cell in H1, H2. cbn [In] in H1, H2.
  destruct H1 as [E1|[E1|[E1|[E1|[E1|[]]]]]];
    destruct H2 as [E2|[E2|[E2|[E2|[E2|[]]]]]];
    rewrite <- E1 in E2; injection E2; intros;
    first [ congruence | lia ].
Qed.

(** The two cells of [unfiltered] that two different pixels of the
    rectangle are given are four different cells, when twice the padded
    size of the rectangle is an [int]. *)
Lemma shadow_indices_apart (rect : int4) (x1 y1 x2 y2 : Z) :
  buffer_fits rect ->
  2 * ((int4_w rect - int4_y rect) * (int4_z rect - int4_x rect + 3))
    <= Int32.max_signed ->
  in_rect rect (x1, y1) -> in_rect rect (x2, y2) -> (x1, y1) <> (x2, y2) ->
  let i1 := pixel_index x1 y1 rect in
  let i2 := pixel_index x2 y2 rect in
  let B := shadow_Bofs rect in
  i1 <> i2 /\ 0 <= i1 < B /\ 0 <= i2 < B
  /\ Int32.add i1 B = i1 + B /\ Int32.add i2 B = i2 + B.
Proof.
  intros Hbuf H2 P1 P2 Hne. cbv zeta.
  pose proof (pixel_index_in_buffer rect x1 y1 Hbuf P1) as B1.
  pose proof (pixel_index_in_buffer rect x2 y2 Hbuf P2) as B2.
  destruct Hbuf as [Hfit Hsize].
  assert (Hxz : int4_x rect < int4_z rect)
    by (destruct P1 as [H _]; cbn [fst] in H; lia).
  assert (Hyw : int4_y rect < int4_w rect)
    by (destruct P1 as [_ H]; cbn [snd] in H; lia).
  destruct (rect_layout rect Hfit Hsize Hxz Hyw) as (Hw & _ & HB & HI).
  assert (HBmax : 2 * shadow_Bofs rect <= Int32.max_signed).
  { rewrite HB.
    assert ((int4_w rect - int4_y rect) * buffer_w rect
            <= (int4_w rect - int4_y rect) * (int4_z rect - int4_x rect + 3))
      by (apply Z.mul_le_mono_nonneg_l; lia).
    lia. }
  split.
  - intros Heq. apply Hne.
    rewrite (HI x1 y1 P1), (HI x2 y2 P2) in Heq.
    destruct P1 as [Hx1 Hy1], P2 as [Hx2 Hy2]. cbn [fst snd] in *.
    set (w := buffer_w rect) in *.
    assert (Hy : y1 = y2) by nia.
    subst y2. f_equal. lia.
  - split; [exact B1|]. split; [exact B2|].
    unfold Int32.add.
    split; apply wrap_small;
      unfold Int32.in_range, Int32.min_signed, Int32.max_signed in *; lia.
Qed.

(** X23. Two calls of [kernel_filter_divide_shadow] for two different pixels
    of a rectangle leave the same memory whichever runs first, when the
    pass buffers and the four outputs are in different allocations and
    twice the padded size of the rectangle is an [int]: the two halves of
    [unfiltered] of one pixel are not touched by the call for another. *)
Theorem divide_shadow_calls_commute
    (kg : KernelGlobals) (sample : Z) (buffers : Z -> ptr)
    (x1 y1 x2 y2 : Z) (tile_x tile_y offset stride : int_array)
    (unfiltered sampleVariance sampleVarianceV bufferVariance : ptr)
    (rect : int4) (s : state) :
  let K := fun x y =>
             kernel_filter_divide_shadow kg sample buffers x y tile_x tile_y
               offset stride unfiltered sampleVariance sampleVarianceV
               bufferVariance rect in
  (forall t, ~ In (blk (buffers t))
               [blk unfiltered; blk sampleVariance; blk sampleVarianceV;
                blk bufferVariance]) ->
  NoDup [blk unfiltered; blk sampleVariance; blk sampleVarianceV;
         blk bufferVariance] ->
  buffer_fits rect ->
  2 * ((int4_w rect - int4_y rect) * (int4_z rect - int4_x rect + 3))
    <= Int32.max_signed ->
  in_rect rect (x1, y1) -> in_rect rect (x2, y2) -> (x1, y1) <> (x2, y2) ->
  forall b o, fmem (K x2 y2 (K x1 y1 s)) b o = fmem (K x1 y1 (K x2 y2 s)) b o.
Proof.
  intros K Hpass Hout Hbuf H2 P1 P2 Hne b o.
  destruct (shadow_indices_apart rect x1 y1 x2 y2 Hbuf H2 P1 P2 Hne)
    as (Hi & B1 & B2 & A1 & A2).
  destruct (shadow_outputs_apart unfiltered sampleVariance sampleVarianceV
              bufferVariance Hout) as (U1 & U2 & U3 & V1 & V2 & V3).
  assert (N1 : Int32.add (pixel_index x1 y1 rect) (shadow_Bofs rect)
               <> pixel_index x1 y1 rect) by lia.
  assert (N2 : Int32.add (pixel_index x2 y2 rect) (shadow_Bofs rect)
               <> pixel_index x2 y2 rect) by lia.
  pose proof (divide_shadow_as_stores kg sample buffers tile_x tile_y offset
                stride unfiltered sampleVariance sampleVarianceV
                bufferVariance rect Hpass Hout) as HK.
  pose proof (shadow_writes_stable kg sample buffers tile_x tile_y offset
                stride unfiltered sampleVariance sampleVarianceV
                bufferVariance rect Hpass) as HW.
  pose proof (shadow_writes_blocks kg sample buffers tile_x tile_y offset
                stride unfiltered sampleVariance sampleVarianceV
                bufferVariance rect) as HB.
  unfold K.
  rewrite (HK x1 y1 s N1), (HK x2 y2 s N2).
  rewrite (HK x2 y2 _ N2), (HK x1 y1 _ N1).
  rewrite (HW x2 y2 s _ (HB x1 y1 s)), (HW x1 y1 s _ (HB x2 y2 s)).
  apply stores_commute.
  intros c H1.
  rewrite shadow_writes_cells in H1 |- *.
  unfold shadow_cells in H1 |- *. cbv zeta in H1 |- *.
  rewrite A1 in H1. rewrite A2.
  apply (shadow_cells_disjoint unfiltered sampleVariance sampleVarianceV
           bufferVariance _ _ _ c Hout Hi B1 B2 H1).
Qed.

Lemma divide_shadow_calls_commute_witness :
  buffer_fits Tile4x4.rect
  /\ in_rect Tile4x4.rect (1, 1) /\ in_rect Tile4x4.rect (2, 3)
  /\ (1, 1) <> (2, 3)
  /\ forall b o,
       fmem (kernel_filter_divide_shadow Tile4x4.kg 4 Tile4x4.buffers 2 3
               Tile4x4.tile_bounds Tile4x4.tile_bounds Tile4x4.offset
               Tile4x4.stride Tile4x4.unfiltered Tile4x4.sampleVariance
               Tile4x4.sampleVarianceV Tile4x4.bufferVariance Tile4x4.rect
               (Tile4x4.divide_shadow 4 1 1)) b o
       = fmem (kernel_filter_divide_shadow Tile4x4.kg 4 Tile4x4.buffers 1 1
                 Tile4x4.tile_bounds Tile4x4.tile_bounds Tile4x4.offset
                 Tile4x4.stride Tile4x4.unfiltered Tile4x4.sampleVariance
                 Tile4x4.sampleVarianceV Tile4x4.bufferVariance Tile4x4.rect
                 (Tile4x4.divide_shadow 4 2 3)) b o.
Proof.
  assert (Hbuf : buffer_fits Tile4x4.rect).
  { unfold buffer_fits, rect_fits, Int32.in_range.
    vm_compute. intuition discriminate. }
  assert (P1 : in_rect Tile4x4.rect (1, 1)).
  { unfold in_rect. vm_compute. intuition discriminate. }
  assert (P2 : in_rect Tile4x4.rect (2, 3)).
  { unfold in_rect. vm_compute. intuition discriminate. }
  assert (Hne : (1, 1) <> (2, 3)) by discriminate.
  split; [exact Hbuf|]. split; [exact P1|]. split; [exact P2|].
  split; [exact Hne|].
  refine (divide_shadow_calls_commute Tile4x4.kg 4 Tile4x4.buffers 1 1 2 3
            Tile4x4.tile_bounds Tile4x4.tile_bounds Tile4x4.offset
            Tile4x4.stride Tile4x4.unfiltered Tile4x4.sampleVariance
            Tile4x4.sampleVarianceV Tile4x4.bufferVariance Tile4x4.rect
            Tile4x4.mem _ _ Hbuf _ P1 P2 Hne).
  - intros t. cbn. intuition discriminate.
  - repeat constructor; cbn; intuition discriminate.
  - vm_compute. discriminate.
Defined.

(** ** The buffer variance of the shadow pass as a combination of halves *)

(** X24. The buffer variance that [kernel_filter_divide_shadow] leaves in
    [bufferVariance[idx]] is the float that
    [kernel_filter_combine_halves] computes afterwards for the same pixel
    from the two halves of [unfiltered], passed as [a = unfiltered] and
    [b = unfiltered + Bofs], when [idx + Bofs] is an [int] and
    [unfiltered] and [bufferVariance] are different allocations. *)
Theorem divide_shadow_then_combine
    (kg : KernelGlobals) (sample : Z) (buffers : Z -> ptr) (x y : Z)
    (tile_x tile_y offset stride : int_array)
    (unfiltered sampleVariance sampleVarianceV bufferVariance variance : ptr)
    (rect : int4) (s : state) :
  let idx := pixel_index x y rect in
  let Bofs := shadow_Bofs rect in
  let s' := kernel_filter_divide_shadow kg sample buffers x y tile_x tile_y
              offset stride unfiltered sampleVariance sampleVarianceV
              bufferVariance rect s in
  let s'' := kernel_filter_combine_halves x y None (Some variance)
               unfiltered (ptr_add unfiltered Bofs) rect s' in
  blk unfiltered <> blk bufferVariance ->
  Int32.in_range (idx + Bofs) ->
  load s'' variance idx = load s' bufferVariance idx.
Proof.
  cbv zeta. intros Hblk Hrange.
  unfold kernel_filter_combine_halves. cbv zeta.
  rewrite load_store_same.
  rewrite !load_ptr_add.
  replace (shadow_Bofs rect + pixel_index x y rect)
    with (Int32.add (pixel_index x y rect) (shadow_Bofs rect))
    by (unfold Int32.add; rewrite (wrap_small _ Hrange); lia).
  unfold kernel_filter_divide_shadow. cbv zeta.
  rewrite (load_store_same _ bufferVariance).
  rewrite !(load_store_block _ bufferVariance unfiltered) by exact Hblk.
  reflexivity.
Qed.

Lemma divide_shadow_then_combine_witness :
  2%positive <> 5%positive
  /\ Int32.in_range (pixel_index 1 1 Tile4x4.rect + shadow_Bofs Tile4x4.rect)
  /\ load (kernel_filter_combine_halves 1 1 None (Some (Ptr 6%positive 0))
             Tile4x4.unfiltered
             (ptr_add Tile4x4.unfiltered (shadow_Bofs Tile4x4.rect))
             Tile4x4.rect (Tile4x4.divide_shadow 4 1 1))
       (Ptr 6%positive 0) (pixel_index 1 1 Tile4x4.rect)
     = load (Tile4x4.divide_shadow 4 1 1) Tile4x4.bufferVariance
         (pixel_index 1 1 Tile4x4.rect).
Proof.
  assert (H1 : 2%positive <> 5%positive) by discriminate.
  assert (H2 : Int32.in_range
                 (pixel_index 1 1 Tile4x4.rect + shadow_Bofs Tile4x4.rect))
    by (unfold Int32.in_range; vm_compute; intuition discriminate).
  split; [exact H1|]. split; [exact H2|].
  exact (divide_shadow_then_combine Tile4x4.kg 4 Tile4x4.buffers 1 1
           Tile4x4.tile_bounds Tile4x4.tile_bounds Tile4x4.offset
           Tile4x4.stride Tile4x4.unfiltered Tile4x4.sampleVariance
           Tile4x4.sampleVarianceV Tile4x4.bufferVariance (Ptr 6%positive 0)
           Tile4x4.rect Tile4x4.mem H1 H2).
Defined.
